(** * o3din: identity normalisation, in-memory projections and durable config

A shallow embedding of the event-ingestion core of the bot
([src/lib/core/socket.js], the store bindings that follow it in the same
file) and of the durable configuration layer (the config module with
[encodeMeta], [decodeMeta], [RowCache] and [DataWrapper]), together with
the properties the specification states about them. *)

From Stdlib Require Import ZArith Lia Ascii String List Bool.
From Stdlib Require Import Floats.SpecFloat.
From stdpp Require Import base tactics option list strings gmap.

Local Open Scope string_scope.

(* ===================================================================== *)
(** ** JavaScript strings as the handlers use them *)
(* ===================================================================== *)

Module JsString.

(** [\d] of a JavaScript regular expression without the [u]/[v] flags. *)
Definition is_digit (c : ascii) : bool :=
  let n := nat_of_ascii c in (48 <=? n)%nat && (n <=? 57)%nat.

(** [s.includes(c)] for a one-character needle. *)
Fixpoint includes_char (c : ascii) (s : string) : bool :=
  match s with
  | EmptyString => false
  | String d s' => if Ascii.eqb c d then true else includes_char c s'
  end.

Fixpoint all_digits (s : string) : bool :=
  match s with
  | EmptyString => true
  | String c s' => is_digit c && all_digits s'
  end.

(** [/^[0-9]+$/.test(s)]. *)
Definition test_numeric (s : string) : bool :=
  match s with
  | EmptyString => false
  | _ => all_digits s
  end.

(** The longest run of digits at the head of [s], and what follows it. *)
Fixpoint span_digits (s : string) : string * string :=
  match s with
  | EmptyString => (EmptyString, EmptyString)
  | String c s' =>
      if is_digit c
      then let '(d, r) := span_digits s' in (String c d, r)
      else (EmptyString, s)
  end.

(** [s.endsWith(t)]. *)
Definition endsWith (s t : string) : bool :=
  let ls := String.length s in
  let lt := String.length t in
  (lt <=? ls)%nat && String.eqb (substring (ls - lt) lt s) t.

(** JavaScript truthiness of a string value: only the empty string is
    falsy. *)
Definition truthy (s : string) : bool :=
  match s with EmptyString => false | _ => true end.

(** Truthiness of a possibly absent ([undefined]/[null]) string. *)
Definition truthy_opt (s : option string) : bool :=
  match s with Some s => truthy s | None => false end.

End JsString.

(* ===================================================================== *)
(** ** Identity normaliser ([decodeJid], socket.js) *)
(* ===================================================================== *)

Module Jid.
Import JsString.

(** [isGroupJid]: [id && id.endsWith("@g.us")]. *)
Definition isGroupJid (id : string) : bool :=
  truthy id && endsWith id "@g.us".

(** [isStatusJid]: [!id || id === "status@broadcast"]. *)
Definition isStatusJid (id : string) : bool :=
  negb (truthy id) || String.eqb id "status@broadcast".

(** [raw.replace(/:\d+@/, "@")]: the leftmost match of a colon, one or
    more digits and an at-sign is replaced by the at-sign alone; the
    pattern has no [g] flag, so the text after the first match is copied
    as it is.  At a colon the greedy [\d+] takes the whole digit run, and
    giving digits back cannot help, since the character after a shorter
    run is a digit and not the at-sign. *)
Fixpoint strip_device (s : string) : string :=
  match s with
  | EmptyString => EmptyString
  | String c s' =>
      if Ascii.eqb c ":"
      then match span_digits s' with
           | (String _ _, String "@" r) => String "@" r
           | _ => String c (strip_device s')
           end
      else String c (strip_device s')
  end.

(** [decodeJid] on a string argument.  [None] is JavaScript's [null]: for
    the empty string [!raw] holds and [raw || null] is [null]. *)
Definition decodeJid (raw : string) : option string :=
  if negb (truthy raw) then None
  else
    let cleaned := strip_device raw in
    if includes_char "@" cleaned then Some cleaned
    else if test_numeric cleaned then Some (cleaned ++ "@s.whatsapp.net")
    else Some cleaned.

(** [decodeJid] on an argument that may be [undefined] or [null]. *)
Definition decodeJid_opt (raw : option string) : option string :=
  match raw with
  | None => None
  | Some s => decodeJid s
  end.

End Jid.

(* ===================================================================== *)
(** ** Ordinary objects used as dictionaries *)
(* ===================================================================== *)

Module JsObject.
Import JsString.

(** The value of a digit string, most significant digit first. *)
Fixpoint digits_value (acc : N) (s : string) : N :=
  match s with
  | EmptyString => acc
  | String c s' => digits_value (acc * 10 + (N_of_ascii c - 48))%N s'
  end.

(** A property key is an array index when it is the canonical decimal
    form of an integer below [2^32 - 1] (no sign, no leading zero). *)
Definition array_index (k : string) : option N :=
  match k with
  | EmptyString => None
  | String c rest =>
      if all_digits k
         && (negb (Ascii.eqb c "0") || String.eqb rest EmptyString)
         && (String.length k <=? 10)%nat
      then let n := digits_value 0 k in
           if (n <? 4294967295)%N then Some n else None
      else None
  end.

(** A key that is listed in creation order: neither an array index nor
    [__proto__]. *)
Definition ordinary_key (k : string) : bool :=
  negb (String.eqb k "__proto__")
  && match array_index k with Some _ => false | None => true end.

(** An object holding string-keyed own properties, kept in the order in
    which [Object.keys] lists them: array-index keys first, in ascending
    numeric order, then the other keys in the order of their creation. *)
Definition t (V : Type) : Type := list (string * V).

Section Ops.
Context {V : Type}.

Definition empty : t V := [].

Definition keys (o : t V) : list string := map fst o.

Fixpoint get (k : string) (o : t V) : option V :=
  match o with
  | [] => None
  | (k', v) :: o' => if String.eqb k k' then Some v else get k o'
  end.

Definition has (k : string) (o : t V) : bool :=
  match get k o with Some _ => true | None => false end.

(** Assignment to a property that exists keeps its place. *)
Fixpoint replace (k : string) (v : V) (o : t V) : t V :=
  match o with
  | [] => []
  | (k', v') :: o' =>
      if String.eqb k k' then (k, v) :: o' else (k', v') :: replace k v o'
  end.

(** A new array-index key goes after the smaller indices and before
    everything else. *)
Fixpoint insert_index (n : N) (k : string) (v : V) (o : t V) : t V :=
  match o with
  | [] => [(k, v)]
  | (k', v') :: o' =>
      match array_index k' with
      | Some n' =>
          if (n' <? n)%N then (k', v') :: insert_index n k v o'
          else (k, v) :: (k', v') :: o'
      | None => (k, v) :: (k', v') :: o'
      end
  end.

(** [o[k] = v].  An assignment to [__proto__] reaches the accessor of
    [Object.prototype] and creates no own property. *)
Definition set (k : string) (v : V) (o : t V) : t V :=
  if String.eqb k "__proto__" then o
  else if has k o then replace k v o
  else match array_index k with
       | Some n => insert_index n k v o
       | None => (o ++ [(k, v)])%list
       end.

(** [delete o[k]]. *)
Definition delete (k : string) (o : t V) : t V :=
  List.filter (fun kv => negb (String.eqb k (fst kv))) o.

(** [for (let i = 0; i < n; i++) delete o[ks[i]]] for a key array [ks]
    taken before the loop. *)
Definition delete_first (n : nat) (ks : list string) (o : t V) : t V :=
  fold_left (fun o' k => delete k o') (firstn n ks) o.

End Ops.

Arguments empty {V}.

End JsObject.

(* ===================================================================== *)
(** ** Messages as [conn.pushMessage] reads them (socket.js) *)
(* ===================================================================== *)

Module PushMessage.
Import JsString.

(** [WAMessageStubType.CIPHERTEXT] and the other stub types, which this
    code only tells apart from it. *)
Inductive StubType : Type :=
| CIPHERTEXT
| OtherStub (code : positive).

(** The content of a message is an object keyed by message kind.  Of the
    payload under a kind the code reads [groupId] (of a sender-key
    distribution) and [contextInfo]; the rest is opaque text here.  A
    context that quotes carries the content of the quoted message, which
    is content again. *)
Inductive Payload : Type :=
| mkPayload (text : string) (group : option string)
    (context : option ContextInfo)
with ContextInfo : Type :=
| mkContextInfo (quoted : option (list (string * Payload)))
    (stanza remote participant : option string).

Definition body (p : Payload) : string :=
  match p with mkPayload text _ _ => text end.

Definition groupId (p : Payload) : option string :=
  match p with mkPayload _ group _ => group end.

Definition contextInfo (p : Payload) : option ContextInfo :=
  match p with mkPayload _ _ context => context end.

Definition quotedMessage (ctx : ContextInfo)
    : option (JsObject.t Payload) :=
  match ctx with mkContextInfo quoted _ _ _ => quoted end.

Definition stanzaId (ctx : ContextInfo) : option string :=
  match ctx with mkContextInfo _ stanza _ _ => stanza end.

Definition ctx_remoteJid (ctx : ContextInfo) : option string :=
  match ctx with mkContextInfo _ _ remote _ => remote end.

Definition ctx_participant (ctx : ContextInfo) : option string :=
  match ctx with mkContextInfo _ _ _ participant => participant end.

(** The fields of an inbound message object that [pushMessage] and the
    handlers read.  [msg_message] is the [message] property: the content,
    absent for a bare stub. *)
Record WAMessage : Type := mkWAMessage {
  key_remoteJid : option string;
  key_id : option string;
  key_fromMe : bool;
  key_participant : option string;
  msg_participant : option string;
  msg_message : option (JsObject.t Payload);
  messageStubType : option StubType;
  messageTimestamp : option Z;
  pushName : option string
}.

Definition is_ciphertext (m : WAMessage) : bool :=
  match messageStubType m with Some CIPHERTEXT => true | _ => false end.

(** [mtypeKeys.find(k => k !== "senderKeyDistributionMessage" &&
    k !== "messageContextInfo")], and the last key when that finds nothing
    or finds the empty key, which [!mtype] takes for nothing.  [None] is
    [undefined], the answer for an object without keys. *)
Definition mtype_of (mtypeKeys : list string) : option string :=
  match
    find (fun k => negb (String.eqb k "senderKeyDistributionMessage")
                   && negb (String.eqb k "messageContextInfo")) mtypeKeys
  with
  | Some k => if truthy k then Some k else last mtypeKeys
  | None => last mtypeKeys
  end.

(** [a || b] on possibly absent strings. *)
Definition or_else (a b : option string) : option string :=
  if truthy_opt a then a else b.

Section Retention.

(** The bot's own linked identifier [conn.user?.lid], and the transport
    library's [areJidsSameUser]. *)
Variable lid : option string.
Variable areJidsSameUser : string -> string -> bool.

(** The sender [s] computed in the retention block. *)
Definition sender_of (chat : string) (message : WAMessage) : option string :=
  if Jid.isGroupJid chat
  then Jid.decodeJid_opt
         (or_else (if key_fromMe message then lid else None)
            (or_else (msg_participant message)
               (or_else (key_participant message) (Some chat))))
  else if key_fromMe message && truthy_opt lid then lid
  else Some chat.

(** [fromMe] of the retention block. *)
Definition fromMe_of (chat : string) (message : WAMessage) : bool :=
  key_fromMe message
  || match lid, sender_of chat message with
     | Some l, Some s =>
         if truthy l && truthy s then areJidsSameUser s l else false
     | _, _ => false
     end.

(** The guard of the retention block. *)
Definition retained (chat : string) (message : WAMessage) : bool :=
  match msg_message message with
  | None => false
  | Some msgObj =>
      match mtype_of (JsObject.keys msgObj) with
      | None => false
      | Some mtype =>
          negb (String.eqb mtype "senderKeyDistributionMessage")
          && negb (fromMe_of chat message)
          && negb (is_ciphertext message)
          && truthy_opt (key_id message)
      end
  end.

(** The copy that is stored: the message without its
    [messageContextInfo] and [senderKeyDistributionMessage] parts.  The
    copy is shallow, so the two parts are deleted from the content of the
    message that was handed over as well. *)
Definition cleanMsg (message : WAMessage) : WAMessage :=
  {| key_remoteJid := key_remoteJid message;
     key_id := key_id message;
     key_fromMe := key_fromMe message;
     key_participant := key_participant message;
     msg_participant := msg_participant message;
     msg_message :=
       option_map
         (fun o => JsObject.delete "senderKeyDistributionMessage"
                     (JsObject.delete "messageContextInfo" o))
         (msg_message message);
     messageStubType := messageStubType message;
     messageTimestamp := messageTimestamp message;
     pushName := pushName message |}.

(** The window update: store under the message id, then, when more than
    20 keys are present, delete the first [length - 15] of them. *)
Definition window_insert (id : string) (m : WAMessage)
    (messages : JsObject.t WAMessage) : JsObject.t WAMessage :=
  let messages1 := JsObject.set id m messages in
  let msgKeys := JsObject.keys messages1 in
  if (20 <? length msgKeys)%nat
  then JsObject.delete_first (length msgKeys - 15) msgKeys messages1
  else messages1.

(** The id under which a message is filed. *)
Definition id_of (m : WAMessage) : string := default "" (key_id m).

(** The property a retained message becomes. *)
Definition entry (m : WAMessage) : string * WAMessage :=
  (id_of m, cleanMsg m).

End Retention.

(** The number of entries in a window that started empty, after [n]
    retained messages with fresh ids. *)
Fixpoint window_size (n : nat) : nat :=
  match n with
  | O => O
  | S n' => let s := S (window_size n') in
            if (20 <? s)%nat then 15%nat else s
  end.

(** A text message from somebody else, as the transport delivers it. *)
Definition inbound (chat id : string) : WAMessage :=
  {| key_remoteJid := Some chat;
     key_id := Some id;
     key_fromMe := false;
     key_participant := None;
     msg_participant := None;
     msg_message := Some [("conversation", mkPayload "hi" None None)];
     messageStubType := None;
     messageTimestamp := Some 1700000000%Z;
     pushName := Some "Ann" |}.

Definition ids25 : list string :=
  ["3EB001"; "3EB002"; "3EB003"; "3EB004"; "3EB005";
   "3EB006"; "3EB007"; "3EB008"; "3EB009"; "3EB010";
   "3EB011"; "3EB012"; "3EB013"; "3EB014"; "3EB015";
   "3EB016"; "3EB017"; "3EB018"; "3EB019"; "3EB020";
   "3EB021"; "3EB022"; "3EB023"; "3EB024"; "3EB025"].

(** Twenty-five such messages for one chat. *)
Definition inbound25 : list WAMessage :=
  map (inbound "628123456789@s.whatsapp.net") ids25.

End PushMessage.

(* ===================================================================== *)
(** ** The entity store behind the connection accessors *)
(* ===================================================================== *)

Module MemoryStore.

(** [EVENT_PRIORITY]. *)
Inductive Tier : Type := CORE | AUX | NOISE.

Record QueuedEvent : Type := mkQueuedEvent {
    ev_name : string;
    ev_tier : Tier
  }.

(** Modelled from the spec: the class [MemoryStore] of [store/core.js],
    which the bindings import, is not among the sources.  The
    specification gives it as a keyed store with [get], [mget], [keys],
    [del] and [atomicSet]: a read of a missing key yields [null], a read
    after a write to the same key yields the value written, [keys] is a
    glob-style match over the key space, and every [atomicSet] is recorded
    in the priority queue under the tier of its kind.  The store is the
    single shared resource and no change to an entity is visible to other
    readers before it is committed with [atomicSet]: what [get] hands out
    is the value held, and a change made to it afterwards reaches the
    store only when it is written back.  Whether the class hands out the
    object it holds or a copy cannot be read off the sources at hand; the
    properties below that depend on it say so. *)
Record t (E : Type) : Type := mkStore {
  data : gmap string E;
  queue : list QueuedEvent
}.

Arguments mkStore {E} _ _.
Arguments data {E} _.
Arguments queue {E} _.

(** Modelled from the spec: of the kinds the bindings pass to
    [atomicSet] ("chat", "contact", "message", "group", "presence",
    "call", "blocklist"), presence is of the auxiliary tier and the
    others are of the core tier. *)
Definition tier_of_kind (kind : string) : Tier :=
  if String.eqb kind "presence" then AUX else CORE.

(** Modelled from the spec: glob-style match, [*] standing for any run of
    characters. *)
Fixpoint glob (pattern s : string) : bool :=
  match pattern with
  | EmptyString => String.eqb s EmptyString
  | String c p' =>
      if Ascii.eqb c "*"
      then (fix any (u : string) : bool :=
              glob p' u
              || match u with
                 | EmptyString => false
                 | String _ u' => any u'
                 end) s
      else match s with
           | EmptyString => false
           | String d s' => Ascii.eqb c d && glob p' s'
           end
  end.

Section Ops.
Context {E : Type}.

Definition new : t E := mkStore ∅ [].

Definition get (key : string) (st : t E) : option E := data st !! key.

Definition mget (ks : list string) (st : t E) : list (option E) :=
  map (fun k => data st !! k) ks.

Definition keys (pattern : string) (st : t E) : list string :=
  List.filter (glob pattern) (map fst (map_to_list (data st))).

Definition del (key : string) (st : t E) : t E :=
  mkStore (base.delete key (data st)) (queue st).

Definition enqueueEvent (name : string) (tier : Tier) (st : t E) : t E :=
  mkStore (data st) (queue st ++ [mkQueuedEvent name tier])%list.

Definition atomicSet (key : string) (value : E) (kind : string)
    (st : t E) : t E :=
  mkStore (<[key := value]> (data st))
          (queue st ++ [mkQueuedEvent kind (tier_of_kind kind)])%list.

End Ops.

End MemoryStore.

(* ===================================================================== *)
(** ** Store bindings and ingestion handlers ([bind], socket.js) *)
(* ===================================================================== *)

Module Bind.
Import JsString PushMessage.

Definition REDIS_PREFIX : string := "o3din:chat:".
Definition REDIS_MESSAGE_PREFIX : string := "o3din:message:".
Definition REDIS_BLOCKLIST_PREFIX : string := "o3din:blocklist:".

(** What [conn.groupMetadata] answers, as far as this code reads it: the
    subject, and the rest as opaque text. *)
Record GroupMetadata : Type := mkGroupMetadata {
  md_subject : option string;
  md_rest : string
}.

(** A chat entity: the attributes the handlers below and [pushMessage]
    read or write.  An attribute that is [None] is absent from the
    object. *)
Record Chat : Type := mkChatOf {
  chat_id : option string;
  conversationTimestamp : option Z;
  isChats : option bool;
  unreadCount : option Z;
  chat_name : option string;
  chat_messages : option (JsObject.t WAMessage);
  chat_subject : option string;
  chat_metadata : option GroupMetadata
}.

(** A chat entity of a chat that is not known to be a group: no subject
    and no metadata. *)
Abbreviation mkChat id timestamp chats unread name messages :=
  (mkChatOf id timestamp chats unread name messages None None).

(** [{ id }]. *)
Definition chat_of_id (id : string) : Chat :=
  mkChat (Some id) None None None None None.

(** What a key of the store holds. *)
Inductive Entity : Type :=
| EChat (c : Chat)
| EMessage (m : WAMessage)
| EBlocklist (l : list string).

Abbreviation Store := (MemoryStore.t Entity).

(** *** Accessors *)

Definition getChat (jid : string) (st : Store) : option Chat :=
  match MemoryStore.get (REDIS_PREFIX ++ jid) st with
  | Some (EChat c) => Some c
  | _ => None
  end.

Definition setChat (jid : string) (c : Chat) (st : Store) : Store :=
  MemoryStore.atomicSet (REDIS_PREFIX ++ jid) (EChat c) "chat" st.

Definition deleteChat (jid : string) (st : Store) : Store :=
  MemoryStore.del (REDIS_PREFIX ++ jid) st.

Definition getMessage (chatId messageId : string) (st : Store)
    : option WAMessage :=
  match
    MemoryStore.get (REDIS_MESSAGE_PREFIX ++ chatId ++ ":" ++ messageId) st
  with
  | Some (EMessage m) => Some m
  | _ => None
  end.

Definition setMessage (chatId messageId : string) (m : WAMessage)
    (st : Store) : Store :=
  MemoryStore.atomicSet (REDIS_MESSAGE_PREFIX ++ chatId ++ ":" ++ messageId)
    (EMessage m) "message" st.

(** [memoryStore.get(key) || []]. *)
Definition getBlocklist (st : Store) : list string :=
  match MemoryStore.get (REDIS_BLOCKLIST_PREFIX ++ "list") st with
  | Some (EBlocklist l) => l
  | _ => []
  end.

Definition setBlocklist (blocklist : list string) (st : Store) : Store :=
  MemoryStore.atomicSet (REDIS_BLOCKLIST_PREFIX ++ "list")
    (EBlocklist blocklist) "blocklist" st.

(** *** [messages.upsert] *)

(** [(chat.unreadCount || 0) + 1]. *)
Definition bump_unread (u : option Z) : Z :=
  match u with
  | Some n => n + 1
  | None => 0 + 1
  end.

(** The body of the loop, for one message of the event. *)
Definition messages_upsert_one (st : Store) (msg : WAMessage) : Store :=
  match key_remoteJid msg, key_id msg with
  | Some chatId, Some messageId =>
      if negb (truthy chatId) || negb (truthy messageId)
         || String.eqb chatId "status@broadcast"
      then st
      else
        let st1 := setMessage chatId messageId msg st in
        let chat := default (chat_of_id chatId) (getChat chatId st1) in
        let chat1 :=
          mkChatOf (chat_id chat) (messageTimestamp msg) (Some true)
            (unreadCount chat) (chat_name chat) (chat_messages chat)
            (chat_subject chat) (chat_metadata chat) in
        let chat2 :=
          if negb (key_fromMe msg)
          then mkChatOf (chat_id chat1) (conversationTimestamp chat1)
                 (isChats chat1) (Some (bump_unread (unreadCount chat1)))
                 (chat_name chat1) (chat_messages chat1)
                 (chat_subject chat1) (chat_metadata chat1)
          else chat1 in
        setChat chatId chat2 st1
  | _, _ => st
  end.

Definition messages_upsert (messages : list WAMessage) (st : Store) : Store :=
  fold_left messages_upsert_one messages
    (MemoryStore.enqueueEvent "messages.upsert" MemoryStore.CORE st).

(** *** [chats.update] and [chats.delete] *)

(** [{ ...existing, ...update }]: the properties present in the update
    win. *)
Definition merge_chat (existing update : Chat) : Chat :=
  let pick {A} (e u : option A) : option A :=
    match u with Some _ => u | None => e end in
  mkChatOf (pick (chat_id existing) (chat_id update))
    (pick (conversationTimestamp existing) (conversationTimestamp update))
    (pick (isChats existing) (isChats update))
    (pick (unreadCount existing) (unreadCount update))
    (pick (chat_name existing) (chat_name update))
    (pick (chat_messages existing) (chat_messages update))
    (pick (chat_subject existing) (chat_subject update))
    (pick (chat_metadata existing) (chat_metadata update)).

Definition chats_update_one (st : Store) (update : Chat) : Store :=
  match Jid.decodeJid_opt (chat_id update) with
  | None => st
  | Some id =>
      if negb (truthy id) || String.eqb id "status@broadcast" then st
      else
        let existing := default (chat_of_id id) (getChat id st) in
        setChat id (merge_chat existing update) st
  end.

Definition chats_update (updates : list Chat) (st : Store) : Store :=
  fold_left chats_update_one updates
    (MemoryStore.enqueueEvent "chats.update" MemoryStore.AUX st).

Definition chats_delete_one (st : Store) (id : string) : Store :=
  let st1 := deleteChat id st in
  let msgKeys :=
    MemoryStore.keys (REDIS_MESSAGE_PREFIX ++ id ++ ":*") st1 in
  fold_left (fun s key => MemoryStore.del key s) msgKeys st1.

Definition chats_delete (deletions : list string) (st : Store) : Store :=
  fold_left chats_delete_one deletions
    (MemoryStore.enqueueEvent "chats.delete" MemoryStore.NOISE st).

(** *** [blocklist.set] and [blocklist.update] *)

Definition blocklist_set (blocklist : list string) (st : Store) : Store :=
  setBlocklist blocklist
    (MemoryStore.enqueueEvent "blocklist.set" MemoryStore.CORE st).

(** [existing.includes(jid)]. *)
Definition includes (l : list string) (jid : string) : bool :=
  existsb (String.eqb jid) l.

(** The loop of the ["add"] branch. *)
Definition add_all (blocklist existing : list string) : list string :=
  fold_left
    (fun ex jid => if includes ex jid then ex else (ex ++ [jid])%list)
    blocklist existing.

Definition blocklist_update (blocklist : list string) (type : string)
    (st : Store) : Store :=
  let st0 :=
    MemoryStore.enqueueEvent "blocklist.update" MemoryStore.CORE st in
  let existing := getBlocklist st0 in
  if String.eqb type "add"
  then setBlocklist (add_all blocklist existing) st0
  else if String.eqb type "remove"
  then setBlocklist
         (List.filter (fun jid => negb (includes blocklist jid)) existing) st0
  else setBlocklist existing st0.

End Bind.

(* ===================================================================== *)
(** ** Values, text and bytes of the configuration module *)
(* ===================================================================== *)

Module Js.
Local Open Scope Z_scope.

(** A string as the sequence of its code points. *)
Definition ustring : Type := list Z.

(** The code points of a text written in ASCII. *)
Definition text (s : string) : ustring :=
  map (fun c => Z.of_nat (nat_of_ascii c)) (list_ascii_of_string s).

(** A JavaScript number: a binary64 value. *)
Definition number : Type := spec_float.

Definition prec : Z := 53.
Definition emax : Z := 1024.

(** The number denoted by an integer literal. *)
Definition number_of_Z (z : Z) : number := binary_normalize prec emax z 0 false.

(** The values [encodeMeta] tells apart by [typeof].  An object is given
    by the text [Bun.inspect] prints for it; [JOther] stands for the
    remaining types (function, symbol, bigint). *)
Inductive JsValue : Type :=
| JNull
| JUndefined
| JString (s : ustring)
| JNumber (x : number)
| JBoolean (b : bool)
| JObject (inspect : ustring)
| JOther.

(** *** [TextEncoder.prototype.encode]: UTF-8 *)

Definition utf8_encode_cp (c : Z) : list Z :=
  if (55296 <=? c) && (c <=? 57343) then [239; 191; 189]
  else if c <? 128 then [c]
  else if c <? 2048 then
    [Z.lor 192 (Z.shiftr c 6); Z.lor 128 (Z.land c 63)]
  else if c <? 65536 then
    [Z.lor 224 (Z.shiftr c 12);
     Z.lor 128 (Z.land (Z.shiftr c 6) 63);
     Z.lor 128 (Z.land c 63)]
  else
    [Z.lor 240 (Z.shiftr c 18);
     Z.lor 128 (Z.land (Z.shiftr c 12) 63);
     Z.lor 128 (Z.land (Z.shiftr c 6) 63);
     Z.lor 128 (Z.land c 63)].

Definition TextEncoder_encode (s : ustring) : list Z :=
  flat_map utf8_encode_cp s.

(** *** [TextDecoder.prototype.decode]: UTF-8, replacement on error *)

Record Utf8State : Type := mkUtf8State {
    code_point : Z;
    bytes_needed : nat;
    lower_boundary : Z;
    upper_boundary : Z
  }.

(** A byte met while no sequence is open: the code points emitted and
    the sequence opened, if any. *)
Definition utf8_lead (b : Z) : list Z * option Utf8State :=
  if b <=? 127 then ([b], None)
  else if (194 <=? b) && (b <=? 223) then
    ([], Some (mkUtf8State (Z.land b 31) 1 128 191))
  else if (224 <=? b) && (b <=? 239) then
    ([], Some (mkUtf8State (Z.land b 15) 2
                 (if b =? 224 then 160 else 128)
                 (if b =? 237 then 159 else 191)))
  else if (240 <=? b) && (b <=? 244) then
    ([], Some (mkUtf8State (Z.land b 7) 3
                 (if b =? 240 then 144 else 128)
                 (if b =? 244 then 143 else 191)))
  else ([65533], None).

Fixpoint utf8_decode (st : option Utf8State) (bytes : list Z) : ustring :=
  match bytes with
  | [] => match st with None => [] | Some _ => [65533] end
  | b :: rest =>
      match st with
      | None =>
          let '(out, st') := utf8_lead b in (out ++ utf8_decode st' rest)%list
      | Some s =>
          if (lower_boundary s <=? b) && (b <=? upper_boundary s) then
            let cp := Z.lor (Z.shiftl (code_point s) 6) (Z.land b 63) in
            match bytes_needed s with
            | S (S n) =>
                utf8_decode (Some (mkUtf8State cp (S n) 128 191)) rest
            | _ => cp :: utf8_decode None rest
            end
          else
            let '(out, st') := utf8_lead b in
            (65533 :: out ++ utf8_decode st' rest)%list
      end
  end.

(** The decoder drops a leading byte order mark. *)
Definition TextDecoder_decode (bytes : list Z) : ustring :=
  match utf8_decode None bytes with
  | 65279 :: s => s
  | s => s
  end.

(** *** [DataView.prototype.setFloat64(0, value, true)] *)

(** The binary64 bit pattern; NaN is stored as the quiet NaN. *)
Definition float64_bits (x : number) : Z :=
  match x with
  | S754_zero s => if s then 2 ^ 63 else 0
  | S754_infinity s => (if s then 2 ^ 63 else 0) + 2047 * 2 ^ 52
  | S754_nan => 2047 * 2 ^ 52 + 2 ^ 51
  | S754_finite s m e =>
      (if s then 2 ^ 63 else 0)
      + (if 2 ^ 52 <=? Z.pos m
         then (e + 1075) * 2 ^ 52 + (Z.pos m - 2 ^ 52)
         else Z.pos m)
  end.

(** Eight bytes, least significant first. *)
Definition setFloat64_le (x : number) : list Z :=
  map (fun i => Z.land (Z.shiftr (float64_bits x) (8 * i)) 255)
      [0; 1; 2; 3; 4; 5; 6; 7].

(** *** The number pattern and [parseFloat] *)

Definition is_digit (c : Z) : bool := (48 <=? c) && (c <=? 57).

Fixpoint span_digits (s : ustring) : ustring * ustring :=
  match s with
  | [] => ([], [])
  | c :: s' =>
      if is_digit c
      then let '(d, r) := span_digits s' in (c :: d, r)
      else ([], s)
  end.

(** The parts of a text that matches [/^-?\d+\.?\d*$/]: the sign, the
    digits before the point and the digits after it. *)
Definition match_number (t : ustring) : option (bool * ustring * ustring) :=
  let '(neg, u) :=
    match t with
    | 45 :: u => (true, u)
    | _ => (false, t)
    end in
  match span_digits u with
  | ([], _) => None
  | (int, []) => Some (neg, int, [])
  | (int, 46 :: frac) =>
      if forallb is_digit frac then Some (neg, int, frac) else None
  | (_, _ :: _) => None
  end.

Definition test_number (t : ustring) : bool :=
  match match_number t with Some _ => true | None => false end.

Definition digits_value (ds : ustring) : Z :=
  fold_left (fun acc c => acc * 10 + (c - 48)) ds 0.

(** [parseFloat] on a text of that shape: the binary64 value nearest to
    the decimal, ties to even; NaN elsewhere (which [decodeMeta] never
    asks for). *)
Definition parseFloat (t : ustring) : number :=
  match match_number t with
  | None => S754_nan
  | Some (neg, int, frac) =>
      match digits_value (int ++ frac)%list with
      | Z.pos m =>
          SFdiv prec emax (S754_finite neg m 0)
            (S754_finite false (Z.to_pos (10 ^ Z.of_nat (length frac))) 0)
      | _ => S754_zero neg
      end
  end.

Definition isNaN (x : number) : bool :=
  match x with S754_nan => true | _ => false end.

Definition ustring_eqb (a b : ustring) : bool :=
  bool_decide (a = b).

End Js.

(* ===================================================================== *)
(** ** [encodeMeta] and [decodeMeta] *)
(* ===================================================================== *)

Module Meta.
Import Js.
Local Open Scope Z_scope.

Definition encodeMeta (value : JsValue) : option (list Z) :=
  match value with
  | JNull | JUndefined => None
  | JString s => Some (TextEncoder_encode s)
  | JNumber x => Some (setFloat64_le x)
  | JBoolean b => Some [if b then 1 else 0]
  | JObject inspect => Some (TextEncoder_encode inspect)
  | JOther => None
  end.

(** The decoder never throws (it is not in fatal mode), so the [catch]
    branch is not reached. *)
Definition decodeMeta (bytes : list Z) : JsValue :=
  match bytes with
  | [] => JNull
  | _ =>
      let text := TextDecoder_decode bytes in
      if test_number text && negb (isNaN (parseFloat text))
      then JNumber (parseFloat text)
      else if ustring_eqb text (Js.text "true") then JBoolean true
      else if ustring_eqb text (Js.text "false") then JBoolean false
      else JString text
  end.

End Meta.

(* ===================================================================== *)
(** ** [Map] with string keys *)
(* ===================================================================== *)

Module JsMap.

(** The entries in insertion order, which is the order [keys()] walks. *)
Definition t (V : Type) : Type := list (string * V).

Section Ops.
Context {V : Type}.

Definition size (m : t V) : nat := length m.

Fixpoint get (k : string) (m : t V) : option V :=
  match m with
  | [] => None
  | (k', v) :: m' => if String.eqb k k' then Some v else get k m'
  end.

(** [m.set(k, v)]: a key that is present keeps its place. *)
Fixpoint set (k : string) (v : V) (m : t V) : t V :=
  match m with
  | [] => [(k, v)]
  | (k', v') :: m' =>
      if String.eqb k k' then (k, v) :: m' else (k', v') :: set k v m'
  end.

Fixpoint delete (k : string) (m : t V) : t V :=
  match m with
  | [] => []
  | (k', v') :: m' =>
      if String.eqb k k' then m' else (k', v') :: delete k m'
  end.

(** [m.keys().next().value]; [None] is [undefined]. *)
Definition first_key (m : t V) : option string :=
  match m with
  | [] => None
  | (k, _) :: _ => Some k
  end.

End Ops.

End JsMap.

(* ===================================================================== *)
(** ** [RowCache] *)
(* ===================================================================== *)

Module RowCache.

Record t (V : Type) : Type := mkRowCache {
    cache : JsMap.t V;
    maxSize : Z
  }.

Arguments mkRowCache {V} _ _.
Arguments cache {V} _.
Arguments maxSize {V} _.

Section Methods.
Context {V : Type}.

(** [new RowCache(maxSize)]. *)
Definition new (maxSize : Z) : t V := mkRowCache [] maxSize.

Definition get (key : string) (c : t V) : option V :=
  JsMap.get key (cache c).

(** [set]: at capacity the first key of the map goes; deleting
    [undefined] from an empty map does nothing. *)
Definition set (key : string) (value : V) (c : t V) : t V :=
  let cache1 :=
    if (maxSize c <=? Z.of_nat (JsMap.size (cache c)))%Z
    then match JsMap.first_key (cache c) with
         | Some firstKey => JsMap.delete firstKey (cache c)
         | None => cache c
         end
    else cache c in
  mkRowCache (JsMap.set key value cache1) (maxSize c).

Definition delete (key : string) (c : t V) : t V :=
  mkRowCache (JsMap.delete key (cache c)) (maxSize c).

Definition clear (c : t V) : t V := mkRowCache [] (maxSize c).

Definition size (c : t V) : nat := JsMap.size (cache c).

(** The calls a client can make, and a run of them. *)
Inductive Op : Type :=
| OpGet (key : string)
| OpSet (key : string) (value : V)
| OpDelete (key : string)
| OpClear.

Definition step (c : t V) (op : Op) : t V :=
  match op with
  | OpGet _ => c
  | OpSet key value => set key value c
  | OpDelete key => delete key c
  | OpClear => clear c
  end.

Definition run (ops : list Op) (c : t V) : t V := fold_left step ops c.

End Methods.

Arguments Op : clear implicits.

End RowCache.

(* ===================================================================== *)
(** ** [DataWrapper]: tables, row proxies and the meta interface *)
(* ===================================================================== *)

Module DataWrapper.
Import Js.

(** [TABLES_WITH_JID]. *)
Inductive Table : Type := chats | settings.

Definition table_name (t : Table) : string :=
  match t with chats => "chats" | settings => "settings" end.

(** The column names of [SCHEMAS[table].columns]. *)
Definition columns (t : Table) : list string :=
  match t with
  | chats => ["jid"; "mute"]
  | settings => ["jid"; "self"; "gconly"]
  end.

(** [Object.prototype.hasOwnProperty.call(SCHEMAS[table].columns, prop)]. *)
Definition is_column (t : Table) (prop : string) : bool :=
  existsb (String.eqb prop) (columns t).

(** [STMTS.updateCol[table][prop]] exists for every column but [jid]. *)
Definition has_update_stmt (t : Table) (prop : string) : bool :=
  is_column t prop && negb (String.eqb prop "jid").

(** What a plugin assigns to a row field. *)
Inductive ColumnValue : Type :=
| CBool (b : bool)
| CNum (n : Z)
| CText (s : string)
| CNull.

(** [typeof value === "boolean" ? (value ? 1 : 0) : value]. *)
Definition normalize (value : ColumnValue) : ColumnValue :=
  match value with
  | CBool b => CNum (if b then 1 else 0)
  | v => v
  end.

(** A row object: column name to value. *)
Abbreviation Row := (gmap string ColumnValue).

(** The row [INSERT OR IGNORE INTO table (jid) VALUES (?)] creates: every
    other column takes its declared default, [0]. *)
Definition default_row (t : Table) (jid : string) : Row :=
  match t with
  | chats => {[ "jid" := CText jid; "mute" := CNum 0 ]}
  | settings =>
      {[ "jid" := CText jid; "self" := CNum 0; "gconly" := CNum 0 ]}
  end.

Record LogEntry : Type := mkLogEntry {
    log_level : string;
    log_fields : list (string * string);
    log_msg : string
  }.

(** The database file, the row caches and the log. *)
Record State : Type := mkState {
  chats_rows : gmap string Row;
  settings_rows : gmap string Row;
  meta_rows : gmap string (list Z);
  chats_cache : RowCache.t Row;
  settings_cache : RowCache.t Row;
  log : list LogEntry
}.

(** The constructor, over an empty database. *)
Definition new : State :=
  mkState ∅ ∅ ∅ (RowCache.new 100) (RowCache.new 50) [].

Definition rows (t : Table) (st : State) : gmap string Row :=
  match t with chats => chats_rows st | settings => settings_rows st end.

Definition rowCache (t : Table) (st : State) : RowCache.t Row :=
  match t with chats => chats_cache st | settings => settings_cache st end.

Definition with_rows (t : Table) (r : gmap string Row) (st : State) : State :=
  match t with
  | chats => mkState r (settings_rows st) (meta_rows st)
               (chats_cache st) (settings_cache st) (log st)
  | settings => mkState (chats_rows st) r (meta_rows st)
                  (chats_cache st) (settings_cache st) (log st)
  end.

Definition with_rowCache (t : Table) (c : RowCache.t Row) (st : State)
    : State :=
  match t with
  | chats => mkState (chats_rows st) (settings_rows st) (meta_rows st)
               c (settings_cache st) (log st)
  | settings => mkState (chats_rows st) (settings_rows st) (meta_rows st)
                  (chats_cache st) c (log st)
  end.

Definition with_meta (m : gmap string (list Z)) (st : State) : State :=
  mkState (chats_rows st) (settings_rows st) m
    (chats_cache st) (settings_cache st) (log st).

Definition logger_warn (fields : list (string * string)) (msg : string)
    (st : State) : State :=
  mkState (chats_rows st) (settings_rows st) (meta_rows st)
    (chats_cache st) (settings_cache st)
    (log st ++ [mkLogEntry "warn" fields msg])%list.

(** *** The meta interface *)

Definition meta_get (key : string) (st : State) : JsValue :=
  match meta_rows st !! key with
  | Some value => Meta.decodeMeta value
  | None => JNull
  end.

Definition meta_set (key : string) (value : JsValue) (st : State)
    : bool * State :=
  match Meta.encodeMeta value with
  | None => (false, st)
  | Some bytes => (true, with_meta (<[key := bytes]> (meta_rows st)) st)
  end.

Definition meta_delete (key : string) (st : State) : bool * State :=
  (true, with_meta (base.delete key (meta_rows st)) st).

(** *** The table proxy: [db.data[table][jid]] *)

Definition cacheKey (t : Table) (jid : string) : string :=
  table_name t ++ ":" ++ jid.

Definition table_get (t : Table) (jid : string) (st : State) : Row * State :=
  match RowCache.get (cacheKey t jid) (rowCache t st) with
  | Some cached => (cached, st)
  | None =>
      let st1 :=
        match rows t st !! jid with
        | Some _ => st
        | None => with_rows t (<[jid := default_row t jid]> (rows t st)) st
        end in
      let row := default (default_row t jid) (rows t st1 !! jid) in
      (row, with_rowCache t
              (RowCache.set (cacheKey t jid) row (rowCache t st1)) st1)
  end.

(** *** The row proxy: the [set] trap *)

#[global] Instance ColumnValue_eq_dec : EqDecision ColumnValue.
Proof. solve_decision. Defined.

Section RowProxy.

(** The columns an [UPDATE] statement exists for are declared [INTEGER].
    The database engine stores a value bound to such a column under the
    column's affinity: a number and [NULL] as they are, and text either as
    it is or, when it spells a number, as that number.  Which it is for a
    given text is the engine's rule and not this module's: [text_affinity]
    is what an [INTEGER] column holds after the text was bound to it. *)
Variable text_affinity : string -> ColumnValue.

Definition integer_affinity (v : ColumnValue) : ColumnValue :=
  match v with
  | CText s => text_affinity s
  | _ => v
  end.

(** [UPDATE table SET prop = ? WHERE jid = ?]. *)
Definition update_col (t : Table) (prop : string) (v : ColumnValue)
    (jid : string) (st : State) : State :=
  with_rows t
    (alter (fun r => <[prop := integer_affinity v]> r) jid (rows t st)) st.

(** [obj[prop] = normalizedValue] writes the object the row proxy wraps.
    The row cache holds that proxy, so the row the cache hands out for the
    identifier shows the write for as long as it holds the proxy written
    through.  Objects have no identity here: the cached row is taken to be
    the object written when it equals it. *)
Definition write_cached (t : Table) (jid : string) (obj obj' : Row)
    (st : State) : State :=
  let c := rowCache t st in
  if bool_decide (RowCache.get (cacheKey t jid) c = Some obj)
  then with_rowCache t
         (RowCache.mkRowCache
            (JsMap.set (cacheKey t jid) obj' (RowCache.cache c))
            (RowCache.maxSize c)) st
  else st.

(** The trap on the row object [obj] of [table] and [jid]: its result,
    the row object and the state afterwards. *)
Definition row_set (t : Table) (jid : string) (obj : Row) (prop : string)
    (value : ColumnValue) (st : State) : bool * Row * State :=
  if negb (is_column t prop)
  then (false, obj,
        logger_warn [("table", table_name t); ("prop", prop)]
          "Unknown column" st)
  else
    let normalizedValue := normalize value in
    if has_update_stmt t prop
    then
      let obj' := <[prop := normalizedValue]> obj in
      (true, obj',
       write_cached t jid obj obj'
         (update_col t prop normalizedValue jid st))
    else (false, obj, st).

(** *** Assignment through the proxy *)

Inductive Completion : Type :=
  | Normal
  | ThrowTypeError.

(** [row[prop] = value] as a statement of a module.  Module code is strict
    code, and in strict code an assignment whose [[Set]] reports [false]
    throws a [TypeError]. *)
Definition assign (t : Table) (jid : string) (obj : Row) (prop : string)
    (value : ColumnValue) (st : State) : Completion * Row * State :=
  let '(ok, obj', st') := row_set t jid obj prop value st in
  (if ok then Normal else ThrowTypeError, obj', st').

End RowProxy.

(** A rule under which every text is kept as it is, for the examples
    below, which bind no text. *)
Definition keeps_text (s : string) : ColumnValue := CText s.

(** *** A run of reads *)

(** A three-digit phone-number identifier. *)
Definition jid_of_nat (n : nat) : string :=
  String (ascii_of_nat (48 + n / 100))
    (String (ascii_of_nat (48 + (n / 10) mod 10))
       (String (ascii_of_nat (48 + n mod 10)) "@s.whatsapp.net")).

(** [db.data[table][jid]] for each of the identifiers in turn. *)
Definition read_all (t : Table) (jids : list string) (st : State) : State :=
  fold_left (fun s jid => snd (table_get t jid s)) jids st.

End DataWrapper.

(* ===================================================================== *)
(** ** The quoted-message cache of [conn.pushMessage] (socket.js) *)
(* ===================================================================== *)

Module QuotedCache.
Import JsString PushMessage Bind.

(** The property names an object literal inherits from
    [Object.prototype]: reading one of them yields a function (or, for
    [__proto__], the prototype), all truthy. *)
Definition inherited (k : string) : bool :=
  existsb (String.eqb k)
    ["constructor"; "__proto__"; "hasOwnProperty"; "isPrototypeOf";
     "propertyIsEnumerable"; "toLocaleString"; "toString"; "valueOf";
     "__defineGetter__"; "__defineSetter__"; "__lookupGetter__";
     "__lookupSetter__"].

(** [qm.messages[ctx.stanzaId]] is truthy: the messages stored are objects,
    so an own property is, and so is an inherited one. *)
Definition present (k : string) (messages : JsObject.t WAMessage) : bool :=
  JsObject.has k messages || inherited k.

(** The cache update: store under the stanza id, then, when more than 30
    keys are present, delete the first [length - 20] of them. *)
Definition quoted_insert (id : string) (m : WAMessage)
    (messages : JsObject.t WAMessage) : JsObject.t WAMessage :=
  let messages1 := JsObject.set id m messages in
  let msgKeys := JsObject.keys messages1 in
  if (30 <? length msgKeys)%nat
  then JsObject.delete_first (length msgKeys - 20) msgKeys messages1
  else messages1.

Section Cache.

Variable lid : option string.
Variable areJidsSameUser : string -> string -> bool.

(** [ctx.remoteJid || ctx.participant || chat], normalised. *)
Definition qChat_of (chat : string) (ctx : ContextInfo) : option string :=
  Jid.decodeJid_opt
    (or_else (ctx_remoteJid ctx) (or_else (ctx_participant ctx) (Some chat))).

(** The reconstructed message that is cached. *)
Definition quotedMsg (qChat id : string) (ctx : ContextInfo) : WAMessage :=
  {| key_remoteJid := Some qChat;
     key_id := Some id;
     key_fromMe :=
       match lid with
       | Some l => if truthy l then areJidsSameUser l qChat else false
       | None => false
       end;
     key_participant := Jid.decodeJid_opt (ctx_participant ctx);
     msg_participant :=
       if endsWith qChat "@g.us"
       then Jid.decodeJid_opt (ctx_participant ctx)
       else None;
     msg_message := quotedMessage ctx;
     messageStubType := None;
     messageTimestamp := None;
     pushName := None |}.

(** The property a cached quotation becomes. *)
Definition qentry (q : string) (ctx : ContextInfo) : string * WAMessage :=
  (default "" (stanzaId ctx), quotedMsg q (default "" (stanzaId ctx)) ctx).

End Cache.

(** The number of entries in a cache that started empty, after [n]
    quotations with fresh stanza ids. *)
Fixpoint quoted_size (n : nat) : nat :=
  match n with
  | O => O
  | S n' => let s := S (quoted_size n') in
            if (30 <? s)%nat then 20%nat else s
  end.

(** Stanza ids [Q000], [Q001], ... *)
Definition stanza_of_nat (n : nat) : string :=
  String "Q"
    (String (ascii_of_nat (48 + n / 100))
       (String (ascii_of_nat (48 + (n / 10) mod 10))
          (String (ascii_of_nat (48 + n mod 10)) ""))).

End QuotedCache.

(* ===================================================================== *)
(** ** [MessageQueue] (socket.js) *)
(* ===================================================================== *)

Module MessageQueue.

(** The queue object.  The tasks are kept as they were added; what a task
    does when it runs is not part of the queue. *)
Record t (T : Type) : Type := mkQueue {
  tasks : list T;
  running : bool;
  batchSize : nat
}.

Arguments mkQueue {T} _ _ _.
Arguments tasks {T} _.
Arguments running {T} _.
Arguments batchSize {T} _.

Section Methods.
Context {T : Type}.

(** The constructor. *)
Definition new : t T := mkQueue [] false 10.

(** [add]: the queue afterwards, and whether [process] was scheduled
    with [setImmediate]. *)
Definition add (task : T) (q : t T) : t T * bool :=
  (mkQueue (tasks q ++ [task])%list true (batchSize q), negb (running q)).

(** Tasks added one after the other: the queue, and for each [add]
    whether it scheduled [process]. *)
Fixpoint add_all (ts : list T) (q : t T) : t T * list bool :=
  match ts with
  | [] => (q, [])
  | task :: ts' =>
      let '(q1, scheduled) := add task q in
      let '(q2, rest) := add_all ts' q1 in
      (q2, scheduled :: rest)
  end.

(** One turn of the loop of [process]: [tasks.splice(0, batchSize)], or
    [None] when the queue is empty and the loop ends. *)
Definition take_batch (q : t T) : option (list T * t T) :=
  match tasks q with
  | [] => None
  | _ =>
      Some (firstn (batchSize q) (tasks q),
            mkQueue (skipn (batchSize q) (tasks q)) (running q) (batchSize q))
  end.

(** [process] while no task is added: the batches it runs, each awaited as
    a whole before the next is taken, and the queue it leaves.  A task that
    fails is caught by the handler attached to it alone, so the batch and
    the loop go on.  [fuel] bounds the number of turns. *)
Fixpoint process_loop (fuel : nat) (q : t T) : list (list T) * t T :=
  match fuel with
  | O => ([], q)
  | S fuel' =>
      match take_batch q with
      | None => ([], mkQueue (tasks q) false (batchSize q))
      | Some (batch, q1) =>
          let '(batches, q2) := process_loop fuel' q1 in
          (batch :: batches, q2)
      end
  end.

(** One turn more than there are tasks is enough for any batch size of at
    least one. *)
Definition process (q : t T) : list (list T) * t T :=
  process_loop (S (length (tasks q))) q.

End Methods.

Arguments new {T}.

End MessageQueue.

(* ===================================================================== *)
(** ** [conn.pushMessage]: the task of a message and the queue (socket.js) *)
(* ===================================================================== *)

Module PushTask.
Import JsString PushMessage Bind QuotedCache.

(** *** A task between its awaits *)

(** What a call or a resumption of an asynchronous function comes to: it
    runs to its end, or up to its next [await].  [Await st resume] stands
    at an [await] of a value that is at hand (the answer of [getChat] or
    of [setChat]): [st] is the store as the function leaves it, and
    [resume] is the rest of the function, given the store it finds when
    it goes on.  [Fetch] is the [await] of [conn.groupMetadata], which
    asks the transport.  The entity a task has read is a value of its
    own, as the store is modelled: what another task writes while the
    task waits does not change it, and what the task changes in it
    reaches the store when the task writes it back. *)
Inductive Run : Type :=
| Finished (st : Store)
| Await (st : Store) (resume : Store -> Run)
| Fetch (st : Store) (resume : Store -> Run).

(** A run that waits at most [n] times and leaves a store with the
    property [P] whenever it waits and when it ends, provided that it
    finds one with the property whenever it goes on. *)
Inductive within (P : Store -> Prop) : nat -> Run -> Prop :=
| within_finished (n : nat) (st : Store) :
    P st -> within P n (Finished st)
| within_await (n : nat) (st : Store) (resume : Store -> Run) :
    P st -> (forall st', P st' -> within P n (resume st')) ->
    within P (S n) (Await st resume)
| within_fetch (n : nat) (st : Store) (resume : Store -> Run) :
    P st -> (forall st', P st' -> within P n (resume st')) ->
    within P (S n) (Fetch st resume).

(** [chat.messages] of the entity stored for an identifier, the empty
    object when there is none. *)
Definition window (jid : string) (st : Store) : JsObject.t WAMessage :=
  default JsObject.empty (getChat jid st ≫= chat_messages).

Definition set_name (name : string) (c : Chat) : Chat :=
  mkChatOf (chat_id c) (conversationTimestamp c) (isChats c) (unreadCount c)
    (Some name) (chat_messages c) (chat_subject c) (chat_metadata c).

Definition set_messages (messages : JsObject.t WAMessage) (c : Chat) : Chat :=
  mkChatOf (chat_id c) (conversationTimestamp c) (isChats c) (unreadCount c)
    (chat_name c) (Some messages) (chat_subject c) (chat_metadata c).

(** [chatData.subject = md.subject; chatData.metadata = md]. *)
Definition set_metadata (md : GroupMetadata) (c : Chat) : Chat :=
  mkChatOf (chat_id c) (conversationTimestamp c) (isChats c) (unreadCount c)
    (chat_name c) (chat_messages c) (md_subject md) (Some md).

Section Task.

(** The bot's own linked identifier [conn.user?.lid], the transport
    library's [areJidsSameUser], and the outcome of the call
    [conn.groupMetadata(chat)] that the task of a message makes: the
    metadata, or [None] when the fetch fails. *)
Variable lid : option string.
Variable areJidsSameUser : string -> string -> bool.
Variable groupMetadata : WAMessage -> string -> option GroupMetadata.

(** [conn.decodeJid(message.key?.remoteJid ||
    msgObj?.senderKeyDistributionMessage?.groupId || "")]. *)
Definition chat_of (message : WAMessage) : option string :=
  let msgObj := default JsObject.empty (msg_message message) in
  Jid.decodeJid_opt
    (or_else (key_remoteJid message)
       (or_else
          (JsObject.get "senderKeyDistributionMessage" msgObj ≫= groupId)
          (Some ""))).

(** [message.pushName || name || ""]. *)
Definition name_of (message : WAMessage) (name : option string) : string :=
  default "" (or_else (pushName message) (or_else name (Some ""))).

Definition named (message : WAMessage) (c : Chat) : Chat :=
  set_name (name_of message (chat_name c)) c.

(** [isGroup && !chatData.metadata]. *)
Definition needs_metadata (chat : string) (chatData : Chat) : bool :=
  Jid.isGroupJid chat
  && match chat_metadata chatData with Some _ => false | None => true end.

(** The chat entity after the fetch: with subject and metadata when the
    fetch answered, as it was when the fetch failed. *)
Definition fetched (message : WAMessage) (chat : string) (chatData : Chat)
    : Chat :=
  match groupMetadata message chat with
  | Some md => set_metadata md chatData
  | None => chatData
  end.

(** The guards of the quote block: the chat of the quoted message, the
    stanza id and the context, when [msgObj[mtype]?.contextInfo] carries a
    quoted message and a stanza id and the quoted chat is not the status
    broadcast. *)
Definition quotation_of (chat : string) (msgObj : JsObject.t Payload)
    (mtype : string) : option (string * string * ContextInfo) :=
  match JsObject.get mtype msgObj ≫= contextInfo with
  | Some ctx =>
      match quotedMessage ctx, stanzaId ctx, qChat_of chat ctx with
      | Some _, Some id, Some qChat =>
          if truthy id && truthy qChat && negb (Jid.isStatusJid qChat)
          then Some (qChat, id, ctx)
          else None
      | _, _, _ => None
      end
  | None => None
  end.

(** The entity of the quoted chat with the quotation cached, from what
    [getChat(qChat)] answered; [None] where the stanza id is there
    already, in which case nothing is written back. *)
Definition cached_quotation (qChat id : string) (ctx : ContextInfo)
    (got : option Chat) : option Chat :=
  let qm :=
    default
      (mkChat (Some qChat) None (Some (negb (Jid.isGroupJid qChat)))
         None None None) got in
  let messages := default JsObject.empty (chat_messages qm) in
  if present id messages then None
  else Some (set_messages
               (quoted_insert id (quotedMsg lid areJidsSameUser qChat id ctx)
                  messages) qm).

(** The sender whose own chat entity gets the push name: in a group, the
    sender [s] when it is not the chat itself. *)
Definition sender_chat (chat : string) (message : WAMessage)
    : option string :=
  if Jid.isGroupJid chat
  then match sender_of lid chat message with
       | Some s => if truthy s && negb (String.eqb s chat) then Some s
                   else None
       | None => None
       end
  else None.

(** The retention block on [chatData]. *)
Definition stored (chat : string) (message : WAMessage) (chatData : Chat)
    : Chat :=
  if retained lid areJidsSameUser chat message
  then match key_id message with
       | Some id =>
           set_messages
             (window_insert id (cleanMsg message)
                (default JsObject.empty (chat_messages chatData))) chatData
       | None => chatData
       end
  else chatData.

(** *** The task, block by block *)

(** The retention block and [await conn.setChat(chat, chatData)], which
    ends the task. *)
Definition store_message (chat : string) (message : WAMessage)
    (chatData : Chat) (st : Store) : Run :=
  Await (setChat chat (stored chat message chatData) st) Finished.

(** The sender block, and what follows it. *)
Definition update_sender (chat : string) (message : WAMessage)
    (chatData : Chat) (st : Store) : Run :=
  if negb (Jid.isGroupJid chat)
  then store_message chat message (named message chatData) st
  else
    match sender_chat chat message with
    | Some s =>
        let got := getChat s st in
        Await st (fun st1 =>
          let sChat := default (chat_of_id s) got in
          Await (setChat s (named message sChat) st1)
            (store_message chat message chatData))
    | None => store_message chat message chatData st
    end.

(** The quote block, and what follows it. *)
Definition cache_quoted (chat : string) (message : WAMessage)
    (msgObj : JsObject.t Payload) (mtype : string) (chatData : Chat)
    (st : Store) : Run :=
  match quotation_of chat msgObj mtype with
  | Some (qChat, id, ctx) =>
      let got := getChat qChat st in
      Await st (fun st1 =>
        match cached_quotation qChat id ctx got with
        | Some qm =>
            Await (setChat qChat qm st1) (update_sender chat message chatData)
        | None => update_sender chat message chatData st1
        end)
  | None => update_sender chat message chatData st
  end.

(** The metadata of a group chat, fetched when it is missing, and what
    follows. *)
Definition resolve_metadata (chat : string) (message : WAMessage)
    (msgObj : JsObject.t Payload) (mtype : string) (chatData : Chat)
    (st : Store) : Run :=
  if needs_metadata chat chatData
  then Fetch st
         (cache_quoted chat message msgObj mtype
            (fetched message chat chatData))
  else cache_quoted chat message msgObj mtype chatData st.

(** The task from the type detection on.  [mtype_of] answers [None]
    exactly for content without keys, where the task returns; it returns
    as well when there is no chat or the chat is the status broadcast.
    [conn.getChat(chat)] is evaluated before the task waits for the first
    time here, so what it answers is what the store held then. *)
Definition process_message (message : WAMessage) (st : Store) : Run :=
  let msgObj := default JsObject.empty (msg_message message) in
  match mtype_of (JsObject.keys msgObj) with
  | None => Finished st
  | Some mtype =>
      match chat_of message with
      | None => Finished st
      | Some chat =>
          if Jid.isStatusJid chat then Finished st
          else
            let got := getChat chat st in
            Await st (fun st1 =>
              let chatData :=
                default (mkChat (Some chat) None (Some true) None None None)
                  got in
              resolve_metadata chat message msgObj mtype chatData st1)
      end
  end.

(** The task [pushMessage] queues for a message.  A stub type other than
    [CIPHERTEXT] is handed to [conn.processMessageStubType] first, which
    writes a line to the log and nothing to the store, and is awaited. *)
Definition task (message : WAMessage) (st : Store) : Run :=
  match messageStubType message with
  | Some (OtherStub _) => Await st (process_message message)
  | _ => process_message message st
  end.

(** *** A batch: [Promise.all(batch.map((task) => task()))] *)

(** The functions that are ready to run, first to last, and those that
    wait for the transport.  Calling the tasks of a batch in turn runs
    each up to its first [await]; from then on the function that has
    waited longest goes on, up to its next [await], and so on.  A function
    that waits for the transport goes on when no other is ready; the
    answers are taken to come in the order of the requests.  [fuel] bounds
    the number of turns. *)
Fixpoint rounds (fuel : nat) (ready waiting : list (Store -> Run))
    (st : Store) : Store :=
  match fuel with
  | O => st
  | S fuel' =>
      let next :=
        match ready, waiting with
        | f :: ready', _ => Some (f, ready', waiting)
        | [], f :: waiting' => Some (f, [], waiting')
        | [], [] => None
        end in
      match next with
      | None => st
      | Some (f, ready', waiting') =>
          match f st with
          | Finished st' => rounds fuel' ready' waiting' st'
          | Await st' resume =>
              rounds fuel' (ready' ++ [resume])%list waiting' st'
          | Fetch st' resume =>
              rounds fuel' ready' (waiting' ++ [resume])%list st'
          end
      end
  end.

(** A task waits at most eight times, so nine turns for each task of the
    batch are enough.  The tasks of a batch that read the same chat
    before any of them has written it back each change what they have
    read, and the one that writes last prevails. *)
Definition run_batch (batch : list WAMessage) (st : Store) : Store :=
  rounds (9 * length batch) (map task batch) [] st.

(** *** The connection: the queue and the store *)

Record Conn : Type := mkConn {
  messageQueue : MessageQueue.t WAMessage;
  memoryStore : Store
}.

(** [conn.pushMessage(m)]: one task is queued for each message of [m] (a
    single message is the list of one), and nothing else happens before
    [process] runs. *)
Definition pushMessage (m : list WAMessage) (c : Conn) : Conn :=
  mkConn (fst (MessageQueue.add_all m (messageQueue c))) (memoryStore c).

(** [process], once it runs: the batches, one after the other. *)
Definition process (c : Conn) : Conn :=
  let '(batches, q) := MessageQueue.process (messageQueue c) in
  mkConn q
    (fold_left (fun st batch => run_batch batch st) batches (memoryStore c)).

(** A message handed to [pushMessage] on its own, the queue being left to
    drain before anything else is handed over. *)
Definition deliver (c : Conn) (message : WAMessage) : Conn :=
  process (pushMessage [message] c).

(** Messages handed over one after the other in that way. *)
Definition deliver_all (ms : list WAMessage) (c : Conn) : Conn :=
  fold_left deliver ms c.

(** *** A task on its own *)

(** A run in which no other function goes on between the awaits: each
    resumption finds the store as the function left it. *)
Fixpoint complete (r : Run) : Store :=
  match r with
  | Finished st => st
  | Await st resume => complete (resume st)
  | Fetch st resume => complete (resume st)
  end.

(** The quote block on its own. *)
Definition cache_quoted_alone (chat : string) (msgObj : JsObject.t Payload)
    (mtype : string) (st : Store) : Store :=
  match quotation_of chat msgObj mtype with
  | Some (qChat, id, ctx) =>
      match cached_quotation qChat id ctx (getChat qChat st) with
      | Some qm => setChat qChat qm st
      | None => st
      end
  | None => st
  end.

(** The sender block on its own, as far as it writes to the store. *)
Definition update_sender_alone (chat : string) (message : WAMessage)
    (st : Store) : Store :=
  match sender_chat chat message with
  | Some s =>
      setChat s (named message (default (chat_of_id s) (getChat s st))) st
  | None => st
  end.

(** [chatData] as the task writes it back at its end, from what
    [getChat(chat)] answered at its start. *)
Definition chatData_alone (chat : string) (message : WAMessage)
    (got : option Chat) : Chat :=
  let chatData0 :=
    default (mkChat (Some chat) None (Some true) None None None) got in
  let chatData1 :=
    if needs_metadata chat chatData0 then fetched message chat chatData0
    else chatData0 in
  let chatData2 :=
    if negb (Jid.isGroupJid chat) then named message chatData1
    else chatData1 in
  stored chat message chatData2.

(** The whole task on its own. *)
Definition alone (message : WAMessage) (st : Store) : Store :=
  let msgObj := default JsObject.empty (msg_message message) in
  match mtype_of (JsObject.keys msgObj), chat_of message with
  | Some mtype, Some chat =>
      if Jid.isStatusJid chat then st
      else
        setChat chat (chatData_alone chat message (getChat chat st))
          (update_sender_alone chat message
             (cache_quoted_alone chat msgObj mtype st))
  | _, _ => st
  end.

(** *** Messages of the statements below *)

(** [msgObj[mtype]?.contextInfo] of a message; the context without any
    field stands for none. *)
Definition context_of (message : WAMessage) : ContextInfo :=
  let msgObj := default JsObject.empty (msg_message message) in
  default (mkContextInfo None None None None)
    (match mtype_of (JsObject.keys msgObj) with
     | Some mtype => JsObject.get mtype msgObj ≫= contextInfo
     | None => None
     end).

(** The stanza id of the message it quotes. *)
Definition stanza_of (message : WAMessage) : string :=
  default "" (stanzaId (context_of message)).

(** The chat the quote block of the task writes to, if it writes. *)
Definition quoted_chat (chat : string) (message : WAMessage)
    : option string :=
  let msgObj := default JsObject.empty (msg_message message) in
  match mtype_of (JsObject.keys msgObj) with
  | Some mtype =>
      match quotation_of chat msgObj mtype with
      | Some (qChat, _, _) => Some qChat
      | None => None
      end
  | None => None
  end.

(** A message of [chat] that passes the guard of the retention block,
    whose id is listed in creation order, and that quotes no message of
    [chat] itself. *)
Definition plain (chat : string) (m : WAMessage) : Prop :=
  chat_of m = Some chat
  /\ retained lid areJidsSameUser chat m = true
  /\ JsObject.ordinary_key (id_of m) = true
  /\ quoted_chat chat m <> Some chat.

(** A message of [chat] that quotes a message of the chat [q] under a
    stanza id that is listed in creation order and is not an inherited
    name. *)
Definition quotes (q chat : string) (m : WAMessage) : Prop :=
  chat_of m = Some chat
  /\ quoted_chat chat m = Some q
  /\ JsObject.ordinary_key (stanza_of m) = true
  /\ inherited (stanza_of m) = false.

(** Every chat entity of the store holds at most [n] messages. *)
Definition windows_within (n : nat) (st : Store) : Prop :=
  forall (jid : string) (c : Chat),
    getChat jid st = Some c ->
    (length (default JsObject.empty (chat_messages c)) <= n)%nat.

End Task.

(** A reply from somebody else that quotes a message of another chat. *)
Definition reply (chat id q stanza : string) : WAMessage :=
  {| key_remoteJid := Some chat;
     key_id := Some id;
     key_fromMe := false;
     key_participant := None;
     msg_participant := None;
     msg_message :=
       Some [("extendedTextMessage",
              mkPayload "yes" None
                (Some (mkContextInfo
                         (Some [("conversation",
                                 mkPayload "earlier" None None)])
                         (Some stanza) (Some q) None)))];
     messageStubType := None;
     messageTimestamp := Some 1700000000%Z;
     pushName := Some "Ann" |}.

(** Thirty-five replies in one chat, each quoting another message of a
    second chat. *)
Definition replies35 : list WAMessage :=
  map (fun n => reply "628111111111@s.whatsapp.net"
                  ("3EB" ++ stanza_of_nat n) "628123456789@s.whatsapp.net"
                  (stanza_of_nat n))
    (seq 0 35).

End PushTask.

(* ===================================================================== *)
(** ** Further accessors and handlers of [bind] (socket.js) *)
(* ===================================================================== *)

Module BindMore.
Import JsString PushMessage Bind.

(** [array.slice(start)] for an integer [start]: a negative start counts
    from the end. *)
Definition slice_from {A : Type} (start : Z) (l : list A) : list A :=
  let len := Z.of_nat (length l) in
  let k := if (start <? 0)%Z then Z.max (len + start) 0 else Z.min start len in
  skipn (Z.to_nat k) l.

(** [getAllChats]: the entities under the chat prefix. *)
Definition getAllChats (st : Store) : list Entity :=
  let keys := MemoryStore.keys (REDIS_PREFIX ++ "*") st in
  omap (fun c => c) (MemoryStore.mget keys st).

(** [getChatMessages(chatId, limit)]; [-limit] is the start of the slice. *)
Definition getChatMessages (chatId : string) (limit : Z) (st : Store)
    : list Entity :=
  let pattern := REDIS_MESSAGE_PREFIX ++ chatId ++ ":*" in
  let keys := MemoryStore.keys pattern st in
  let messages := MemoryStore.mget keys st in
  slice_from (- limit) (omap (fun m => m) messages).

(** A message key of a deletion event. *)
Record MessageKey : Type := mkMessageKey {
  mk_remoteJid : option string;
  mk_id : option string
}.

(** The loop body of the [messages.delete] handler. *)
Definition messages_delete_one (st : Store) (key : MessageKey) : Store :=
  match mk_remoteJid key, mk_id key with
  | Some chatId, Some messageId =>
      if truthy chatId && truthy messageId
      then MemoryStore.del
             (REDIS_MESSAGE_PREFIX ++ chatId ++ ":" ++ messageId) st
      else st
  | _, _ => st
  end.

(** [messages.delete]; [keys] is [deletion.keys], [None] when absent. *)
Definition messages_delete (keys : option (list MessageKey)) (st : Store)
    : Store :=
  let st0 := MemoryStore.enqueueEvent "messages.delete" MemoryStore.CORE st in
  match keys with
  | Some ks => fold_left messages_delete_one ks st0
  | None => st0
  end.

End BindMore.

(* ===================================================================== *)
(** ** The table proxy of [DataWrapper], continued *)
(* ===================================================================== *)

Module DataWrapperMore.
Import DataWrapper.

(** The [has] trap: [jid in db.data[table]] asks the database, not the
    cache. *)
Definition table_has (t : Table) (jid : string) (st : State) : bool :=
  match rows t st !! jid with Some _ => true | None => false end.

(** The [deleteProperty] trap: [delete db.data[table][jid]]. *)
Definition table_delete (t : Table) (jid : string) (st : State)
    : bool * State :=
  let st1 := with_rows t (base.delete jid (rows t st)) st in
  (true, with_rowCache t (RowCache.delete (cacheKey t jid) (rowCache t st1)) st1).

(** [clearCache(table)]; [None] is the call without an argument, which
    clears both caches. *)
Definition clearCache (table : option Table) (st : State) : State :=
  match table with
  | Some t => with_rowCache t (RowCache.clear (rowCache t st)) st
  | None =>
      with_rowCache settings (RowCache.clear (rowCache settings st))
        (with_rowCache chats (RowCache.clear (rowCache chats st)) st)
  end.

End DataWrapperMore.

(* ===================================================================== *)
(** * Properties *)
(* ===================================================================== *)

(** ** The identity normaliser *)

Section JidFacts.
Import JsString Jid.

Lemma span_digits_run (d r : string) :
  all_digits d = true ->
  (match r with String c _ => is_digit c = false | EmptyString => True end) ->
  span_digits (d ++ r) = (d, r).
Proof.
  induction d as [|c d IH]; simpl; intros Hd Hr.
  - destruct r as [|c r]; [reflexivity|]. simpl. now rewrite Hr.
  - apply andb_prop in Hd as [Hc Hd]. rewrite Hc, IH; auto.
Qed.

Lemma strip_device_no_colon (s : string) :
  includes_char ":" s = false -> strip_device s = s.
Proof.
  induction s as [|c s IH]; cbn [includes_char strip_device];
    [reflexivity|].
  rewrite (Ascii.eqb_sym ":" c).
  destruct (Ascii.eqb c ":"); [discriminate|].
  intros H. now rewrite IH.
Qed.

Lemma strip_device_at_suffix (u d rest : string) :
  includes_char ":" u = false ->
  test_numeric d = true ->
  strip_device (u ++ ":" ++ d ++ "@" ++ rest) = u ++ "@" ++ rest.
Proof.
  intros Hu Hd. induction u as [|c u IH].
  - destruct d as [|c d]; [discriminate|].
    change ("" ++ ":" ++ String c d ++ "@" ++ rest)
      with (String ":" (String c d ++ String "@" rest)).
    cbn [strip_device]. rewrite Ascii.eqb_refl.
    rewrite (span_digits_run (String c d) (String "@" rest)); auto.
  - change (String c u ++ ":" ++ d ++ "@" ++ rest)
      with (String c (u ++ ":" ++ d ++ "@" ++ rest)).
    change (String c u ++ "@" ++ rest) with (String c (u ++ "@" ++ rest)).
    cbn [includes_char] in Hu. cbn [strip_device].
    rewrite (Ascii.eqb_sym ":" c) in Hu.
    destruct (Ascii.eqb c ":"); [discriminate|].
    now rewrite IH.
Qed.

Lemma includes_char_app (c : ascii) (a b : string) :
  includes_char c (a ++ b) = includes_char c a || includes_char c b.
Proof.
  induction a as [|x a IH]; [reflexivity|].
  change (String x a ++ b) with (String x (a ++ b)).
  cbn [includes_char]. destruct (Ascii.eqb c x); auto.
Qed.

Lemma truthy_app_r (a b : string) : truthy b = true -> truthy (a ++ b) = true.
Proof. destruct a; simpl; auto. Qed.

Lemma decodeJid_with_device (u d rest : string) :
  includes_char ":" u = false ->
  test_numeric d = true ->
  decodeJid (u ++ ":" ++ d ++ "@" ++ rest) = Some (u ++ "@" ++ rest).
Proof.
  intros Hu Hd. unfold decodeJid.
  rewrite truthy_app_r by reflexivity. simpl negb. cbv iota.
  rewrite strip_device_at_suffix by assumption.
  rewrite includes_char_app. simpl. now rewrite orb_true_r.
Qed.

Lemma decodeJid_without_device (u rest : string) :
  includes_char ":" u = false ->
  includes_char ":" rest = false ->
  decodeJid (u ++ "@" ++ rest) = Some (u ++ "@" ++ rest).
Proof.
  intros Hu Hr. unfold decodeJid.
  rewrite truthy_app_r by reflexivity. simpl negb. cbv iota.
  rewrite strip_device_no_colon.
  - rewrite includes_char_app. simpl. now rewrite orb_true_r.
  - rewrite includes_char_app, Hu.
    change (includes_char ":" ("@" ++ rest)) with (includes_char ":" rest).
    exact Hr.
Qed.

End JidFacts.

(** C3, as stated: an identifier that ends in [:0] normalises to the same
    value as the identifier without that suffix.  It does not: the pattern
    wants an at-sign after the digits, so a suffix at the very end of the
    string stays, and the result is not even given the default
    namespace. *)
Lemma decodeJid_trailing_suffix_kept :
  Jid.decodeJid "1234567890:0" = Some "1234567890:0"
  /\ Jid.decodeJid "1234567890" = Some "1234567890@s.whatsapp.net"
  /\ Jid.decodeJid "1234567890:0" <> Jid.decodeJid "1234567890".
Proof. repeat split; try reflexivity. discriminate. Qed.

(** C3, amended: for an identifier [u:d@rest] whose device suffix [:d]
    (one or more digits) stands before the at-sign of the namespace, with
    no other colon in [u] or [rest], [decodeJid] gives the same result as
    for [u@rest], namely [u@rest]. *)
Theorem decodeJid_device_suffix_invariant (u d rest : string) :
  JsString.includes_char ":" u = false ->
  JsString.includes_char ":" rest = false ->
  JsString.test_numeric d = true ->
  Jid.decodeJid (u ++ ":" ++ d ++ "@" ++ rest) = Jid.decodeJid (u ++ "@" ++ rest)
  /\ Jid.decodeJid (u ++ "@" ++ rest) = Some (u ++ "@" ++ rest).
Proof.
  intros Hu Hr Hd. split.
  - rewrite decodeJid_with_device, decodeJid_without_device; auto.
  - apply decodeJid_without_device; auto.
Qed.

Lemma decodeJid_device_suffix_invariant_witness :
  Jid.decodeJid "1234567890:0@s.whatsapp.net"
  = Jid.decodeJid "1234567890@s.whatsapp.net"
  /\ Jid.decodeJid "1234567890@s.whatsapp.net"
     = Some "1234567890@s.whatsapp.net".
Proof.
  exact (decodeJid_device_suffix_invariant
           "1234567890" "0" "s.whatsapp.net" eq_refl eq_refl eq_refl).
Defined.

Example decodeJid_doc1 :
  Jid.decodeJid "1234567890@s.whatsapp.net" = Some "1234567890@s.whatsapp.net".
Proof. reflexivity. Qed.

Example decodeJid_doc2 :
  Jid.decodeJid "1234567890:0@s.whatsapp.net" = Some "1234567890@s.whatsapp.net".
Proof. reflexivity. Qed.

Example decodeJid_doc3 :
  Jid.decodeJid "1234567890" = Some "1234567890@s.whatsapp.net".
Proof. reflexivity. Qed.

(** A second device suffix is not removed, and neither is one in the
    namespace part: the replacement is applied once. *)
Example decodeJid_two_suffixes :
  Jid.decodeJid "123:4:5@s.whatsapp.net" = Some "123:4@s.whatsapp.net"
  /\ Jid.decodeJid "123:4@s.whatsapp.net" = Some "123@s.whatsapp.net".
Proof. split; reflexivity. Qed.

(** ** Objects as dictionaries *)

Section JsObjectFacts.
Context {V : Type}.
Implicit Types (o : JsObject.t V) (k : string) (v : V).

Lemma obj_has_false_not_in k o :
  JsObject.has k o = false <-> ~ In k (JsObject.keys o).
Proof.
  unfold JsObject.has. induction o as [|[k' v'] o IH]; simpl.
  - split; [intros _ []|reflexivity].
  - destruct (String.eqb_spec k k') as [->|Hne].
    + split; [discriminate|]. intros H. exfalso. apply H. now left.
    + rewrite IH. split.
      * intros H [E|E]; [congruence|contradiction].
      * intros H E. apply H. now right.
Qed.

(** A key that is new and is not an array index goes last. *)
Lemma obj_set_fresh k v o :
  ~ In k (JsObject.keys o) ->
  JsObject.ordinary_key k = true ->
  JsObject.set k v o = (o ++ [(k, v)])%list.
Proof.
  intros Hk Hi. unfold JsObject.set.
  apply andb_prop in Hi as [Hp Hi]. apply negb_true_iff in Hp.
  apply obj_has_false_not_in in Hk. rewrite Hp, Hk.
  now destruct (JsObject.array_index k).
Qed.

Lemma obj_delete_absent k o :
  ~ In k (JsObject.keys o) -> JsObject.delete k o = o.
Proof.
  unfold JsObject.delete. induction o as [|[k' v'] o IH]; simpl; intros H.
  - reflexivity.
  - destruct (String.eqb_spec k k') as [->|Hne].
    + exfalso. apply H. now left.
    + simpl. f_equal. apply IH. intros E. apply H. now right.
Qed.

Lemma obj_delete_head k v o :
  ~ In k (JsObject.keys o) -> JsObject.delete k ((k, v) :: o) = o.
Proof.
  intros H. unfold JsObject.delete. simpl. rewrite String.eqb_refl. simpl.
  now apply obj_delete_absent.
Qed.

(** Deleting the first [n] keys of an object whose keys are distinct
    leaves the object without its first [n] properties. *)
Lemma obj_delete_first_skipn (n : nat) o :
  List.NoDup (JsObject.keys o) ->
  JsObject.delete_first n (JsObject.keys o) o = skipn n o.
Proof.
  unfold JsObject.delete_first. revert n.
  induction o as [|[k v] o IH]; intros n Hnd.
  - destruct n; reflexivity.
  - destruct n as [|n]; [reflexivity|].
    simpl in Hnd. apply List.NoDup_cons_iff in Hnd as [Hk Hnd].
    cbn [JsObject.keys map fst firstn fold_left skipn].
    rewrite obj_delete_head by exact Hk.
    now apply IH.
Qed.

End JsObjectFacts.

(** Ids that are array indices are listed in numeric order whatever their
    arrival order, so for such ids the window does not evict by age. *)
Example object_keys_index_order :
  JsObject.keys (JsObject.set "3" 2 (JsObject.set "5" 1 (JsObject.set "b" 0 [])))
  = ["3"; "5"; "b"].
Proof. reflexivity. Qed.

(** ** The store bindings *)

Section BindFacts.
Import JsString PushMessage Bind.

Lemma chat_key_not_message_key (a b : string) :
  REDIS_PREFIX ++ a <> REDIS_MESSAGE_PREFIX ++ b.
Proof.
  unfold REDIS_PREFIX, REDIS_MESSAGE_PREFIX. intros E. simpl in E.
  inversion E.
Qed.

Lemma getChat_setChat (jid : string) (c : Chat) (st : Store) :
  getChat jid (setChat jid c st) = Some c.
Proof.
  unfold getChat, setChat, MemoryStore.get, MemoryStore.atomicSet. simpl.
  now rewrite lookup_insert_eq.
Qed.

Lemma getChat_setMessage (jid chatId messageId : string) (m : WAMessage)
    (st : Store) :
  getChat jid (setMessage chatId messageId m st) = getChat jid st.
Proof.
  unfold getChat, setMessage, MemoryStore.get, MemoryStore.atomicSet. simpl.
  rewrite lookup_insert_ne; [reflexivity|].
  intros E. symmetry in E. revert E. apply chat_key_not_message_key.
Qed.

Lemma getMessage_setMessage (chatId messageId : string) (m : WAMessage)
    (st : Store) :
  getMessage chatId messageId (setMessage chatId messageId m st) = Some m.
Proof.
  unfold getMessage, setMessage, MemoryStore.get, MemoryStore.atomicSet.
  simpl. now rewrite lookup_insert_eq.
Qed.

Lemma getMessage_setChat (chatId messageId jid : string) (c : Chat)
    (st : Store) :
  getMessage chatId messageId (setChat jid c st)
  = getMessage chatId messageId st.
Proof.
  unfold getMessage, setChat, MemoryStore.get, MemoryStore.atomicSet. simpl.
  rewrite lookup_insert_ne; [reflexivity|].
  apply chat_key_not_message_key.
Qed.

Lemma getChat_enqueueEvent (jid name : string) (tier : MemoryStore.Tier)
    (st : Store) :
  getChat jid (MemoryStore.enqueueEvent name tier st) = getChat jid st.
Proof. reflexivity. Qed.

(** The loop body on a message that is not skipped. *)
Lemma messages_upsert_one_unfold (st : Store) (msg : WAMessage)
    (chatId messageId : string) :
  key_remoteJid msg = Some chatId ->
  key_id msg = Some messageId ->
  truthy chatId = true ->
  truthy messageId = true ->
  chatId <> "status@broadcast" ->
  let before := default (chat_of_id chatId) (getChat chatId st) in
  messages_upsert_one st msg
  = setChat chatId
      (mkChatOf (chat_id before) (messageTimestamp msg) (Some true)
         (if key_fromMe msg then unreadCount before
          else Some (bump_unread (unreadCount before)))
         (chat_name before) (chat_messages before)
         (chat_subject before) (chat_metadata before))
      (setMessage chatId messageId msg st).
Proof.
  intros Hc Hi Tc Ti Hs before. unfold messages_upsert_one.
  rewrite Hc, Hi, Tc, Ti. apply String.eqb_neq in Hs. rewrite Hs.
  cbn [negb orb]. rewrite getChat_setMessage. fold before.
  destruct (key_fromMe msg); reflexivity.
Qed.

Lemma includes_In (l : list string) (x : string) :
  includes l x = true <-> In x l.
Proof.
  unfold includes. rewrite existsb_exists. split.
  - intros (y & Hy & E). apply String.eqb_eq in E. now subst.
  - intros H. exists x. split; [exact H|apply String.eqb_refl].
Qed.

Lemma add_all_In (blocklist existing : list string) (x : string) :
  In x (add_all blocklist existing) <-> In x existing \/ In x blocklist.
Proof.
  unfold add_all. revert existing.
  induction blocklist as [|j bl IH]; intros existing; simpl.
  - tauto.
  - rewrite IH. destruct (includes existing j) eqn:E.
    + apply includes_In in E. split; [tauto|].
      intros [H|[->|H]]; auto.
    + rewrite in_app_iff. simpl. tauto.
Qed.

Lemma add_all_NoDup (blocklist existing : list string) :
  List.NoDup existing -> List.NoDup (add_all blocklist existing).
Proof.
  unfold add_all. revert existing.
  induction blocklist as [|j bl IH]; intros existing Hnd; simpl.
  - exact Hnd.
  - apply IH. destruct (includes existing j) eqn:E; [exact Hnd|].
    apply List.NoDup_app; [exact Hnd|repeat constructor; simpl; tauto|].
    intros x Hx [<-|[]]. apply includes_In in Hx. congruence.
Qed.

Lemma add_all_present (blocklist existing : list string) :
  (forall x, In x blocklist -> In x existing) ->
  add_all blocklist existing = existing.
Proof.
  unfold add_all. revert existing.
  induction blocklist as [|j bl IH]; intros existing H; simpl.
  - reflexivity.
  - assert (E : includes existing j = true).
    { apply includes_In, H. now left. }
    rewrite E. apply IH. intros x Hx. apply H. now right.
Qed.

Lemma add_all_idempotent (blocklist existing : list string) :
  add_all blocklist (add_all blocklist existing)
  = add_all blocklist existing.
Proof.
  apply add_all_present. intros x Hx. apply add_all_In. now right.
Qed.

Lemma getBlocklist_setBlocklist (l : list string) (st : Store) :
  getBlocklist (setBlocklist l st) = l.
Proof.
  unfold getBlocklist, setBlocklist, MemoryStore.get, MemoryStore.atomicSet.
  simpl. now rewrite lookup_insert_eq.
Qed.

Lemma getBlocklist_add (l : list string) (st : Store) :
  getBlocklist (blocklist_update l "add" st) = add_all l (getBlocklist st).
Proof. unfold blocklist_update. simpl. apply getBlocklist_setBlocklist. Qed.

Lemma getBlocklist_remove (l : list string) (st : Store) :
  getBlocklist (blocklist_update l "remove" st)
  = List.filter (fun jid => negb (includes l jid)) (getBlocklist st).
Proof. unfold blocklist_update. simpl. apply getBlocklist_setBlocklist. Qed.

End BindFacts.

(** C5: when the [messages.upsert] handler reaches a message that has a
    chat id and a message id, the chat not being the status broadcast, it
    leaves the message entity under the key [o3din:message:<chat>:<id>],
    the chat's [conversationTimestamp] equal to the message's timestamp,
    and the chat's unread counter one higher than before (an absent
    counter counting as zero) if the message is not self-sent, unchanged
    if it is.  [pre] are the messages of the event handled before it. *)
Theorem messages_upsert_effect
    (st : Bind.Store) (pre : list PushMessage.WAMessage)
    (msg : PushMessage.WAMessage) (chatId messageId : string) :
  PushMessage.key_remoteJid msg = Some chatId ->
  PushMessage.key_id msg = Some messageId ->
  JsString.truthy chatId = true ->
  JsString.truthy messageId = true ->
  chatId <> "status@broadcast" ->
  let st0 := Bind.messages_upsert pre st in
  let st1 := Bind.messages_upsert (pre ++ [msg]) st in
  let before := default (Bind.chat_of_id chatId) (Bind.getChat chatId st0) in
  MemoryStore.get
    (Bind.REDIS_MESSAGE_PREFIX ++ chatId ++ ":" ++ messageId) st1
  = Some (Bind.EMessage msg)
  /\ exists after : Bind.Chat,
       Bind.getChat chatId st1 = Some after
       /\ Bind.conversationTimestamp after = PushMessage.messageTimestamp msg
       /\ (PushMessage.key_fromMe msg = false ->
           Bind.unreadCount after
           = Some (match Bind.unreadCount before with
                   | Some n => n + 1
                   | None => 1
                   end)%Z)
       /\ (PushMessage.key_fromMe msg = true ->
           Bind.unreadCount after = Bind.unreadCount before).
Proof.
  intros Hc Hi Tc Ti Hs st0 st1 before.
  assert (E : st1 = Bind.messages_upsert_one st0 msg).
  { unfold st1, st0, Bind.messages_upsert. now rewrite fold_left_app. }
  rewrite E, (messages_upsert_one_unfold st0 msg chatId messageId) by assumption.
  fold before. split.
  - pose proof (getMessage_setChat chatId messageId chatId) as G.
    unfold Bind.getMessage in G.
    unfold Bind.setChat, Bind.setMessage, MemoryStore.get,
      MemoryStore.atomicSet. simpl.
    rewrite lookup_insert_ne by apply chat_key_not_message_key.
    now rewrite lookup_insert_eq.
  - eexists. split; [apply getChat_setChat|]. simpl. split; [reflexivity|].
    split; intros ->; [|reflexivity].
    unfold Bind.bump_unread. now destruct (Bind.unreadCount before).
Qed.

Lemma messages_upsert_effect_witness :
  let msg := PushMessage.inbound "628123456789@s.whatsapp.net" "3EB001" in
  let st1 := Bind.messages_upsert [msg] MemoryStore.new in
  MemoryStore.get "o3din:message:628123456789@s.whatsapp.net:3EB001" st1
  = Some (Bind.EMessage msg)
  /\ exists after : Bind.Chat,
       Bind.getChat "628123456789@s.whatsapp.net" st1 = Some after
       /\ Bind.conversationTimestamp after = Some 1700000000%Z
       /\ Bind.unreadCount after = Some 1%Z.
Proof.
  intros msg st1.
  destruct (messages_upsert_effect MemoryStore.new [] msg
              "628123456789@s.whatsapp.net" "3EB001"
              eq_refl eq_refl eq_refl eq_refl ltac:(discriminate))
    as (Hm & after & Hg & Ht & Hu & _).
  split; [exact Hm|].
  exists after. split; [exact Hg|]. split; [exact Ht|].
  exact (Hu eq_refl).
Defined.

(** C4, on the code: the [messages.upsert] handler files a message whose
    chat id carries a device suffix under the raw id, and nothing under the
    normalised one, although the [chats.update] handler files the same
    chat under the normalised id; and [chats.delete] with the raw id
    leaves that chat entity in the store. *)
Lemma ingestion_keys_not_normalised :
  let raw := "628123456789:7@s.whatsapp.net" in
  let canonical := "628123456789@s.whatsapp.net" in
  let msg := PushMessage.inbound raw "3EB001" in
  let named :=
    Bind.mkChat (Some raw) None None None (Some "Ann") None in
  let st1 := Bind.messages_upsert [msg] MemoryStore.new in
  let st2 := Bind.chats_update [named] MemoryStore.new in
  let st3 := Bind.chats_delete [raw] st2 in
  Jid.decodeJid raw = Some canonical
  /\ Bind.getMessage raw "3EB001" st1 = Some msg
  /\ Bind.getMessage canonical "3EB001" st1 = None
  /\ Bind.getChat canonical st1 = None
  /\ Bind.getChat raw st1 <> None
  /\ Bind.getChat canonical st2 = Some named
  /\ Bind.getChat canonical st3 = Some named.
Proof. vm_compute. repeat split; discriminate. Qed.

(** C6: whatever the store holds, after [blocklist.update] with
    [add = [A, B]] and then [blocklist.update] with [remove = [A]], the
    blocklist read back contains [B] and does not contain [A] (for two
    different identifiers).  Adding is a union with the list held before:
    it is idempotent and adds no duplicate; removing is a filter. *)
Theorem blocklist_add_then_remove (st : Bind.Store) (A B : string) :
  A <> B ->
  let st1 := Bind.blocklist_update [A; B] "add" st in
  let st2 := Bind.blocklist_update [A] "remove" st1 in
  (In B (Bind.getBlocklist st2) /\ ~ In A (Bind.getBlocklist st2))
  /\ (forall (l : list string) (x : string),
        In x (Bind.getBlocklist (Bind.blocklist_update l "add" st))
        <-> In x (Bind.getBlocklist st) \/ In x l)
  /\ (forall l : list string,
        Bind.getBlocklist
          (Bind.blocklist_update l "add" (Bind.blocklist_update l "add" st))
        = Bind.getBlocklist (Bind.blocklist_update l "add" st))
  /\ (forall l : list string,
        List.NoDup (Bind.getBlocklist st) ->
        List.NoDup (Bind.getBlocklist (Bind.blocklist_update l "add" st)))
  /\ (forall (l : list string) (x : string),
        In x (Bind.getBlocklist (Bind.blocklist_update l "remove" st))
        <-> In x (Bind.getBlocklist st) /\ ~ In x l).
Proof.
  intros Hne st1 st2.
  assert (Hrem : forall (l : list string) (s : Bind.Store) (x : string),
            In x (Bind.getBlocklist (Bind.blocklist_update l "remove" s))
            <-> In x (Bind.getBlocklist s) /\ ~ In x l).
  { intros l s x. rewrite getBlocklist_remove, filter_In, negb_true_iff.
    split; intros [H1 H2]; (split; [exact H1|]).
    - intros H. apply includes_In in H. congruence.
    - destruct (Bind.includes l x) eqn:E; [|reflexivity].
      apply includes_In in E. contradiction. }
  split; [split|split; [|split; [|split]]].
  - apply Hrem. unfold st1. rewrite getBlocklist_add, add_all_In.
    split; [right; simpl; tauto|]. intros [E|[]]. congruence.
  - intros H. apply Hrem in H. apply (proj2 H). now left.
  - intros l x. rewrite getBlocklist_add. apply add_all_In.
  - intros l. rewrite !getBlocklist_add. apply add_all_idempotent.
  - intros l. rewrite getBlocklist_add. apply add_all_NoDup.
  - intros l x. apply Hrem.
Qed.

Lemma blocklist_add_then_remove_witness :
  let st :=
    Bind.blocklist_set ["111@s.whatsapp.net"; "333@s.whatsapp.net"]
      MemoryStore.new in
  let st2 :=
    Bind.blocklist_update ["111@s.whatsapp.net"] "remove"
      (Bind.blocklist_update ["111@s.whatsapp.net"; "222@s.whatsapp.net"]
         "add" st) in
  In "222@s.whatsapp.net" (Bind.getBlocklist st2)
  /\ ~ In "111@s.whatsapp.net" (Bind.getBlocklist st2).
Proof.
  intros st st2.
  exact (proj1 (blocklist_add_then_remove st
                  "111@s.whatsapp.net" "222@s.whatsapp.net"
                  ltac:(discriminate))).
Defined.

Example blocklist_scenario_values :
  Bind.getBlocklist
    (Bind.blocklist_update ["111@s.whatsapp.net"] "remove"
       (Bind.blocklist_update ["111@s.whatsapp.net"; "222@s.whatsapp.net"]
          "add"
          (Bind.blocklist_set ["111@s.whatsapp.net"; "333@s.whatsapp.net"]
             MemoryStore.new)))
  = ["333@s.whatsapp.net"; "222@s.whatsapp.net"].
Proof. vm_compute. reflexivity. Qed.

(** ** The retained-message window *)

Section WindowFacts.
Import PushMessage.

Lemma keys_entries (ms : list WAMessage) :
  JsObject.keys (map entry ms) = map id_of ms.
Proof. unfold JsObject.keys. rewrite map_map. reflexivity. Qed.

Lemma window_size_le (n : nat) : (window_size n <= n)%nat.
Proof.
  induction n as [|n IH]; simpl; [lia|].
  destruct (Nat.ltb_spec 20 (S (window_size n))); lia.
Qed.

Lemma window_size_cap (n : nat) : (window_size n <= 20)%nat.
Proof.
  destruct n as [|n]; simpl; [lia|].
  destruct (Nat.ltb_spec 20 (S (window_size n))); lia.
Qed.

(** One more message, on a window that holds the last [w] of the
    messages before it. *)
Lemma window_insert_entries (ms : list WAMessage) (m : WAMessage) :
  List.NoDup (map id_of (ms ++ [m])) ->
  JsObject.ordinary_key (id_of m) = true ->
  window_insert (id_of m) (cleanMsg m) (map entry ms)
  = map entry
      (skipn (if (20 <? S (length ms))%nat then S (length ms) - 15 else 0)%nat
         (ms ++ [m])).
Proof.
  intros Hnd Hi. unfold window_insert.
  assert (Hfresh : ~ In (id_of m) (JsObject.keys (map entry ms))).
  { rewrite keys_entries. rewrite map_app in Hnd.
    apply List.NoDup_remove_2 in Hnd. now rewrite app_nil_r in Hnd. }
  rewrite obj_set_fresh by assumption.
  change [(id_of m, cleanMsg m)] with (map entry [m]).
  rewrite <- map_app, keys_entries, length_map, length_app.
  cbn [length]. replace (length ms + 1)%nat with (S (length ms)) by lia.
  destruct (20 <? S (length ms))%nat.
  - rewrite <- keys_entries, obj_delete_first_skipn.
    + now rewrite skipn_map.
    + now rewrite keys_entries.
  - reflexivity.
Qed.

(** The last [window_size] of the messages, once one more has come. *)
Lemma window_insert_suffix (ms : list WAMessage) (m : WAMessage) :
  List.NoDup (map id_of (ms ++ [m])) ->
  JsObject.ordinary_key (id_of m) = true ->
  window_insert (id_of m) (cleanMsg m)
    (map entry (skipn (length ms - window_size (length ms)) ms))
  = map entry
      (skipn (length (ms ++ [m]) - window_size (length (ms ++ [m])))
         (ms ++ [m])).
Proof.
  intros Hnd Hi.
  pose proof (window_size_le (length ms)) as Hle.
  set (d := (length ms - window_size (length ms))%nat) in *.
  assert (Hsk : skipn d (ms ++ [m]) = (skipn d ms ++ [m])%list).
  { rewrite skipn_app. replace (d - length ms)%nat with 0%nat by lia.
    reflexivity. }
  rewrite window_insert_entries.
  - rewrite <- Hsk, skipn_skipn, length_skipn, length_app.
    cbn [length].
    replace (length ms + 1)%nat with (S (length ms)) by lia.
    replace (S (length ms - d)) with (S (window_size (length ms)))
      by lia.
    cbn [window_size]. do 2 f_equal. subst d.
    destruct (Nat.ltb_spec 20 (S (window_size (length ms)))); lia.
  - rewrite <- Hsk.
    rewrite <- (firstn_skipn d (ms ++ [m])), map_app in Hnd.
    now apply List.NoDup_app_remove_l in Hnd.
  - exact Hi.
Qed.

End WindowFacts.

(** ** The task of a message and the queue *)

Section TaskFacts.
Import JsString PushMessage Bind QuotedCache PushTask.
Variable lid : option string.
Variable areJidsSameUser : string -> string -> bool.
Variable groupMetadata : WAMessage -> string -> option GroupMetadata.

Local Abbreviation task := (PushTask.task lid areJidsSameUser groupMetadata).
Local Abbreviation alone := (PushTask.alone lid areJidsSameUser groupMetadata).
Local Abbreviation run_batch :=
  (PushTask.run_batch lid areJidsSameUser groupMetadata).
Local Abbreviation deliver :=
  (PushTask.deliver lid areJidsSameUser groupMetadata).
Local Abbreviation deliver_all :=
  (PushTask.deliver_all lid areJidsSameUser groupMetadata).
Local Abbreviation retained := (PushMessage.retained lid areJidsSameUser).
Local Abbreviation plain := (PushTask.plain lid areJidsSameUser).

Lemma chat_key_inj (a b : string) :
  REDIS_PREFIX ++ a = REDIS_PREFIX ++ b -> a = b.
Proof. unfold REDIS_PREFIX. simpl. intros E. now inversion E. Qed.

Lemma getChat_setChat_ne (jid jid' : string) (c : Chat) (st : Store) :
  jid <> jid' -> getChat jid (setChat jid' c st) = getChat jid st.
Proof.
  intros Hne.
  unfold getChat, setChat, MemoryStore.get, MemoryStore.atomicSet. simpl.
  rewrite lookup_insert_ne; [reflexivity|].
  intros E. apply Hne. symmetry. now apply chat_key_inj.
Qed.

(** *** A task on its own is the composition of its blocks *)

Lemma complete_update_sender (chat : string) (message : WAMessage)
    (chatData : Chat) (st : Store) :
  complete (update_sender lid areJidsSameUser chat message chatData st)
  = setChat chat
      (stored lid areJidsSameUser chat message
         (if negb (Jid.isGroupJid chat) then named message chatData
          else chatData))
      (update_sender_alone lid chat message st).
Proof.
  unfold update_sender, update_sender_alone, sender_chat.
  destruct (Jid.isGroupJid chat); cbn [negb]; [|reflexivity].
  destruct (sender_of lid chat message) as [s|]; [|reflexivity].
  destruct (truthy s && negb (String.eqb s chat)); reflexivity.
Qed.

Lemma complete_cache_quoted (chat : string) (message : WAMessage)
    (msgObj : JsObject.t Payload) (mtype : string) (chatData : Chat)
    (st : Store) :
  complete
    (cache_quoted lid areJidsSameUser chat message msgObj mtype chatData st)
  = complete
      (update_sender lid areJidsSameUser chat message chatData
         (cache_quoted_alone lid areJidsSameUser chat msgObj mtype st)).
Proof.
  unfold cache_quoted, cache_quoted_alone.
  destruct (quotation_of chat msgObj mtype) as [[[qChat id] ctx]|];
    [|reflexivity].
  cbn [complete].
  destruct (cached_quotation _ _ qChat id ctx _); reflexivity.
Qed.

Lemma complete_task (message : WAMessage) (st : Store) :
  complete (task message st) = alone message st.
Proof.
  assert (H : complete
                (process_message lid areJidsSameUser groupMetadata message st)
              = alone message st).
  { unfold process_message, PushTask.alone.
    destruct (mtype_of _) as [mtype|]; [|reflexivity].
    destruct (chat_of message) as [chat|]; [|reflexivity].
    destruct (Jid.isStatusJid chat); [reflexivity|].
    cbn [complete]. unfold resolve_metadata, chatData_alone.
    destruct (needs_metadata chat _); cbn [complete];
      now rewrite complete_cache_quoted, complete_update_sender. }
  unfold PushTask.task.
  destruct (messageStubType message) as [[|code]|]; exact H.
Qed.

(** *** Every task ends *)

Lemma within_le (P : Store -> Prop) (n m : nat) (r : Run) :
  within P n r -> (n <= m)%nat -> within P m r.
Proof.
  intros H. revert m.
  induction H as [n st Hst|n st resume Hst _ IH|n st resume Hst _ IH];
    intros m Hm.
  - now constructor.
  - destruct m as [|m]; [lia|]. constructor; [exact Hst|].
    intros st' Hst'. apply IH; [exact Hst'|lia].
  - destruct m as [|m]; [lia|]. constructor; [exact Hst|].
    intros st' Hst'. apply IH; [exact Hst'|lia].
Qed.

(** The blocks keep a property of the store that writing a chat entity
    keeps, for entities built the way the blocks build them. *)
Section Keeps.
Variable P : Store -> Prop.
Variable small : Chat -> Prop.
Hypothesis P_get :
  forall jid c st, P st -> getChat jid st = Some c -> small c.
Hypothesis P_set :
  forall jid c st, P st -> small c -> P (setChat jid c st).
Hypothesis small_new :
  forall id chats, small (mkChat (Some id) None chats None None None).
Hypothesis small_name :
  forall name c, small c -> small (set_name name c).
Hypothesis small_metadata :
  forall md c, small c -> small (set_metadata md c).
Hypothesis small_window :
  forall id m c,
    small c ->
    small (set_messages
             (window_insert id m (default JsObject.empty (chat_messages c)))
             c).
Hypothesis small_quoted :
  forall id m c,
    small c ->
    small (set_messages
             (quoted_insert id m (default JsObject.empty (chat_messages c)))
             c).

Lemma small_got (jid : string) (chats : option bool) (st : Store) :
  P st ->
  small (default (mkChat (Some jid) None chats None None None)
           (getChat jid st)).
Proof.
  intros H. destruct (getChat jid st) as [c|] eqn:E; cbn [default].
  - exact (P_get jid c st H E).
  - apply small_new.
Qed.

Lemma small_stored (chat : string) (message : WAMessage) (c : Chat) :
  small c -> small (stored lid areJidsSameUser chat message c).
Proof.
  intros H. unfold stored.
  destruct (PushMessage.retained _ _ _ _); [|exact H].
  destruct (key_id message); [|exact H]. now apply small_window.
Qed.

Lemma store_message_within (chat : string) (message : WAMessage)
    (chatData : Chat) (st : Store) :
  P st -> small chatData ->
  within P 1 (store_message lid areJidsSameUser chat message chatData st).
Proof.
  intros Hst Hc. unfold store_message. constructor.
  - apply P_set; [exact Hst|now apply small_stored].
  - intros st' Hst'. now constructor.
Qed.

Lemma update_sender_within (chat : string) (message : WAMessage)
    (chatData : Chat) (st : Store) :
  P st -> small chatData ->
  within P 3 (update_sender lid areJidsSameUser chat message chatData st).
Proof.
  intros Hst Hc. unfold update_sender.
  destruct (negb (Jid.isGroupJid chat)).
  - apply within_le with (n := 1%nat); [|lia].
    apply store_message_within; [exact Hst|now apply small_name].
  - destruct (sender_chat lid chat message) as [s|].
    + constructor; [exact Hst|]. intros st1 Hst1.
      constructor.
      * apply P_set; [exact Hst1|]. apply small_name.
        unfold chat_of_id. now apply small_got.
      * intros st2 Hst2. now apply store_message_within.
    + apply within_le with (n := 1%nat); [|lia].
      now apply store_message_within.
Qed.

Lemma cache_quoted_within (chat : string) (message : WAMessage)
    (msgObj : JsObject.t Payload) (mtype : string) (chatData : Chat)
    (st : Store) :
  P st -> small chatData ->
  within P 5
    (cache_quoted lid areJidsSameUser chat message msgObj mtype chatData st).
Proof.
  intros Hst Hc. unfold cache_quoted.
  destruct (quotation_of chat msgObj mtype) as [[[qChat id] ctx]|].
  - constructor; [exact Hst|]. intros st1 Hst1.
    unfold cached_quotation.
    destruct (present id _).
    + apply within_le with (n := 3%nat); [|lia].
      now apply update_sender_within.
    + constructor.
      * apply P_set; [exact Hst1|]. apply small_quoted. now apply small_got.
      * intros st2 Hst2. now apply update_sender_within.
  - apply within_le with (n := 3%nat); [|lia].
    now apply update_sender_within.
Qed.

Lemma task_within (message : WAMessage) (st : Store) :
  P st -> within P 8 (task message st).
Proof.
  assert (H : forall st', P st' ->
            within P 7
              (process_message lid areJidsSameUser groupMetadata message
                 st')).
  { intros st' Hst'. unfold process_message.
    destruct (mtype_of _) as [mtype|]; [|now constructor].
    destruct (chat_of message) as [chat|]; [|now constructor].
    destruct (Jid.isStatusJid chat); [now constructor|].
    constructor; [exact Hst'|]. intros st1 Hst1.
    pose proof (small_got chat (Some true) st' Hst') as Hc.
    unfold resolve_metadata.
    destruct (needs_metadata chat _).
    - constructor; [exact Hst1|]. intros st2 Hst2.
      apply cache_quoted_within; [exact Hst2|].
      unfold fetched. destruct (groupMetadata message chat); [|exact Hc].
      now apply small_metadata.
    - apply within_le with (n := 5%nat); [|lia].
      now apply cache_quoted_within. }
  intros Hst. unfold PushTask.task.
  destruct (messageStubType message) as [[|code]|].
  - apply within_le with (n := 7%nat); [|lia]. now apply H.
  - constructor; [exact Hst|]. exact H.
  - apply within_le with (n := 7%nat); [|lia]. now apply H.
Qed.

(** The rounds keep the property too. *)
Lemma rounds_keeps (fuel : nat) (ready waiting : list (Store -> Run))
    (st : Store) :
  P st ->
  Forall (fun f => forall st', P st' -> exists n, within P n (f st')) ready ->
  Forall (fun f => forall st', P st' -> exists n, within P n (f st'))
    waiting ->
  P (rounds fuel ready waiting st).
Proof.
  revert ready waiting st.
  induction fuel as [|fuel IH]; intros ready waiting st Hst Hr Hw;
    [exact Hst|].
  cbn [rounds].
  assert (Hstep : forall f ready' waiting',
            (forall st', P st' -> exists n, within P n (f st')) ->
            Forall (fun f => forall st', P st' -> exists n, within P n (f st'))
              ready' ->
            Forall (fun f => forall st', P st' -> exists n, within P n (f st'))
              waiting' ->
            P match f st with
              | Finished st' => rounds fuel ready' waiting' st'
              | Await st' resume =>
                  rounds fuel (ready' ++ [resume])%list waiting' st'
              | Fetch st' resume =>
                  rounds fuel ready' (waiting' ++ [resume])%list st'
              end).
  { intros f ready' waiting' Hf Hr' Hw'.
    destruct (Hf st Hst) as [n Hn].
    destruct Hn as [n st' Hst'|n st' resume Hst' Hres|n st' resume Hst' Hres].
    - now apply IH.
    - apply IH; [exact Hst'| |exact Hw'].
      apply Forall_app. split; [exact Hr'|].
      constructor; [|constructor]. intros st2 Hst2. exists n. now apply Hres.
    - apply IH; [exact Hst'|exact Hr'|].
      apply Forall_app. split; [exact Hw'|].
      constructor; [|constructor]. intros st2 Hst2. exists n. now apply Hres. }
  destruct ready as [|f ready'].
  - destruct waiting as [|f waiting']; [exact Hst|].
    apply Forall_cons in Hw as [Hf Hw]. apply Hstep; [exact Hf|constructor|exact Hw].
  - apply Forall_cons in Hr as [Hf Hr]. now apply Hstep.
Qed.

Lemma run_batch_keeps (batch : list WAMessage) (st : Store) :
  P st -> P (run_batch batch st).
Proof.
  intros Hst. unfold PushTask.run_batch.
  apply rounds_keeps; [exact Hst| |constructor].
  apply Forall_forall. intros f Hf.
  apply list_elem_of_In, in_map_iff in Hf as (m & <- & _).
  intros st' Hst'. exists 8%nat. now apply task_within.
Qed.

End Keeps.

(** No property asked of the store: a task waits at most eight times. *)
Lemma task_waits (message : WAMessage) (st : Store) :
  within (fun _ => True) 8 (task message st).
Proof. now apply (task_within (fun _ => True) (fun _ => True)). Qed.

(** A function that runs with no other beside it. *)
Lemma rounds_single (n : nat) :
  forall (fuel : nat) (f : Store -> Run) (st : Store),
    (forall st', within (fun _ => True) n (f st')) ->
    (n < fuel)%nat ->
    rounds fuel [f] [] st = complete (f st)
    /\ rounds fuel [] [f] st = complete (f st).
Proof.
  induction n as [|n IH]; intros fuel f st Hf Hlt;
    (destruct fuel as [|fuel]; [lia|]); cbn [rounds];
    pose proof (Hf st) as Hr;
    destruct (f st) as [st'|st' resume|st' resume]; cbn [complete];
    try (split; destruct fuel; reflexivity);
    inversion Hr; subst; cbn [app].
  - split; apply IH; solve [auto | lia].
  - split; apply IH; solve [auto | lia].
Qed.

Lemma run_batch_single (message : WAMessage) (st : Store) :
  run_batch [message] st = alone message st.
Proof.
  unfold PushTask.run_batch. cbn [length map Nat.mul Nat.add].
  rewrite <- complete_task.
  apply (rounds_single 8); [apply task_waits|lia].
Qed.

(** A message handed over while the queue is empty and dormant, the queue
    being left to drain: its task runs on its own, and the queue is empty
    and dormant again. *)
Lemma deliver_new (message : WAMessage) (st : Store) :
  deliver (mkConn MessageQueue.new st) message
  = mkConn MessageQueue.new (alone message st).
Proof.
  unfold PushTask.deliver, PushTask.process, PushTask.pushMessage.
  cbn -[PushTask.run_batch]. now rewrite run_batch_single.
Qed.

Lemma deliver_all_new (ms : list WAMessage) (st : Store) :
  deliver_all ms (mkConn MessageQueue.new st)
  = mkConn MessageQueue.new (fold_left (fun s m => alone m s) ms st).
Proof.
  unfold PushTask.deliver_all. revert st.
  induction ms as [|m ms IH]; intros st; [reflexivity|].
  cbn [fold_left]. rewrite deliver_new. apply IH.
Qed.

(** *** The window of the chat of a message *)

Lemma retained_parts (chat : string) (m : WAMessage) :
  retained chat m = true ->
  exists msgObj mtype,
    msg_message m = Some msgObj
    /\ mtype_of (JsObject.keys msgObj) = Some mtype
    /\ key_id m = Some (id_of m).
Proof.
  unfold PushMessage.retained, id_of.
  destruct (msg_message m) as [msgObj|]; [|discriminate].
  destruct (mtype_of (JsObject.keys msgObj)) as [mtype|] eqn:Ht;
    [|discriminate].
  intros H. apply andb_prop in H as [_ H].
  exists msgObj, mtype.
  destruct (key_id m); [now repeat split|discriminate].
Qed.

Lemma chatData_alone_messages (chat : string) (m : WAMessage)
    (got : option Chat) :
  retained chat m = true ->
  chat_messages (chatData_alone lid areJidsSameUser groupMetadata chat m got)
  = Some (window_insert (id_of m) (cleanMsg m)
            (default JsObject.empty (got ≫= chat_messages))).
Proof.
  intros Hr. destruct (retained_parts chat m Hr) as (_ & _ & _ & _ & Hid).
  unfold chatData_alone, stored. rewrite Hr, Hid. cbn [chat_messages set_messages].
  do 2 f_equal.
  destruct (needs_metadata chat _), (negb (Jid.isGroupJid chat));
    unfold fetched; try destruct (groupMetadata m chat);
    destruct got; reflexivity.
Qed.

(** The task of a retained message, run on its own, files the message in
    the window of its chat. *)
Lemma alone_window (chat : string) (m : WAMessage) (st : Store) :
  chat_of m = Some chat ->
  Jid.isStatusJid chat = false ->
  retained chat m = true ->
  window chat (alone m st)
  = window_insert (id_of m) (cleanMsg m) (window chat st).
Proof.
  intros Hc Hs Hr.
  destruct (retained_parts chat m Hr) as (msgObj & mtype & Hm & Ht & _).
  unfold PushTask.alone, window. rewrite Hm. cbn [default].
  unfold Datatypes.id. rewrite Ht, Hc, Hs, getChat_setChat.
  cbn [mbind option_bind]. now rewrite chatData_alone_messages.
Qed.

(** The window after any run of plain messages with distinct ids, each
    handed over on its own, for a chat whose window was empty: the last
    [window_size n] of the [n] messages, in arrival order, each under its
    id. *)
Lemma alone_all_window (chat : string) (ms : list WAMessage) (st : Store) :
  Jid.isStatusJid chat = false ->
  Forall (plain chat) ms ->
  List.NoDup (map id_of ms) ->
  window chat st = [] ->
  window chat (fold_left (fun s m => alone m s) ms st)
  = map entry (skipn (length ms - window_size (length ms)) ms).
Proof.
  intros Hs. induction ms as [|m ms IH] using rev_ind; intros Hp Hnd H0.
  - exact H0.
  - apply Forall_app in Hp as [Hp Hm].
    apply Forall_inv in Hm. destruct Hm as (Hc & Hr & Hi & _).
    assert (Hnd' : List.NoDup (map id_of ms)).
    { rewrite map_app in Hnd. now apply List.NoDup_app_remove_r in Hnd. }
    rewrite fold_left_app. cbn [fold_left].
    rewrite (alone_window chat m _ Hc Hs Hr), (IH Hp Hnd' H0).
    now apply window_insert_suffix.
Qed.

End TaskFacts.

(** C1, as stated: twenty-five messages from somebody else, one after the
    other, leave fifteen in the window.  Handed over one at a time, the
    queue draining in between, they leave nineteen: the twenty-first takes
    the window over twenty and trims it to fifteen, and the next four are
    added to those. *)
Lemma window_after_25_holds_19 :
  let w :=
    PushTask.window "628123456789@s.whatsapp.net"
      (PushTask.memoryStore
         (PushTask.deliver_all None (fun _ _ => false) (fun _ _ => None)
            PushMessage.inbound25
            (PushTask.mkConn MessageQueue.new MemoryStore.new))) in
  length w = 19%nat
  /\ length w <> 15%nat
  /\ JsObject.keys w = skipn 6 PushMessage.ids25.
Proof. vm_compute. repeat split. discriminate. Qed.

(** Handed over in one call, the messages are queued together and run ten
    at a time: each task of a batch reads the chat before any of them
    writes it back, so of ten messages for a chat the store does not hold
    yet only the last is in the window afterwards. *)
Example ten_at_once_keep_one :
  let c :=
    PushTask.process None (fun _ _ => false) (fun _ _ => None)
      (PushTask.pushMessage (firstn 10 PushMessage.inbound25)
         (PushTask.mkConn MessageQueue.new MemoryStore.new)) in
  JsObject.keys
    (PushTask.window "628123456789@s.whatsapp.net" (PushTask.memoryStore c))
  = ["3EB010"].
Proof. vm_compute. reflexivity. Qed.

(** C1, amended: twenty-five retained messages of one chat, which is not
    the status broadcast, with distinct ids (none of them an array index
    or [__proto__]) and none of them quoting a message of the chat itself,
    handed to [pushMessage] one at a time, the queue draining before the
    next is handed over, for a chat whose window is empty, leave exactly
    nineteen in the window: the nineteen most recent in arrival order, the
    oldest six gone.  After the first [n] of them the window holds [n]
    entries up to twenty and [n - 6] from the twenty-first on: it never
    holds more than twenty, and the insertion that takes it to twenty-one
    trims it to the newest fifteen. *)
Theorem pushMessage_window_25
    (lid : option string) (areJidsSameUser : string -> string -> bool)
    (groupMetadata : PushMessage.WAMessage -> string ->
                     option Bind.GroupMetadata)
    (chat : string) (ms : list PushMessage.WAMessage) (st : Bind.Store) :
  length ms = 25%nat ->
  Jid.isStatusJid chat = false ->
  Forall (PushTask.plain lid areJidsSameUser chat) ms ->
  List.NoDup (map PushMessage.id_of ms) ->
  PushTask.window chat st = [] ->
  let after (l : list PushMessage.WAMessage) :=
    PushTask.window chat
      (PushTask.memoryStore
         (PushTask.deliver_all lid areJidsSameUser groupMetadata l
            (PushTask.mkConn MessageQueue.new st))) in
  length (after ms) = 19%nat
  /\ after ms = map PushMessage.entry (skipn 6 ms)
  /\ forall n : nat, (n <= 25)%nat ->
       length (after (firstn n ms))
       = (if (n <=? 20)%nat then n else n - 6)%nat
       /\ (length (after (firstn n ms)) <= 20)%nat.
Proof.
  intros Hlen Hs Hp Hnd H0 after.
  assert (Hw : forall n, (n <= 25)%nat ->
            after (firstn n ms)
            = map PushMessage.entry
                (skipn (n - PushMessage.window_size n) (firstn n ms))).
  { intros n Hn. unfold after.
    rewrite deliver_all_new. cbn [PushTask.memoryStore].
    rewrite alone_all_window; [|exact Hs| | |exact H0].
    - now rewrite length_firstn, Hlen, Nat.min_l by exact Hn.
    - rewrite <- (firstn_skipn n ms) in Hp. now apply Forall_app in Hp.
    - rewrite <- (firstn_skipn n ms), map_app in Hnd.
      now apply List.NoDup_app_remove_r in Hnd. }
  assert (Hall : after ms = map PushMessage.entry (skipn 6 ms)).
  { specialize (Hw 25%nat (Nat.le_refl _)).
    rewrite <- Hlen, firstn_all in Hw at 1.
    rewrite <- Hlen, firstn_all, Hlen in Hw. exact Hw. }
  split; [|split].
  - rewrite Hall, length_map, length_skipn, Hlen. reflexivity.
  - exact Hall.
  - intros n Hn. rewrite (Hw n Hn), length_map, length_skipn, length_firstn.
    rewrite Hlen, Nat.min_l by exact Hn.
    pose proof (window_size_le n). pose proof (window_size_cap n).
    replace (n - (n - PushMessage.window_size n))%nat
      with (PushMessage.window_size n) by lia.
    split; [|assumption].
    do 26 (destruct n as [|n]; [reflexivity|]). lia.
Qed.

Lemma pushMessage_window_25_witness :
  let after :=
    PushTask.window "628123456789@s.whatsapp.net"
      (PushTask.memoryStore
         (PushTask.deliver_all None (fun _ _ => false) (fun _ _ => None)
            PushMessage.inbound25
            (PushTask.mkConn MessageQueue.new MemoryStore.new))) in
  length after = 19%nat
  /\ after = map PushMessage.entry (skipn 6 PushMessage.inbound25).
Proof.
  assert (Hp : Forall (PushTask.plain None (fun _ _ => false)
                         "628123456789@s.whatsapp.net")
                 PushMessage.inbound25).
  { repeat constructor; discriminate. }
  assert (Hnd : List.NoDup (map PushMessage.id_of PushMessage.inbound25)).
  { apply NoDup_ListNoDup, (bool_decide_unpack _). vm_compute. exact I. }
  destruct (pushMessage_window_25 None (fun _ _ => false) (fun _ _ => None)
              "628123456789@s.whatsapp.net" PushMessage.inbound25
              MemoryStore.new eq_refl eq_refl Hp Hnd eq_refl)
    as (H1 & H2 & _).
  split; [exact H1 | exact H2].
Defined.

(** ** The meta interface *)

Section MetaFacts.
Import Js Meta DataWrapper.
Local Open Scope Z_scope.

Lemma meta_get_after_set (key : string) (value : JsValue) (bytes : list Z)
    (st : State) :
  encodeMeta value = Some bytes ->
  meta_get key (snd (meta_set key value st)) = decodeMeta bytes.
Proof.
  intros E. unfold meta_set, meta_get. rewrite E. simpl.
  now rewrite lookup_insert_eq.
Qed.

Lemma utf8_encode_cp_ascii (c : Z) :
  0 <= c < 128 -> utf8_encode_cp c = [c].
Proof.
  intros Hc. unfold utf8_encode_cp.
  replace ((55296 <=? c) && (c <=? 57343)) with false
    by (symmetry; apply andb_false_iff; left; apply Z.leb_gt; lia).
  now replace (c <? 128) with true by (symmetry; apply Z.ltb_lt; lia).
Qed.

Lemma utf8_lead_ascii (c : Z) :
  0 <= c < 128 -> utf8_lead c = ([c], None).
Proof.
  intros Hc. unfold utf8_lead.
  now replace (c <=? 127) with true by (symmetry; apply Z.leb_le; lia).
Qed.

(** Text in ASCII is decoded to itself. *)
Lemma utf8_decode_encode_ascii (s : ustring) :
  Forall (fun c => 0 <= c < 128) s ->
  utf8_decode None (TextEncoder_encode s) = s.
Proof.
  induction 1 as [|c s Hc _ IH]; [reflexivity|].
  unfold TextEncoder_encode in *. cbn [flat_map].
  rewrite (utf8_encode_cp_ascii c Hc).
  change ([c] ++ flat_map utf8_encode_cp s)%list
    with (c :: flat_map utf8_encode_cp s).
  cbn [utf8_decode]. rewrite (utf8_lead_ascii c Hc).
  cbn [app]. now rewrite IH.
Qed.

(** A string in ASCII that is not empty, does not look like a number and
    is not one of the two boolean literals is read back as it was
    written. *)
Lemma meta_string_roundtrip_ascii (key : string) (s : ustring) (st : State) :
  s <> [] ->
  Forall (fun c => 0 <= c < 128) s ->
  test_number s = false ->
  s <> Js.text "true" ->
  s <> Js.text "false" ->
  meta_get key (snd (meta_set key (JString s) st)) = JString s.
Proof.
  intros Hne Hascii Hnum Ht Hf.
  rewrite (meta_get_after_set key (JString s) (TextEncoder_encode s) st eq_refl).
  assert (Hdec : TextDecoder_decode (TextEncoder_encode s) = s).
  { unfold TextDecoder_decode. rewrite utf8_decode_encode_ascii by exact Hascii.
    destruct s as [|c s']; [reflexivity|].
    apply Forall_inv in Hascii.
    destruct (Z.eq_dec c 65279) as [->|Hc]; [lia|].
    destruct c as [|p|p]; try reflexivity.
    repeat (destruct p as [p|p|]; try reflexivity). contradiction. }
  unfold decodeMeta.
  destruct (TextEncoder_encode s) as [|b bs] eqn:E.
  - destruct s as [|c s']; [contradiction|].
    apply Forall_inv in Hascii. unfold TextEncoder_encode in E.
    cbn [flat_map] in E. rewrite (utf8_encode_cp_ascii c Hascii) in E.
    discriminate.
  - rewrite Hdec, Hnum. cbn [andb]. unfold ustring_eqb.
    rewrite !bool_decide_eq_false_2 by assumption. reflexivity.
Qed.

End MetaFacts.

(** C2, on the code: for every key and every state of the database, the
    value read back after [set(k, 42)] is the eight-character string made
    of the bytes of the number (six NUL characters, then E and the
    at-sign), not the number; after [set(k, true)] it is the one-character string U+0001, not
    the boolean; after [set(k, "hello")] it is the string "hello". *)
Theorem meta_scalars_read_back (k : string) (st : DataWrapper.State) :
  DataWrapper.meta_get k
    (snd (DataWrapper.meta_set k (Js.JNumber (Js.number_of_Z 42)) st))
  = Js.JString [0; 0; 0; 0; 0; 0; 69; 64]%Z
  /\ DataWrapper.meta_get k
       (snd (DataWrapper.meta_set k (Js.JBoolean true) st))
     = Js.JString [1]%Z
  /\ DataWrapper.meta_get k
       (snd (DataWrapper.meta_set k (Js.JString (Js.text "hello")) st))
     = Js.JString (Js.text "hello").
Proof.
  repeat split.
  - rewrite (meta_get_after_set k (Js.JNumber (Js.number_of_Z 42))
               [0; 0; 0; 0; 0; 0; 69; 64]%Z st eq_refl).
    reflexivity.
  - rewrite (meta_get_after_set k (Js.JBoolean true) [1]%Z st eq_refl).
    reflexivity.
  - rewrite (meta_get_after_set k (Js.JString (Js.text "hello"))
               [104; 101; 108; 108; 111]%Z st eq_refl).
    reflexivity.
Qed.

(** What the decoder is built for: a number or a boolean that was stored as
    its text comes back typed. *)
Example decodeMeta_sniffs_text :
  Meta.decodeMeta (Js.TextEncoder_encode (Js.text "42"))
  = Js.JNumber (Js.number_of_Z 42)
  /\ Meta.decodeMeta (Js.TextEncoder_encode (Js.text "true"))
     = Js.JBoolean true.
Proof. split; reflexivity. Qed.

(** C10: [set] with [null] or [undefined] returns [false] and leaves the
    whole state as it was, the meta table included; with a string, a
    number, a boolean or an object it returns [true] and the meta table
    afterwards is the one before with the key bound to the encoded bytes,
    the row tables being untouched. *)
Theorem meta_set_result (key : string) (st : DataWrapper.State) :
  DataWrapper.meta_set key Js.JNull st = (false, st)
  /\ DataWrapper.meta_set key Js.JUndefined st = (false, st)
  /\ forall (value : Js.JsValue) (bytes : list Z),
       (exists s, value = Js.JString s /\ bytes = Js.TextEncoder_encode s)
       \/ (exists x, value = Js.JNumber x /\ bytes = Js.setFloat64_le x)
       \/ (exists b, value = Js.JBoolean b
                     /\ bytes = [if b then 1 else 0]%Z)
       \/ (exists i, value = Js.JObject i /\ bytes = Js.TextEncoder_encode i)
       ->
       let '(result, st') := DataWrapper.meta_set key value st in
       result = true
       /\ DataWrapper.meta_rows st' = <[key := bytes]> (DataWrapper.meta_rows st)
       /\ DataWrapper.meta_rows st' !! key = Some bytes
       /\ DataWrapper.chats_rows st' = DataWrapper.chats_rows st
       /\ DataWrapper.settings_rows st' = DataWrapper.settings_rows st.
Proof.
  split; [reflexivity|]. split; [reflexivity|].
  intros value bytes
    [(s & -> & ->)|[(x & -> & ->)|[(b & -> & ->)|(i & -> & ->)]]];
    cbn; rewrite lookup_insert_eq; repeat split.
Qed.

(** ** Row proxies *)

(** C7, as stated: writing a field that is not a column raises no
    exception for the caller that performs the assignment.  It does: the
    trap answers [false], and the assignment, being strict code, throws a
    [TypeError]. *)
Lemma unknown_column_assignment_throws :
  let jid := "628123456789@s.whatsapp.net" in
  let '(row, st) := DataWrapper.table_get DataWrapper.chats jid DataWrapper.new in
  fst (fst (DataWrapper.assign DataWrapper.keeps_text DataWrapper.chats jid
              row "banned" (DataWrapper.CBool true) st))
  = DataWrapper.ThrowTypeError
  /\ fst (fst (DataWrapper.assign DataWrapper.keeps_text DataWrapper.chats jid
                 row "banned" (DataWrapper.CBool true) st))
     <> DataWrapper.Normal.
Proof. vm_compute. split; [reflexivity|discriminate]. Qed.

(** C7, amended: writing a field that is not a column of the table is
    refused.  The trap returns [false] and logs one warning, "Unknown
    column", with the table and the field; the row object is the one it
    was, and so are the tables of the database and the row caches.  The
    trap itself raises nothing; the assignment that invoked it throws a
    [TypeError], as every assignment in module code does when the trap
    returns [false]. *)
Theorem unknown_column_write_rejected
    (text_affinity : string -> DataWrapper.ColumnValue)
    (t : DataWrapper.Table) (jid : string) (obj : DataWrapper.Row)
    (prop : string) (value : DataWrapper.ColumnValue)
    (st : DataWrapper.State) :
  DataWrapper.is_column t prop = false ->
  let '(result, obj', st') :=
    DataWrapper.row_set text_affinity t jid obj prop value st in
  result = false
  /\ obj' = obj
  /\ DataWrapper.chats_rows st' = DataWrapper.chats_rows st
  /\ DataWrapper.settings_rows st' = DataWrapper.settings_rows st
  /\ DataWrapper.meta_rows st' = DataWrapper.meta_rows st
  /\ DataWrapper.chats_cache st' = DataWrapper.chats_cache st
  /\ DataWrapper.settings_cache st' = DataWrapper.settings_cache st
  /\ DataWrapper.log st'
     = (DataWrapper.log st
        ++ [DataWrapper.mkLogEntry "warn"
              [("table", DataWrapper.table_name t); ("prop", prop)]
              "Unknown column"])%list
  /\ DataWrapper.assign text_affinity t jid obj prop value st
     = (DataWrapper.ThrowTypeError, obj, st').
Proof.
  intros H. unfold DataWrapper.assign, DataWrapper.row_set. rewrite H.
  cbn. repeat split.
Qed.

Lemma unknown_column_write_rejected_witness :
  let jid := "628123456789@s.whatsapp.net" in
  let row := DataWrapper.default_row DataWrapper.chats jid in
  let st := snd (DataWrapper.table_get DataWrapper.chats jid DataWrapper.new) in
  let '(result, obj', st') :=
    DataWrapper.row_set DataWrapper.keeps_text DataWrapper.chats jid row
      "banned" (DataWrapper.CBool true) st in
  result = false
  /\ obj' = row
  /\ DataWrapper.chats_rows st' = DataWrapper.chats_rows st.
Proof.
  intros jid row st.
  pose proof (unknown_column_write_rejected DataWrapper.keeps_text
                DataWrapper.chats jid row "banned"
                (DataWrapper.CBool true) st eq_refl) as H.
  destruct (DataWrapper.row_set DataWrapper.keeps_text DataWrapper.chats jid
              row "banned" (DataWrapper.CBool true) st)
    as [[result obj'] st'].
  destruct H as (H1 & H2 & H3 & _).
  split; [exact H1|]. split; [exact H2|exact H3].
Defined.

(** ** The row cache *)

Section RowCacheFacts.
Context {V : Type}.
Implicit Types (m : JsMap.t V) (c : RowCache.t V).

Lemma map_set_size m (k : string) (v : V) :
  (JsMap.size (JsMap.set k v m) <= S (JsMap.size m))%nat.
Proof.
  unfold JsMap.size. induction m as [|[k' v'] m IH]; simpl; [lia|].
  destruct (String.eqb k k'); simpl; lia.
Qed.

Lemma map_delete_size m (k : string) :
  (JsMap.size (JsMap.delete k m) <= JsMap.size m)%nat.
Proof.
  unfold JsMap.size. induction m as [|[k' v'] m IH]; simpl; [lia|].
  destruct (String.eqb k k'); simpl; lia.
Qed.

Lemma map_delete_first_size m (k : string) :
  JsMap.first_key m = Some k ->
  S (JsMap.size (JsMap.delete k m)) = JsMap.size m.
Proof.
  destruct m as [|[k' v'] m]; simpl; [discriminate|].
  intros [= ->]. now rewrite String.eqb_refl.
Qed.

Lemma rowcache_step_maxSize c (op : RowCache.Op V) :
  RowCache.maxSize (RowCache.step c op) = RowCache.maxSize c.
Proof. destruct op; reflexivity. Qed.

(** One call keeps a cache of capacity at least one within its
    capacity. *)
Lemma rowcache_step_bounded c (op : RowCache.Op V) :
  (1 <= RowCache.maxSize c)%Z ->
  (Z.of_nat (RowCache.size c) <= RowCache.maxSize c)%Z ->
  (Z.of_nat (RowCache.size (RowCache.step c op)) <= RowCache.maxSize c)%Z.
Proof.
  intros H1 Hb. destruct op as [key|key value|key|]; simpl.
  - exact Hb.
  - unfold RowCache.size, RowCache.set in *. cbn [RowCache.cache].
    pose proof (map_set_size (RowCache.cache c) key value) as Hs.
    destruct (Z.leb_spec (RowCache.maxSize c)
                (Z.of_nat (JsMap.size (RowCache.cache c)))) as [Hfull|Hroom].
    + destruct (JsMap.first_key (RowCache.cache c)) as [firstKey|] eqn:E.
      * pose proof (map_delete_first_size _ _ E) as Hd.
        pose proof (map_set_size
                      (JsMap.delete firstKey (RowCache.cache c)) key value).
        lia.
      * destruct (RowCache.cache c) as [|[k' v'] m]; [|discriminate].
        simpl in Hfull. lia.
    + lia.
  - unfold RowCache.size, RowCache.delete in *. cbn [RowCache.cache].
    pose proof (map_delete_size (RowCache.cache c) key). lia.
  - unfold RowCache.size, RowCache.clear. simpl. lia.
Qed.

Lemma rowcache_run_bounded (ops : list (RowCache.Op V)) c :
  (1 <= RowCache.maxSize c)%Z ->
  (Z.of_nat (RowCache.size c) <= RowCache.maxSize c)%Z ->
  (Z.of_nat (RowCache.size (RowCache.run ops c)) <= RowCache.maxSize c)%Z.
Proof.
  unfold RowCache.run. revert c.
  induction ops as [|op ops IH]; intros c H1 Hb; simpl; [exact Hb|].
  rewrite <- (rowcache_step_maxSize c op).
  apply IH; rewrite rowcache_step_maxSize;
    [exact H1|now apply rowcache_step_bounded].
Qed.

End RowCacheFacts.

(** C8, on the code: with the chats cache (capacity 100) filled by reading
    a hundred identifiers, reading the first of them again and then a new
    one evicts that first identifier, the one touched last, and keeps the
    second, which was touched before it: the eviction order is the order
    of insertion, and a read does not move an entry. *)
Lemma rowcache_evicts_by_insertion_not_access :
  let jids := map DataWrapper.jid_of_nat (seq 0 100) in
  let key (n : nat) :=
    DataWrapper.cacheKey DataWrapper.chats (DataWrapper.jid_of_nat n) in
  let keys (st : DataWrapper.State) :=
    map fst (RowCache.cache (DataWrapper.chats_cache st)) in
  let st100 := DataWrapper.read_all DataWrapper.chats jids DataWrapper.new in
  let touched :=
    DataWrapper.read_all DataWrapper.chats [DataWrapper.jid_of_nat 0] st100 in
  let st101 :=
    DataWrapper.read_all DataWrapper.chats [DataWrapper.jid_of_nat 100] touched in
  RowCache.maxSize (DataWrapper.chats_cache DataWrapper.new) = 100%Z
  /\ RowCache.maxSize (DataWrapper.settings_cache DataWrapper.new) = 50%Z
  /\ keys st100 = map key (seq 0 100)
  /\ keys touched = map key (seq 0 100)
  /\ keys st101 = map key (seq 1 100)
  /\ RowCache.get (key 0%nat) (DataWrapper.chats_cache st101) = None
  /\ RowCache.get (key 1%nat) (DataWrapper.chats_cache st101)
     = Some (DataWrapper.default_row DataWrapper.chats
               (DataWrapper.jid_of_nat 1)).
Proof. repeat split; vm_compute; reflexivity. Qed.

(** The same on a cache of capacity two. *)
Example rowcache_capacity_two :
  let c :=
    RowCache.run
      [RowCache.OpSet "a" 1; RowCache.OpSet "b" 2; RowCache.OpGet "a";
       RowCache.OpSet "c" 3]
      (RowCache.new 2) in
  map fst (RowCache.cache c) = ["b"; "c"].
Proof. reflexivity. Qed.

(** C9, as stated for every capacity: a cache made with [maxSize] zero
    holds one entry after one [set]. *)
Lemma rowcache_capacity_zero_exceeded :
  RowCache.size (RowCache.run [RowCache.OpSet "a" 1%Z] (RowCache.new 0)) = 1%nat
  /\ ~ (Z.of_nat
          (RowCache.size (RowCache.run [RowCache.OpSet "a" 1%Z] (RowCache.new 0)))
        <= 0)%Z.
Proof. vm_compute. split; [reflexivity|]. intros H. now apply H. Qed.

(** C9, amended: a cache made with a capacity [n] of at least one never
    holds more than [n] entries: after each call of any run of [get],
    [set], [delete] and [clear] calls the number of entries is at most
    [n]. *)
Theorem rowcache_never_exceeds_capacity
    (V : Type) (n : Z) (ops : list (RowCache.Op V)) (k : nat) :
  (1 <= n)%Z ->
  (Z.of_nat (RowCache.size (RowCache.run (firstn k ops) (RowCache.new n)))
   <= n)%Z.
Proof.
  intros Hn.
  apply (rowcache_run_bounded (firstn k ops) (RowCache.new n)).
  - exact Hn.
  - unfold RowCache.size, RowCache.new, JsMap.size. simpl. lia.
Qed.

Lemma rowcache_never_exceeds_capacity_witness :
  (Z.of_nat
     (RowCache.size
        (RowCache.run
           (firstn 3
              [RowCache.OpSet "a" 1%Z; RowCache.OpSet "b" 2%Z;
               RowCache.OpSet "c" 3%Z; RowCache.OpClear])
           (RowCache.new 2)))
   <= 2)%Z.
Proof.
  apply (rowcache_never_exceeds_capacity Z 2
           [RowCache.OpSet "a" 1%Z; RowCache.OpSet "b" 2%Z;
            RowCache.OpSet "c" 3%Z; RowCache.OpClear] 3).
  lia.
Defined.

(* ===================================================================== *)
(** * Further properties of the modelled code *)
(* ===================================================================== *)

(** ** The identity normaliser, continued *)

Section JidMoreFacts.
Import JsString Jid.

Lemma all_digits_no_char (c : ascii) (x : string) :
  is_digit c = false -> all_digits x = true -> includes_char c x = false.
Proof.
  intros Hc. induction x as [|d x IH]; [reflexivity|].
  cbn [all_digits includes_char]. intros H.
  apply andb_prop in H as [Hd Hx].
  destruct (Ascii.eqb_spec c d) as [->|_]; [congruence|auto].
Qed.

Lemma test_numeric_all_digits (x : string) :
  test_numeric x = true -> all_digits x = true /\ truthy x = true.
Proof. destruct x; [discriminate|]. intros H. now split. Qed.

Lemma strip_device_truthy (x : string) :
  truthy x = true -> truthy (strip_device x) = true.
Proof.
  destruct x as [|c x]; [discriminate|]. intros _. cbn [strip_device].
  destruct (Ascii.eqb c ":"); [|reflexivity].
  destruct (span_digits x) as [[|d ds] [|a r]]; try reflexivity.
  destruct a as [[] [] [] [] [] [] [] []]; reflexivity.
Qed.

Lemma decodeJid_colon_free (x : string) :
  includes_char ":" x = false ->
  decodeJid x
  = if negb (truthy x) then None
    else if includes_char "@" x then Some x
    else if test_numeric x then Some (x ++ "@s.whatsapp.net")
    else Some x.
Proof.
  intros H. unfold decodeJid. now rewrite (strip_device_no_colon x H).
Qed.

Lemma decodeJid_numeric_fixed (x : string) :
  test_numeric x = true ->
  decodeJid x = Some (x ++ "@s.whatsapp.net")
  /\ decodeJid (x ++ "@s.whatsapp.net") = Some (x ++ "@s.whatsapp.net").
Proof.
  intros Hx. destruct (test_numeric_all_digits x Hx) as [Hd Ht].
  pose proof (all_digits_no_char ":" x eq_refl Hd) as Hc.
  pose proof (all_digits_no_char "@" x eq_refl Hd) as Ha.
  split.
  - rewrite decodeJid_colon_free by exact Hc. now rewrite Ht, Ha, Hx.
  - apply (decodeJid_without_device x "s.whatsapp.net" Hc eq_refl).
Qed.

End JidMoreFacts.

(** X1: a purely numeric identifier is given the default namespace, and
    the result is a fixed point of the normaliser. *)
Theorem decodeJid_numeric (x : string) :
  JsString.test_numeric x = true ->
  Jid.decodeJid x = Some (x ++ "@s.whatsapp.net")
  /\ Jid.decodeJid (x ++ "@s.whatsapp.net") = Some (x ++ "@s.whatsapp.net").
Proof. intros Hx. split; apply (decodeJid_numeric_fixed x Hx). Qed.

Lemma decodeJid_numeric_witness :
  Jid.decodeJid "628123456789" = Some "628123456789@s.whatsapp.net"
  /\ Jid.decodeJid "628123456789@s.whatsapp.net"
     = Some "628123456789@s.whatsapp.net".
Proof. exact (decodeJid_numeric "628123456789" eq_refl). Defined.

(** X2: on an identifier without a colon the normaliser is idempotent:
    normalising its result again changes nothing. *)
Theorem decodeJid_idempotent_colon_free (x : string) :
  JsString.includes_char ":" x = false ->
  Jid.decodeJid_opt (Jid.decodeJid x) = Jid.decodeJid x.
Proof.
  intros Hc. rewrite decodeJid_colon_free by exact Hc.
  destruct (JsString.truthy x) eqn:Ht; [|reflexivity]. cbn [negb].
  destruct (JsString.includes_char "@" x) eqn:Ha.
  - cbn [Jid.decodeJid_opt]. rewrite decodeJid_colon_free by exact Hc.
    now rewrite Ht, Ha.
  - destruct (JsString.test_numeric x) eqn:Hn.
    + cbn [Jid.decodeJid_opt]. apply (decodeJid_numeric_fixed x Hn).
    + cbn [Jid.decodeJid_opt]. rewrite decodeJid_colon_free by exact Hc.
      now rewrite Ht, Ha, Hn.
Qed.

Lemma decodeJid_idempotent_colon_free_witness :
  Jid.decodeJid_opt (Jid.decodeJid "120363041234567890@g.us")
  = Jid.decodeJid "120363041234567890@g.us".
Proof.
  exact (decodeJid_idempotent_colon_free "120363041234567890@g.us" eq_refl).
Defined.

(** X3: the normaliser answers [null] for the empty string only, and never
    answers the empty string: a handler's [if (!id) continue] skips an
    event exactly when its identifier is empty or absent. *)
Theorem decodeJid_null_iff_empty (x : string) :
  (Jid.decodeJid x = None <-> x = "")
  /\ Jid.decodeJid x <> Some "".
Proof.
  unfold Jid.decodeJid. destruct (JsString.truthy x) eqn:Ht; cbn [negb].
  - pose proof (strip_device_truthy x Ht) as Hs.
    assert (Hne : x <> "") by (intros ->; discriminate).
    split.
    + split; [|contradiction].
      destruct (JsString.includes_char "@" _); [discriminate|].
      destruct (JsString.test_numeric _); discriminate.
    + destruct (Jid.strip_device x) as [|c s]; [discriminate|].
      destruct (JsString.includes_char "@" _); [discriminate|].
      destruct (JsString.test_numeric _); discriminate.
  - destruct x; [|discriminate]. split; [tauto|discriminate].
Qed.

(** ** The windows of [pushMessage], continued *)

Section ObjectInvariants.
Context {V : Type}.
Implicit Types (o : JsObject.t V) (k : string) (v : V).

Lemma obj_keys_replace k v o :
  JsObject.keys (JsObject.replace k v o) = JsObject.keys o.
Proof.
  induction o as [|[k' v'] o IH]; [reflexivity|]. cbn [JsObject.replace].
  destruct (String.eqb_spec k k') as [->|_]; [reflexivity|].
  unfold JsObject.keys in *. cbn [map fst]. now rewrite IH.
Qed.

Lemma obj_keys_insert_index (n : N) k v o :
  exists a b,
    JsObject.keys o = (a ++ b)%list
    /\ JsObject.keys (JsObject.insert_index n k v o) = (a ++ k :: b)%list.
Proof.
  induction o as [|[k' v'] o IH].
  - exists [], []. split; reflexivity.
  - cbn [JsObject.insert_index].
    destruct (JsObject.array_index k') as [n'|].
    + destruct (n' <? n)%N.
      * destruct IH as (a & b & E1 & E2). exists (k' :: a), b.
        unfold JsObject.keys in *. cbn [map fst]. rewrite E1, E2.
        split; reflexivity.
      * exists [], (JsObject.keys ((k', v') :: o)). split; reflexivity.
    + exists [], (JsObject.keys ((k', v') :: o)). split; reflexivity.
Qed.

(** What an assignment does to the keys: nothing, or one new key put
    somewhere among them. *)
Lemma obj_keys_set k v o :
  JsObject.keys (JsObject.set k v o) = JsObject.keys o
  \/ (~ In k (JsObject.keys o)
      /\ exists a b,
           JsObject.keys o = (a ++ b)%list
           /\ JsObject.keys (JsObject.set k v o) = (a ++ k :: b)%list).
Proof.
  unfold JsObject.set. destruct (String.eqb k "__proto__"); [now left|].
  destruct (JsObject.has k o) eqn:Hh.
  - left. apply obj_keys_replace.
  - right. split; [now apply obj_has_false_not_in|].
    destruct (JsObject.array_index k) as [n|].
    + apply obj_keys_insert_index.
    + exists (JsObject.keys o), []. unfold JsObject.keys.
      rewrite map_app, app_nil_r. split; reflexivity.
Qed.

Lemma obj_set_NoDup k v o :
  List.NoDup (JsObject.keys o) -> List.NoDup (JsObject.keys (JsObject.set k v o)).
Proof.
  intros Hnd. destruct (obj_keys_set k v o) as [E|(Hk & a & b & E1 & E2)].
  - now rewrite E.
  - rewrite E2. apply List.NoDup_Add with (a := k) (l := (a ++ b)%list).
    + apply Add_app.
    + rewrite <- E1. now constructor.
Qed.

Lemma obj_set_length k v o :
  (length (JsObject.set k v o) <= S (length o))%nat.
Proof.
  pose proof (f_equal (@length string)) as F.
  destruct (obj_keys_set k v o) as [E|(_ & a & b & E1 & E2)].
  - apply (f_equal (@length string)) in E. unfold JsObject.keys in E.
    rewrite !length_map in E. lia.
  - apply (f_equal (@length string)) in E1, E2. unfold JsObject.keys in E1, E2.
    rewrite length_map, length_app in E1, E2. cbn [length] in E2. lia.
Qed.

Lemma obj_get_In k v o :
  JsObject.get k o = Some v -> In (k, v) o.
Proof.
  induction o as [|[k' v'] o IH]; cbn [JsObject.get]; [discriminate|].
  destruct (String.eqb_spec k k') as [->|_].
  - intros [= ->]. now left.
  - intros H. right. auto.
Qed.

Lemma obj_In_get k v o :
  List.NoDup (JsObject.keys o) -> In (k, v) o -> JsObject.get k o = Some v.
Proof.
  induction o as [|[k' v'] o IH]; cbn [JsObject.get JsObject.keys map fst];
    intros Hnd Hin; [destruct Hin|].
  apply List.NoDup_cons_iff in Hnd as [Hk Hnd].
  destruct Hin as [[= -> ->]|Hin].
  - now rewrite String.eqb_refl.
  - destruct (String.eqb_spec k k') as [->|_]; [|auto].
    exfalso. apply Hk. change k' with (fst (k', v)). now apply in_map.
Qed.

(** Assigning to a property the value it has changes nothing. *)
Lemma obj_set_same k v o :
  JsObject.get k o = Some v -> JsObject.set k v o = o.
Proof.
  intros Hg. unfold JsObject.set.
  destruct (String.eqb k "__proto__"); [reflexivity|].
  unfold JsObject.has. rewrite Hg.
  induction o as [|[k' v'] o IH]; cbn [JsObject.get JsObject.replace] in *;
    [discriminate|].
  destruct (String.eqb_spec k k') as [->|_].
  - now injection Hg as ->.
  - now rewrite IH.
Qed.

Lemma obj_get_replace k v o :
  JsObject.has k o = true -> JsObject.get k (JsObject.replace k v o) = Some v.
Proof.
  unfold JsObject.has.
  induction o as [|[k' v'] o IH]; cbn [JsObject.get JsObject.replace];
    [discriminate|].
  destruct (String.eqb_spec k k') as [->|Hne].
  - intros _. cbn [JsObject.get]. now rewrite String.eqb_refl.
  - intros H. cbn [JsObject.get].
    destruct (String.eqb_spec k k'); [contradiction|auto].
Qed.

End ObjectInvariants.

Section WindowInvariants.
Import PushMessage QuotedCache.
Context {V : Type}.
Implicit Types (o : JsObject.t V) (k : string) (v : V).

(** Deleting keys one after the other keeps the properties under the
    other keys. *)
Lemma obj_delete_first_filter (n : nat) (ks : list string) o :
  JsObject.delete_first n ks o
  = List.filter
      (fun kv => negb (existsb (fun k => String.eqb k (fst kv)) (firstn n ks)))
      o.
Proof.
  unfold JsObject.delete_first. generalize (firstn n ks) as l. clear n ks.
  intros l. revert o. induction l as [|k l IH]; intros o; cbn [fold_left].
  - cbn [existsb negb]. induction o as [|kv o IHo]; [reflexivity|].
    cbn [List.filter]. now rewrite <- IHo.
  - rewrite IH. unfold JsObject.delete.
    induction o as [|kv o IHo]; [reflexivity|].
    cbn [List.filter existsb].
    destruct (String.eqb k (fst kv)); cbn [negb orb List.filter].
    + exact IHo.
    + destruct (negb (existsb _ l)); [now rewrite IHo|exact IHo].
Qed.

(** Deleting the first [d] keys leaves at most what follows the first [d]
    properties. *)
Lemma obj_delete_first_length (d : nat) o :
  (length (JsObject.delete_first d (JsObject.keys o) o) <= length o - d)%nat.
Proof.
  rewrite obj_delete_first_filter.
  set (p := fun kv : string * V =>
              negb (existsb (fun k => String.eqb k (fst kv))
                      (firstn d (JsObject.keys o)))).
  assert (E : List.filter p o
              = (List.filter p (firstn d o) ++ List.filter p (skipn d o))%list).
  { rewrite <- List.filter_app. now rewrite firstn_skipn. }
  assert (H0 : List.filter p (firstn d o) = []).
  { unfold p, JsObject.keys. rewrite firstn_map.
    generalize (firstn d o) as l. intros l.
    assert (G : forall l' : list (string * V),
              (forall x, In x l -> In x l') ->
              List.filter
                (fun kv => negb (existsb (fun k => String.eqb k (fst kv))
                                   (map fst l'))) l = []).
    { induction l as [|kv l IHl]; intros l' Hin; [reflexivity|].
      cbn [List.filter].
      assert (E' : existsb (fun k => String.eqb k (fst kv)) (map fst l')
                   = true).
      { apply existsb_exists. exists (fst kv). split.
        - apply in_map, Hin. now left.
        - apply String.eqb_refl. }
      rewrite E'. cbn [negb]. apply IHl. intros x Hx. apply Hin. now right. }
    now apply G. }
  rewrite E, H0. cbn [app].
  pose proof (List.filter_length_le p (skipn d o)) as Hl.
  rewrite length_skipn in Hl. lia.
Qed.

(** A key that none of the deleted keys equals reads as before. *)
Lemma obj_get_delete_first (n : nat) (ks : list string) k o :
  ~ In k (firstn n ks) ->
  JsObject.get k (JsObject.delete_first n ks o) = JsObject.get k o.
Proof.
  intros Hk. rewrite obj_delete_first_filter.
  induction o as [|[k' v'] o IH]; [reflexivity|].
  cbn [List.filter fst JsObject.get].
  destruct (String.eqb_spec k k') as [->|Hne].
  - assert (E : existsb (fun k0 => String.eqb k0 k') (firstn n ks) = false).
    { apply not_true_is_false. intros E. apply existsb_exists in E.
      destruct E as (x & Hx & E). apply String.eqb_eq in E. now subst. }
    rewrite E. cbn [negb JsObject.get]. now rewrite String.eqb_refl.
  - destruct (negb (existsb _ (firstn n ks))); [|exact IH].
    cbn [JsObject.get]. destruct (String.eqb_spec k k'); [contradiction|].
    exact IH.
Qed.

Lemma obj_get_app_fresh k v o :
  ~ In k (JsObject.keys o) -> JsObject.get k (o ++ [(k, v)])%list = Some v.
Proof.
  induction o as [|[k' v'] o IH]; cbn [JsObject.get JsObject.keys map fst app];
    intros H.
  - now rewrite String.eqb_refl.
  - destruct (String.eqb_spec k k') as [->|_].
    + exfalso. apply H. now left.
    + apply IH. intros E. apply H. now right.
Qed.

Lemma obj_keys_length o : length (JsObject.keys o) = length o.
Proof. unfold JsObject.keys. apply length_map. Qed.

End WindowInvariants.

Section WindowBounds.
Import PushMessage QuotedCache.

(** The retention block leaves at most twenty messages, whatever it
    found. *)
Lemma window_insert_length (id : string) (m : WAMessage)
    (w : JsObject.t WAMessage) :
  (length (window_insert id m w) <= 20)%nat.
Proof.
  unfold window_insert. set (w1 := JsObject.set id m w).
  rewrite obj_keys_length.
  destruct (Nat.ltb_spec 20 (length w1)) as [Hbig|Hsmall]; [|exact Hsmall].
  pose proof (obj_delete_first_length (length w1 - 15) w1). lia.
Qed.

(** The quote block leaves at most thirty, whatever it found. *)
Lemma quoted_insert_length (id : string) (m : WAMessage)
    (w : JsObject.t WAMessage) :
  (length (quoted_insert id m w) <= 30)%nat.
Proof.
  unfold quoted_insert. set (w1 := JsObject.set id m w).
  rewrite obj_keys_length.
  destruct (Nat.ltb_spec 30 (length w1)) as [Hbig|Hsmall]; [|exact Hsmall].
  pose proof (obj_delete_first_length (length w1 - 20) w1). lia.
Qed.

Lemma window_insert_small (id : string) (m : WAMessage)
    (w : JsObject.t WAMessage) :
  (length (JsObject.set id m w) <= 20)%nat ->
  window_insert id m w = JsObject.set id m w.
Proof.
  intros H. unfold window_insert. rewrite obj_keys_length.
  destruct (Nat.ltb_spec 20 (length (JsObject.set id m w))); [lia|reflexivity].
Qed.

Lemma window_size_closed (n : nat) :
  PushMessage.window_size n
  = (if (n <=? 20)%nat then n else 15 + (n - 21) mod 6)%nat.
Proof.
  induction n as [|n IH]; [reflexivity|].
  cbn [PushMessage.window_size]. rewrite IH.
  destruct (Nat.leb_spec n 20) as [Hn|Hn].
  - destruct (Nat.leb_spec (S n) 20) as [Hs|Hs].
    + destruct (Nat.ltb_spec 20 (S n)); [lia|reflexivity].
    + assert (n = 20%nat) as -> by lia. reflexivity.
  - destruct (Nat.leb_spec (S n) 20) as [Hs|Hs]; [lia|].
    replace (S n - 21)%nat with (S (n - 21)) by lia.
    pose proof (Nat.mod_upper_bound (n - 21) 6 ltac:(lia)) as Hb.
    pose proof (Nat.div_mod_eq (n - 21) 6) as Hd.
    destruct (Nat.ltb_spec 20 (S (15 + (n - 21) mod 6))) as [Hbig|Hsmall].
    + assert (Hr : ((n - 21) mod 6 = 5)%nat) by lia.
      replace (S (n - 21)) with (0 + (S ((n - 21) / 6)) * 6)%nat by lia.
      rewrite Nat.Div0.mod_add. reflexivity.
    + replace (S (n - 21))
        with (S ((n - 21) mod 6) + ((n - 21) / 6) * 6)%nat by lia.
      rewrite Nat.Div0.mod_add.
      rewrite (Nat.mod_small (S ((n - 21) mod 6)) 6) by lia. lia.
Qed.

Lemma quoted_insert_fresh (id : string) (m : WAMessage)
    (o : JsObject.t WAMessage) :
  List.NoDup (JsObject.keys o) ->
  ~ In id (JsObject.keys o) ->
  JsObject.ordinary_key id = true ->
  quoted_insert id m o
  = skipn (if (30 <? S (length o))%nat then S (length o) - 20 else 0)%nat
      (o ++ [(id, m)])%list.
Proof.
  intros Hnd Hfresh Hi. unfold quoted_insert.
  rewrite obj_set_fresh by assumption.
  assert (Hk : JsObject.keys (o ++ [(id, m)])%list
               = (JsObject.keys o ++ [id])%list).
  { unfold JsObject.keys. now rewrite map_app. }
  assert (Hl : length (JsObject.keys (o ++ [(id, m)])%list) = S (length o)).
  { unfold JsObject.keys. rewrite length_map, length_app. cbn. lia. }
  rewrite Hl. destruct (30 <? S (length o))%nat; [|reflexivity].
  apply obj_delete_first_skipn. rewrite Hk.
  apply List.NoDup_Add with (a := id) (l := JsObject.keys o).
  - rewrite <- (app_nil_r (JsObject.keys o)) at 1. apply Add_app.
  - now constructor.
Qed.

Lemma quoted_size_le (n : nat) : (quoted_size n <= n)%nat.
Proof.
  induction n as [|n IH]; cbn [quoted_size]; [lia|].
  destruct (Nat.ltb_spec 30 (S (quoted_size n))); lia.
Qed.

Lemma quoted_size_closed (n : nat) :
  quoted_size n = (if (n <=? 30)%nat then n else 20 + (n - 31) mod 11)%nat.
Proof.
  induction n as [|n IH]; [reflexivity|].
  cbn [quoted_size]. rewrite IH.
  destruct (Nat.leb_spec n 30) as [Hn|Hn].
  - destruct (Nat.leb_spec (S n) 30) as [Hs|Hs].
    + destruct (Nat.ltb_spec 30 (S n)); [lia|reflexivity].
    + assert (n = 30%nat) as -> by lia. reflexivity.
  - destruct (Nat.leb_spec (S n) 30) as [Hs|Hs]; [lia|].
    replace (S n - 31)%nat with (S (n - 31)) by lia.
    pose proof (Nat.mod_upper_bound (n - 31) 11 ltac:(lia)) as Hb.
    pose proof (Nat.div_mod_eq (n - 31) 11) as Hd.
    destruct (Nat.ltb_spec 30 (S (20 + (n - 31) mod 11))) as [Hbig|Hsmall].
    + replace (S (n - 31)) with (0 + (S ((n - 31) / 11)) * 11)%nat by lia.
      rewrite Nat.Div0.mod_add. reflexivity.
    + replace (S (n - 31))
        with (S ((n - 31) mod 11) + ((n - 31) / 11) * 11)%nat by lia.
      rewrite Nat.Div0.mod_add.
      rewrite (Nat.mod_small (S ((n - 31) mod 11)) 11) by lia. lia.
Qed.

End WindowBounds.

Section TaskMoreFacts.
Import JsString PushMessage Bind QuotedCache PushTask.
Variable lid : option string.
Variable areJidsSameUser : string -> string -> bool.
Variable groupMetadata : WAMessage -> string -> option GroupMetadata.

Local Abbreviation task := (PushTask.task lid areJidsSameUser groupMetadata).
Local Abbreviation alone := (PushTask.alone lid areJidsSameUser groupMetadata).
Local Abbreviation run_batch :=
  (PushTask.run_batch lid areJidsSameUser groupMetadata).
Local Abbreviation qentry := (QuotedCache.qentry lid areJidsSameUser).

(** *** No window beyond thirty *)

Lemma windows_within_setChat (n : nat) (jid : string) (c : Chat)
    (st : Store) :
  windows_within n st ->
  (length (default JsObject.empty (chat_messages c)) <= n)%nat ->
  windows_within n (setChat jid c st).
Proof.
  intros Hst Hc jid' c' Hg.
  destruct (String.eqb_spec jid' jid) as [->|Hne].
  - rewrite getChat_setChat in Hg. now injection Hg as <-.
  - rewrite getChat_setChat_ne in Hg by exact Hne. exact (Hst jid' c' Hg).
Qed.

Lemma run_batch_within_30 (batch : list WAMessage) (st : Store) :
  windows_within 30 st -> windows_within 30 (run_batch batch st).
Proof.
  apply (run_batch_keeps lid areJidsSameUser groupMetadata
           (windows_within 30)
           (fun c => (length (default JsObject.empty (chat_messages c))
                      <= 30)%nat)).
  - intros jid c st' H. apply H.
  - intros jid c st' H Hc. now apply windows_within_setChat.
  - intros id chats. cbn. lia.
  - intros name c H. exact H.
  - intros md c H. exact H.
  - intros id m c _. unfold set_messages. cbn [chat_messages default].
    unfold Datatypes.id.
    etransitivity; [apply window_insert_length|lia].
  - intros id m c _. unfold set_messages. cbn [chat_messages default].
    unfold Datatypes.id. apply quoted_insert_length.
Qed.

(** *** The turns allowed are enough *)

Lemma rounds_enough (fuel : nat) :
  forall (ready waiting : list (Store -> Run)) (ns ms : list nat)
         (st : Store) (extra : nat),
    Forall2 (fun n f => forall st', within (fun _ => True) n (f st'))
      ns ready ->
    Forall2 (fun n f => forall st', within (fun _ => True) n (f st'))
      ms waiting ->
    (length ns + list_sum ns + length ms + list_sum ms <= fuel)%nat ->
    rounds (fuel + extra) ready waiting st = rounds fuel ready waiting st.
Proof.
  induction fuel as [|fuel IH]; intros ready waiting ns ms st extra Hr Hw Hc.
  - destruct Hr; [|cbn in Hc; lia]. destruct Hw; [|cbn in Hc; lia].
    destruct extra; reflexivity.
  - cbn [Nat.add rounds].
    assert (Hstep : forall f n ready' waiting' ns' ms',
              (forall st', within (fun _ => True) n (f st')) ->
              Forall2 (fun n f => forall st', within (fun _ => True) n (f st'))
                ns' ready' ->
              Forall2 (fun n f => forall st', within (fun _ => True) n (f st'))
                ms' waiting' ->
              (length ns' + list_sum ns' + length ms' + list_sum ms' + n
               <= fuel)%nat ->
              match f st with
              | Finished st' => rounds (fuel + extra) ready' waiting' st'
              | Await st' resume =>
                  rounds (fuel + extra) (ready' ++ [resume])%list waiting' st'
              | Fetch st' resume =>
                  rounds (fuel + extra) ready' (waiting' ++ [resume])%list st'
              end
              = match f st with
                | Finished st' => rounds fuel ready' waiting' st'
                | Await st' resume =>
                    rounds fuel (ready' ++ [resume])%list waiting' st'
                | Fetch st' resume =>
                    rounds fuel ready' (waiting' ++ [resume])%list st'
                end).
    { intros f n ready' waiting' ns' ms' Hf Hr' Hw' Hc'.
      pose proof (Hf st) as Hn.
      destruct Hn as [n st' _|n st' resume _ Hres|n st' resume _ Hres].
      - apply (IH _ _ ns' ms'); [exact Hr'|exact Hw'|lia].
      - apply (IH _ _ (ns' ++ [n])%list ms'); [|exact Hw'|].
        + apply Forall2_app; [exact Hr'|].
          constructor; [|constructor]. intros st2. now apply Hres.
        + rewrite length_app, list_sum_app.
          change (list_sum [n]) with (n + 0)%nat. cbn [length]. lia.
      - apply (IH _ _ ns' (ms' ++ [n])%list); [exact Hr'| |].
        + apply Forall2_app; [exact Hw'|].
          constructor; [|constructor]. intros st2. now apply Hres.
        + rewrite length_app, list_sum_app.
          change (list_sum [n]) with (n + 0)%nat. cbn [length]. lia. }
    destruct Hr as [|n f ns' ready' Hf Hr'].
    + destruct Hw as [|n f ms' waiting' Hf Hw']; [reflexivity|].
      apply (Hstep f n [] waiting' [] ms'); [exact Hf|constructor|exact Hw'|].
      change (list_sum (n :: ms')) with (n + list_sum ms')%nat in Hc.
      cbn [length] in Hc |- *. change (list_sum []) with 0%nat in *. lia.
    + apply (Hstep f n ready' waiting ns' ms); [exact Hf|exact Hr'|exact Hw|].
      change (list_sum (n :: ns')) with (n + list_sum ns')%nat in Hc.
      cbn [length] in Hc. lia.
Qed.

Lemma run_batch_enough (batch : list WAMessage) (st : Store) (extra : nat) :
  rounds (9 * length batch + extra) (map task batch) [] st
  = run_batch batch st.
Proof.
  unfold PushTask.run_batch.
  apply (rounds_enough _ _ _ (map (fun _ => 8%nat) batch) []).
  - induction batch as [|m batch IH]; cbn [map]; constructor; [|exact IH].
    intros st'. apply task_waits.
  - constructor.
  - assert (E : list_sum (map (fun _ : WAMessage => 8%nat) batch)
                = (8 * length batch)%nat).
    { induction batch as [|m batch IH]; [reflexivity|].
      cbn [map length].
      change (list_sum (8%nat :: map (fun _ : WAMessage => 8%nat) batch))
        with (8 + list_sum (map (fun _ : WAMessage => 8%nat) batch))%nat.
      rewrite IH. lia. }
    rewrite E, length_map. change (list_sum []) with 0%nat.
    cbn [length]. lia.
Qed.

Lemma process_within_30 (c : Conn) :
  windows_within 30 (memoryStore c) ->
  windows_within 30
    (memoryStore (process lid areJidsSameUser groupMetadata c)).
Proof.
  intros H. unfold process.
  destruct (MessageQueue.process (messageQueue c)) as [batches q].
  cbn [memoryStore]. revert H. generalize (memoryStore c) as st.
  induction batches as [|batch batches IH]; intros st H; [exact H|].
  cbn [fold_left]. apply IH. now apply run_batch_within_30.
Qed.

(** *** The cache of quoted messages *)

(** The sender block changes no window. *)
Lemma update_sender_alone_window (q chat : string) (m : WAMessage)
    (st : Store) :
  window q (update_sender_alone lid chat m st) = window q st.
Proof.
  unfold update_sender_alone.
  destruct (sender_chat lid chat m) as [s|]; [|reflexivity].
  unfold window. destruct (String.eqb_spec q s) as [->|Hne].
  - rewrite getChat_setChat. now destruct (getChat s st).
  - now rewrite getChat_setChat_ne.
Qed.

Lemma quoted_chat_parts (q chat : string) (m : WAMessage) :
  quoted_chat chat m = Some q ->
  exists mtype,
    mtype_of (JsObject.keys (default JsObject.empty (msg_message m)))
    = Some mtype
    /\ quotation_of chat (default JsObject.empty (msg_message m)) mtype
       = Some (q, stanza_of m, context_of m).
Proof.
  unfold quoted_chat, stanza_of, context_of.
  destruct (mtype_of _) as [mtype|]; [|discriminate].
  intros H. exists mtype. split; [reflexivity|].
  unfold quotation_of in *.
  destruct (JsObject.get mtype _ ≫= contextInfo) as [ctx|]; [|discriminate].
  cbn [default]. unfold Datatypes.id.
  destruct (quotedMessage ctx); [|discriminate].
  destruct (stanzaId ctx) as [id|]; [|discriminate].
  destruct (qChat_of chat ctx) as [qChat|]; [|discriminate].
  destruct (truthy id && truthy qChat && negb (Jid.isStatusJid qChat));
    [|discriminate].
  now injection H as ->.
Qed.

(** The task of a message that quotes a message of another chat under a
    stanza id the cache of that chat does not hold, run on its own, files
    the quotation in that cache. *)
Lemma alone_quoted (q chat : string) (m : WAMessage) (st : Store) :
  Jid.isStatusJid chat = false ->
  q <> chat ->
  quotes q chat m ->
  ~ In (stanza_of m) (JsObject.keys (window q st)) ->
  window q (alone m st)
  = quoted_insert (stanza_of m)
      (quotedMsg lid areJidsSameUser q (stanza_of m) (context_of m))
      (window q st).
Proof.
  intros Hs Hne (Hc & Hq & _ & Hinh) Hfresh.
  destruct (quoted_chat_parts q chat m Hq) as (mtype & Ht & Hquot).
  unfold PushTask.alone. rewrite Ht, Hc, Hs.
  unfold window at 1. rewrite getChat_setChat_ne by exact Hne.
  fold (window q (update_sender_alone lid chat m
                    (cache_quoted_alone lid areJidsSameUser chat
                       (default JsObject.empty (msg_message m)) mtype st))).
  rewrite update_sender_alone_window.
  unfold cache_quoted_alone. rewrite Hquot. unfold cached_quotation.
  set (qm := default _ (getChat q st)).
  assert (Hm : default JsObject.empty (chat_messages qm) = window q st).
  { unfold qm, window. destruct (getChat q st); reflexivity. }
  rewrite Hm. unfold present. rewrite Hinh, orb_false_r.
  assert (Hh : JsObject.has (stanza_of m) (window q st) = false)
    by now apply obj_has_false_not_in.
  rewrite Hh. unfold window at 1. rewrite getChat_setChat. reflexivity.
Qed.

Lemma keys_qentries (q : string) (ms : list WAMessage) :
  JsObject.keys (map (fun m => qentry q (context_of m)) ms)
  = map stanza_of ms.
Proof. unfold JsObject.keys. rewrite map_map. reflexivity. Qed.

Lemma alone_all_quoted (q chat : string) (ms : list WAMessage) (st : Store) :
  Jid.isStatusJid chat = false ->
  q <> chat ->
  window q st = [] ->
  Forall (quotes q chat) ms ->
  List.NoDup (map stanza_of ms) ->
  window q (fold_left (fun s m => alone m s) ms st)
  = map (fun m => qentry q (context_of m))
      (skipn (length ms - quoted_size (length ms)) ms).
Proof.
  intros Hs Hne H0.
  induction ms as [|m ms IH] using rev_ind; intros Hq Hnd.
  - exact H0.
  - apply Forall_app in Hq as [Hq Hm]. apply Forall_inv in Hm.
    assert (Hnd' : List.NoDup (map stanza_of ms)).
    { rewrite map_app in Hnd. now apply List.NoDup_app_remove_r in Hnd. }
    specialize (IH Hq Hnd').
    rewrite fold_left_app. cbn [fold_left].
    set (st1 := fold_left _ ms st) in *.
    pose proof (quoted_size_le (length ms)) as Hle.
    set (d := (length ms - quoted_size (length ms))%nat) in *.
    assert (Hsk : skipn d (ms ++ [m]) = (skipn d ms ++ [m])%list).
    { rewrite skipn_app. replace (d - length ms)%nat with 0%nat by lia.
      reflexivity. }
    assert (Hnd1 : List.NoDup (map stanza_of (skipn d (ms ++ [m])))).
    { rewrite <- (firstn_skipn d (ms ++ [m])), map_app in Hnd.
      now apply List.NoDup_app_remove_l in Hnd. }
    rewrite Hsk, map_app in Hnd1. cbn [map] in Hnd1.
    assert (Hfresh : ~ In (stanza_of m) (JsObject.keys (window q st1))).
    { rewrite IH, keys_qentries. apply List.NoDup_remove_2 in Hnd1.
      now rewrite app_nil_r in Hnd1. }
    rewrite (alone_quoted q chat m st1 Hs Hne Hm Hfresh).
    rewrite quoted_insert_fresh.
    + rewrite IH.
      change [(stanza_of m,
               quotedMsg lid areJidsSameUser q (stanza_of m) (context_of m))]
        with (map (fun m => qentry q (context_of m)) [m]).
      rewrite <- map_app, <- Hsk, length_map, skipn_map, skipn_skipn.
      rewrite length_skipn, length_app. cbn [length].
      replace (length ms + 1)%nat with (S (length ms)) by lia.
      replace (S (length ms - d)) with (S (quoted_size (length ms)))
        by lia.
      cbn [quoted_size]. do 2 f_equal. subst d.
      destruct (Nat.ltb_spec 30 (S (quoted_size (length ms)))); lia.
    + rewrite IH, keys_qentries.
      apply List.NoDup_remove_1 in Hnd1. now rewrite app_nil_r in Hnd1.
    + exact Hfresh.
    + now destruct Hm as (_ & _ & Ho & _).
Qed.

End TaskMoreFacts.

(** X4: whatever messages are handed to [pushMessage], in whatever
    calls, and however the queue cuts them into batches, no chat entity of
    the store comes to hold more than thirty messages if none did before:
    the quote block trims at thirty and the retention block at twenty, each
    before the task waits again.  [pushMessage] itself only queues, and
    nine turns for each task of a batch run every task to its end.  Right
    after a retained message has been processed on its own, the window of
    its chat holds at most twenty. *)
Theorem windows_never_exceed_30
    (lid : option string) (areJidsSameUser : string -> string -> bool)
    (groupMetadata : PushMessage.WAMessage -> string ->
                     option Bind.GroupMetadata)
    (c : PushTask.Conn) :
  PushTask.windows_within 30 (PushTask.memoryStore c) ->
  (forall m : list PushMessage.WAMessage,
     PushTask.memoryStore (PushTask.pushMessage m c) = PushTask.memoryStore c)
  /\ PushTask.windows_within 30
       (PushTask.memoryStore
          (PushTask.process lid areJidsSameUser groupMetadata c))
  /\ (forall (batch : list PushMessage.WAMessage) (st : Bind.Store)
             (extra : nat),
        PushTask.rounds (9 * length batch + extra)
          (map (PushTask.task lid areJidsSameUser groupMetadata) batch) [] st
        = PushTask.run_batch lid areJidsSameUser groupMetadata batch st)
  /\ (forall (m : PushMessage.WAMessage) (chat : string),
        PushTask.messageQueue c = MessageQueue.new ->
        PushTask.chat_of m = Some chat ->
        Jid.isStatusJid chat = false ->
        PushMessage.retained lid areJidsSameUser chat m = true ->
        (length
           (PushTask.window chat
              (PushTask.memoryStore
                 (PushTask.deliver lid areJidsSameUser groupMetadata c m)))
         <= 20)%nat).
Proof.
  intros H. split; [reflexivity|]. split; [now apply process_within_30|].
  split; [intros batch st extra; apply run_batch_enough|].
  intros m chat Hq Hc Hs Hr. destruct c as [q st]. cbn in Hq. subst q.
  rewrite deliver_new. cbn [PushTask.memoryStore].
  rewrite (alone_window lid areJidsSameUser groupMetadata chat m st Hc Hs Hr).
  apply window_insert_length.
Qed.

Lemma windows_never_exceed_30_witness :
  PushTask.windows_within 30
    (PushTask.memoryStore
       (PushTask.process None (fun _ _ => false) (fun _ _ => None)
          (PushTask.pushMessage PushMessage.inbound25
             (PushTask.mkConn MessageQueue.new MemoryStore.new)))).
Proof.
  apply (windows_never_exceed_30 None (fun _ _ => false) (fun _ _ => None)
           (PushTask.pushMessage PushMessage.inbound25
              (PushTask.mkConn MessageQueue.new MemoryStore.new))).
  intros jid c Hc. discriminate.
Defined.

(** X6: for any number [n] of retained messages of one chat with distinct
    ids, handed to [pushMessage] one at a time with the queue draining in
    between, the window of the chat, empty before, holds the most recent
    ones in arrival order: all [n] of them up to twenty, and from the
    twenty-first on the last [15 + (n - 21) mod 6], so always between
    fifteen and twenty.  The chat is not the status broadcast and no
    message quotes a message of the chat itself. *)
Theorem window_keeps_most_recent
    (lid : option string) (areJidsSameUser : string -> string -> bool)
    (groupMetadata : PushMessage.WAMessage -> string ->
                     option Bind.GroupMetadata)
    (chat : string) (ms : list PushMessage.WAMessage) (st : Bind.Store) :
  Jid.isStatusJid chat = false ->
  Forall (PushTask.plain lid areJidsSameUser chat) ms ->
  List.NoDup (map PushMessage.id_of ms) ->
  PushTask.window chat st = [] ->
  let n := length ms in
  let kept := (if (n <=? 20)%nat then n else 15 + (n - 21) mod 6)%nat in
  PushTask.window chat
    (PushTask.memoryStore
       (PushTask.deliver_all lid areJidsSameUser groupMetadata ms
          (PushTask.mkConn MessageQueue.new st)))
  = map PushMessage.entry (skipn (n - kept) ms)
  /\ (kept <= 20)%nat
  /\ ((15 <= n)%nat -> (15 <= kept)%nat).
Proof.
  intros Hs Hp Hnd H0 n kept.
  pose proof (window_size_closed n) as Hc. fold kept in Hc.
  split; [|split].
  - rewrite <- Hc, deliver_all_new. cbn [PushTask.memoryStore].
    exact (alone_all_window lid areJidsSameUser groupMetadata chat ms st
             Hs Hp Hnd H0).
  - rewrite <- Hc. apply window_size_cap.
  - intros Hn. unfold kept. destruct (Nat.leb_spec n 20); lia.
Qed.

Lemma window_keeps_most_recent_witness :
  PushTask.window "628123456789@s.whatsapp.net"
    (PushTask.memoryStore
       (PushTask.deliver_all None (fun _ _ => false) (fun _ _ => None)
          PushMessage.inbound25
          (PushTask.mkConn MessageQueue.new MemoryStore.new)))
  = map PushMessage.entry (skipn (25 - 19) PushMessage.inbound25).
Proof.
  assert (Hp : Forall (PushTask.plain None (fun _ _ => false)
                         "628123456789@s.whatsapp.net")
                 PushMessage.inbound25).
  { repeat constructor; discriminate. }
  assert (Hnd : List.NoDup (map PushMessage.id_of PushMessage.inbound25)).
  { apply NoDup_ListNoDup, (bool_decide_unpack _). vm_compute. exact I. }
  exact (proj1 (window_keeps_most_recent None (fun _ _ => false)
                  (fun _ _ => None) "628123456789@s.whatsapp.net"
                  PushMessage.inbound25 MemoryStore.new eq_refl Hp Hnd
                  eq_refl)).
Defined.

(** X7: messages of one chat that quote messages of another chat [q]
    under distinct stanza ids, handed to [pushMessage] one at a time with
    the queue draining in between, the cache of [q] being empty before,
    leave the most recent quotations in the cache of [q], in arrival
    order: all [n] of them up to thirty, and from the thirty-first on the
    last [20 + (n - 31) mod 11], so never more than thirty (thirty-five
    leave twenty-four). *)
Theorem quoted_cache_keeps_most_recent
    (lid : option string) (areJidsSameUser : string -> string -> bool)
    (groupMetadata : PushMessage.WAMessage -> string ->
                     option Bind.GroupMetadata)
    (q chat : string) (ms : list PushMessage.WAMessage) (st : Bind.Store) :
  Jid.isStatusJid chat = false ->
  q <> chat ->
  PushTask.window q st = [] ->
  Forall (PushTask.quotes q chat) ms ->
  List.NoDup (map PushTask.stanza_of ms) ->
  let n := length ms in
  let kept := (if (n <=? 30)%nat then n else 20 + (n - 31) mod 11)%nat in
  let st' :=
    PushTask.memoryStore
      (PushTask.deliver_all lid areJidsSameUser groupMetadata ms
         (PushTask.mkConn MessageQueue.new st)) in
  PushTask.window q st'
  = map (fun m => QuotedCache.qentry lid areJidsSameUser q
                    (PushTask.context_of m))
      (skipn (n - kept) ms)
  /\ (kept <= 30)%nat
  /\ (n = 35%nat -> length (PushTask.window q st') = 24%nat).
Proof.
  intros Hs Hne H0 Hq Hnd n kept st'.
  pose proof (quoted_size_closed n) as Hc. fold kept in Hc.
  assert (Hw : PushTask.window q st'
               = map (fun m => QuotedCache.qentry lid areJidsSameUser q
                                 (PushTask.context_of m))
                   (skipn (n - kept) ms)).
  { unfold st'. rewrite <- Hc, deliver_all_new. cbn [PushTask.memoryStore].
    exact (alone_all_quoted lid areJidsSameUser groupMetadata q chat ms st
             Hs Hne H0 Hq Hnd). }
  split; [exact Hw|]. split.
  - unfold kept. destruct (Nat.leb_spec n 30); [lia|].
    pose proof (Nat.mod_upper_bound (n - 31) 11 ltac:(lia)). lia.
  - intros Hn. rewrite Hw, length_map, length_skipn. fold n.
    unfold kept. rewrite Hn. reflexivity.
Qed.

Lemma quoted_cache_keeps_most_recent_witness :
  let q := "628123456789@s.whatsapp.net" in
  let st' :=
    PushTask.memoryStore
      (PushTask.deliver_all None (fun _ _ => false) (fun _ _ => None)
         PushTask.replies35
         (PushTask.mkConn MessageQueue.new MemoryStore.new)) in
  length (PushTask.window q st') = 24%nat.
Proof.
  intros q st'.
  assert (Hq : Forall (PushTask.quotes q "628111111111@s.whatsapp.net")
                 PushTask.replies35).
  { unfold PushTask.replies35. apply List.Forall_forall. intros x Hx.
    apply in_map_iff in Hx as (n & <- & Hn). apply in_seq in Hn.
    do 35 (destruct n as [|n]; [vm_compute; repeat split|]). lia. }
  assert (Hnd : List.NoDup (map PushTask.stanza_of PushTask.replies35)).
  { apply NoDup_ListNoDup, (bool_decide_unpack _). vm_compute. exact I. }
  destruct (quoted_cache_keeps_most_recent None (fun _ _ => false)
              (fun _ _ => None) q "628111111111@s.whatsapp.net"
              PushTask.replies35 MemoryStore.new eq_refl
              ltac:(discriminate) eq_refl Hq Hnd) as (_ & _ & H).
  exact (H eq_refl).
Defined.

Section ReplayFacts.
Import JsString PushMessage Bind QuotedCache PushTask.
Variable lid : option string.
Variable areJidsSameUser : string -> string -> bool.
Variable groupMetadata : WAMessage -> string -> option GroupMetadata.

Local Abbreviation alone := (PushTask.alone lid areJidsSameUser groupMetadata).

Lemma name_of_twice (m : WAMessage) (name : option string) :
  name_of m (Some (name_of m name)) = name_of m name.
Proof.
  unfold name_of, or_else.
  destruct (truthy_opt (pushName m)) eqn:Hp; [reflexivity|].
  destruct (truthy_opt name) eqn:Hn.
  - destruct name as [n|]; [|discriminate]. cbn [default truthy_opt] in *.
    unfold Datatypes.id. now rewrite Hn.
  - reflexivity.
Qed.

Lemma obj_replace_length {V : Type} (k : string) (v : V) (o : JsObject.t V) :
  length (JsObject.replace k v o) = length o.
Proof.
  rewrite <- !obj_keys_length. now rewrite obj_keys_replace.
Qed.

(** What an assignment under a key that is not an array index does. *)
Lemma obj_set_other {V : Type} (k : string) (v : V) (o : JsObject.t V) :
  JsObject.array_index k = None ->
  k <> "__proto__" ->
  JsObject.set k v o
  = if JsObject.has k o then JsObject.replace k v o else (o ++ [(k, v)])%list.
Proof.
  intros Hi Hp. unfold JsObject.set. apply String.eqb_neq in Hp.
  now rewrite Hp, Hi.
Qed.

Lemma obj_fresh_not_first {V : Type} (n : nat) (k : string) (v : V)
    (o : JsObject.t V) :
  JsObject.has k o = false ->
  (n <= length o)%nat ->
  ~ In k (firstn n (JsObject.keys (o ++ [(k, v)])%list)).
Proof.
  intros Hh Hn Hin. apply obj_has_false_not_in in Hh. apply Hh.
  unfold JsObject.keys in *. rewrite map_app, firstn_app in Hin.
  rewrite length_map in Hin.
  replace (n - length o)%nat with 0%nat in Hin by lia.
  cbn [firstn] in Hin. rewrite app_nil_r in Hin.
  rewrite <- (firstn_skipn n (map fst o)). apply in_or_app. now left.
Qed.

(** Filing a message a second time under an id that is not an array
    index changes nothing, in a window of at most twenty. *)
Lemma window_insert_twice (id : string) (v : WAMessage)
    (w : JsObject.t WAMessage) :
  JsObject.array_index id = None ->
  (length w <= 20)%nat ->
  window_insert id v (window_insert id v w) = window_insert id v w.
Proof.
  intros Hi Hlen.
  destruct (String.eqb_spec id "__proto__") as [->|Hp].
  - assert (E : forall o : JsObject.t WAMessage,
              (length o <= 20)%nat -> window_insert "__proto__" v o = o).
    { intros o Ho. rewrite window_insert_small; [reflexivity|exact Ho]. }
    rewrite (E w Hlen). now apply E.
  - assert (Hsame : forall o : JsObject.t WAMessage,
              JsObject.get id o = Some v -> (length o <= 20)%nat ->
              window_insert id v o = o).
    { intros o Hg Ho. rewrite window_insert_small; rewrite obj_set_same;
        auto. }
    apply Hsame; [|apply window_insert_length].
    unfold window_insert. rewrite obj_keys_length.
    rewrite (obj_set_other id v w Hi Hp).
    destruct (JsObject.has id w) eqn:Hh.
    + rewrite obj_replace_length.
      destruct (Nat.ltb_spec 20 (length w)); [lia|].
      now apply obj_get_replace.
    + assert (Hg : JsObject.get id (w ++ [(id, v)])%list = Some v).
      { apply obj_get_app_fresh. now apply obj_has_false_not_in. }
      destruct (Nat.ltb_spec 20 (length (w ++ [(id, v)])%list)) as [Hb|Hs];
        [|exact Hg].
      rewrite obj_get_delete_first; [exact Hg|].
      apply obj_fresh_not_first; [exact Hh|].
      rewrite length_app. cbn [length]. lia.
Qed.

(** A quotation that has been cached under a stanza id that is not an
    array index is found there. *)
Lemma quoted_insert_present (id : string) (v : WAMessage)
    (w : JsObject.t WAMessage) :
  JsObject.array_index id = None ->
  present id w = false ->
  present id (quoted_insert id v w) = true.
Proof.
  intros Hi Hp. unfold present in *.
  apply orb_false_elim in Hp as [Hh Hinh].
  assert (Hproto : id <> "__proto__").
  { intros ->. discriminate. }
  apply orb_true_intro. left. unfold JsObject.has, quoted_insert.
  rewrite obj_keys_length, (obj_set_other id v w Hi Hproto), Hh.
  assert (Hg : JsObject.get id (w ++ [(id, v)])%list = Some v).
  { apply obj_get_app_fresh. now apply obj_has_false_not_in. }
  destruct (Nat.ltb_spec 30 (length (w ++ [(id, v)])%list)) as [Hb|Hs].
  - rewrite obj_get_delete_first; [now rewrite Hg|].
    apply obj_fresh_not_first; [exact Hh|].
    rewrite length_app. cbn [length]. lia.
  - now rewrite Hg.
Qed.

Lemma data_setChat_same (jid : string) (c : Chat) (st : Store) :
  getChat jid st = Some c ->
  MemoryStore.data (setChat jid c st) = MemoryStore.data st.
Proof.
  unfold getChat, setChat, MemoryStore.get, MemoryStore.atomicSet.
  cbn [MemoryStore.data]. intros H. apply insert_id.
  destruct (MemoryStore.data st !! _) as [[c'|m|l]|]; try discriminate.
  now injection H as ->.
Qed.

Lemma sender_chat_ne (chat s : string) (m : WAMessage) :
  sender_chat lid chat m = Some s -> s <> chat.
Proof.
  unfold sender_chat. destruct (Jid.isGroupJid chat); [|discriminate].
  destruct (sender_of lid chat m) as [s'|]; [|discriminate].
  destruct (truthy s') eqn:Ht; cbn [andb]; [|discriminate].
  destruct (String.eqb_spec s' chat); cbn [negb]; [discriminate|].
  now intros [= <-].
Qed.

(** The chat entity the task writes back, from the one it has written
    back before. *)
Lemma chatData_alone_twice (chat : string) (m : WAMessage)
    (got : option Chat) :
  JsObject.array_index (id_of m) = None ->
  (length (default JsObject.empty (got ≫= chat_messages)) <= 20)%nat ->
  chatData_alone lid areJidsSameUser groupMetadata chat m
    (Some (chatData_alone lid areJidsSameUser groupMetadata chat m got))
  = chatData_alone lid areJidsSameUser groupMetadata chat m got.
Proof.
  intros Hi Hlen.
  pose proof (window_insert_twice (id_of m) (cleanMsg m) _ Hi Hlen) as Hw.
  unfold chatData_alone, stored, needs_metadata, fetched, named, id_of in *.
  cbn [default]. unfold Datatypes.id.
  destruct (retained lid areJidsSameUser chat m);
    destruct (key_id m) as [id|]; cbn [default] in Hw;
    destruct (Jid.isGroupJid chat); cbn [andb negb];
    destruct got as [[i t c u n w s md]|];
    cbn [default mbind option_bind chat_messages] in Hw |- *;
    unfold Datatypes.id in Hw |- *;
    try destruct md as [md|]; cbn [chat_metadata set_name set_messages];
    try destruct (groupMetadata m chat) as [md'|];
    cbn [set_metadata set_name set_messages chat_metadata chat_messages
         chat_name chat_id conversationTimestamp isChats unreadCount
         chat_subject default];
    unfold Datatypes.id;
    rewrite ?name_of_twice, ?Hw; reflexivity.
Qed.

Lemma alone_replay (chat : string) (m : WAMessage) (st : Store) :
  chat_of m = Some chat ->
  JsObject.array_index (id_of m) = None ->
  JsObject.array_index (stanza_of m) = None ->
  quoted_chat chat m <> Some chat ->
  (length (window chat st) <= 20)%nat ->
  MemoryStore.data (alone m (alone m st)) = MemoryStore.data (alone m st).
Proof.
  intros Hc Hi Hsi Hq Hlen.
  set (msgObj := default JsObject.empty (msg_message m)).
  assert (Hskip : forall st' : Store,
            mtype_of (JsObject.keys msgObj) = None
            \/ Jid.isStatusJid chat = true ->
            alone m st' = st').
  { intros st' H. unfold PushTask.alone.
    change (default JsObject.empty (msg_message m)) with msgObj. rewrite Hc.
    destruct (mtype_of (JsObject.keys msgObj)); [|reflexivity].
    destruct H as [H|H]; [discriminate|]. now rewrite H. }
  destruct (mtype_of (JsObject.keys msgObj)) as [mtype|] eqn:Ht;
    [|rewrite !Hskip by (now left); reflexivity].
  destruct (Jid.isStatusJid chat) eqn:Hs;
    [rewrite !Hskip by (now right); reflexivity|].
  set (Q := cache_quoted_alone lid areJidsSameUser chat msgObj mtype).
  set (S := update_sender_alone lid chat m).
  set (CD := chatData_alone lid areJidsSameUser groupMetadata chat m).
  assert (Hrun : forall st' : Store,
            alone m st' = setChat chat (CD (getChat chat st')) (S (Q st'))).
  { intros st'. unfold PushTask.alone.
    change (default JsObject.empty (msg_message m)) with msgObj.
    now rewrite Hc, Ht, Hs. }
  rewrite (Hrun (alone m st)), (Hrun st).
  set (st1 := setChat chat (CD (getChat chat st)) (S (Q st))).
  assert (Hg1 : getChat chat st1 = Some (CD (getChat chat st))).
  { unfold st1. apply getChat_setChat. }
  assert (Hother : forall jid, jid <> chat ->
            getChat jid st1 = getChat jid (S (Q st))).
  { intros jid Hne. unfold st1. now apply getChat_setChat_ne. }
  (* the quote block writes nothing the second time *)
  assert (HQ : Q st1 = st1).
  { unfold Q, cache_quoted_alone.
    destruct (quotation_of chat msgObj mtype) as [[[q id] ctx]|] eqn:Eq;
      [|reflexivity].
    assert (Hqc : quoted_chat chat m = Some q).
    { unfold quoted_chat.
      change (default JsObject.empty (msg_message m)) with msgObj.
      now rewrite Ht, Eq. }
    assert (Hne : q <> chat) by (intros ->; contradiction).
    destruct (quoted_chat_parts q chat m Hqc) as (mtype' & Ht' & Eq').
    change (default JsObject.empty (msg_message m)) with msgObj in Ht', Eq'.
    rewrite Ht in Ht'. injection Ht' as <-.
    rewrite Eq in Eq'. injection Eq' as -> ->.
    assert (Hpres : present (stanza_of m) (window q st1) = true).
    { unfold window. rewrite (Hother q Hne).
      fold (window q (S (Q st))). unfold S.
      rewrite update_sender_alone_window.
      unfold Q, cache_quoted_alone. rewrite Eq. unfold cached_quotation.
      set (qm := default _ (getChat q st)).
      assert (Hm : default JsObject.empty (chat_messages qm) = window q st).
      { unfold qm, window. destruct (getChat q st); reflexivity. }
      rewrite Hm.
      destruct (present (stanza_of m) (window q st)) eqn:Hp; [exact Hp|].
      unfold window at 1. rewrite getChat_setChat.
      cbn [mbind option_bind set_messages chat_messages default].
      now apply quoted_insert_present. }
    unfold cached_quotation.
    set (qm := default _ (getChat q st1)).
    assert (Hm : default JsObject.empty (chat_messages qm) = window q st1).
    { unfold qm, window. destruct (getChat q st1); reflexivity. }
    now rewrite Hm, Hpres. }
  rewrite HQ.
  (* the sender block writes what is there *)
  assert (HS : MemoryStore.data (S st1) = MemoryStore.data st1).
  { unfold S, update_sender_alone.
    destruct (sender_chat lid chat m) as [s|] eqn:Es; [|reflexivity].
    pose proof (sender_chat_ne chat s m Es) as Hne.
    apply data_setChat_same.
    rewrite (Hother s Hne). unfold S, update_sender_alone. rewrite Es.
    rewrite getChat_setChat. cbn [default]. unfold Datatypes.id.
    f_equal. unfold named, set_name. cbn [chat_name].
    now rewrite name_of_twice. }
  (* and so does the end of the task *)
  assert (HCD : CD (getChat chat st1) = CD (getChat chat st)).
  { rewrite Hg1. unfold CD. now apply chatData_alone_twice. }
  rewrite HCD.
  unfold setChat at 1, MemoryStore.atomicSet. cbn [MemoryStore.data].
  rewrite HS. apply insert_id.
  unfold getChat, MemoryStore.get in Hg1.
  destruct (MemoryStore.data st1 !! _) as [[c'|m'|l]|]; try discriminate.
  now injection Hg1 as ->.
Qed.

End ReplayFacts.

(** X5: a message handed to [pushMessage] a second time, as a replay of
    the event by the transport brings it, changes nothing in the store:
    the message and the quotation it carries are there already, under
    their keys, the names are the ones set before, and the metadata is
    fetched again only if it is still missing.  Each of the two calls is
    made with the queue empty and left to drain.  The message id and the
    stanza id of the quotation are no array indices, the message quotes no
    message of its own chat, the window of the chat held at most twenty
    messages before, and the fetch answers the second time as the first. *)
Theorem pushMessage_replay_idempotent
    (lid : option string) (areJidsSameUser : string -> string -> bool)
    (groupMetadata : PushMessage.WAMessage -> string ->
                     option Bind.GroupMetadata)
    (chat : string) (m : PushMessage.WAMessage) (st : Bind.Store) :
  PushTask.chat_of m = Some chat ->
  JsObject.array_index (PushMessage.id_of m) = None ->
  JsObject.array_index (PushTask.stanza_of m) = None ->
  PushTask.quoted_chat chat m <> Some chat ->
  (length (PushTask.window chat st) <= 20)%nat ->
  let once :=
    PushTask.deliver lid areJidsSameUser groupMetadata
      (PushTask.mkConn MessageQueue.new st) m in
  let twice := PushTask.deliver lid areJidsSameUser groupMetadata once m in
  MemoryStore.data (PushTask.memoryStore twice)
  = MemoryStore.data (PushTask.memoryStore once)
  /\ PushTask.messageQueue twice = MessageQueue.new.
Proof.
  intros Hc Hi Hsi Hq Hlen once twice. unfold twice, once.
  rewrite !deliver_new. cbn [PushTask.memoryStore PushTask.messageQueue].
  split; [|reflexivity]. now apply alone_replay with (chat := chat).
Qed.

Lemma pushMessage_replay_idempotent_witness :
  let chat := "628111111111@s.whatsapp.net" in
  let m := PushTask.reply chat "3EB001" "628123456789@s.whatsapp.net" "Q001" in
  let once :=
    PushTask.deliver None (fun _ _ => false) (fun _ _ => None)
      (PushTask.mkConn MessageQueue.new MemoryStore.new) m in
  let twice :=
    PushTask.deliver None (fun _ _ => false) (fun _ _ => None) once m in
  MemoryStore.data (PushTask.memoryStore twice)
  = MemoryStore.data (PushTask.memoryStore once).
Proof.
  intros chat m once twice.
  refine (proj1 (pushMessage_replay_idempotent None (fun _ _ => false)
                   (fun _ _ => None) chat m MemoryStore.new
                   eq_refl eq_refl eq_refl _ _)).
  - discriminate.
  - apply Nat.leb_le. reflexivity.
Defined.

(** ** The message queue *)

Section QueueFacts.
Context {T : Type}.
Implicit Types (q : MessageQueue.t T) (ts : list T).

Lemma queue_add_all_spec ts q :
  let '(q', scheduled) := MessageQueue.add_all ts q in
  MessageQueue.tasks q' = (MessageQueue.tasks q ++ ts)%list
  /\ MessageQueue.batchSize q' = MessageQueue.batchSize q
  /\ MessageQueue.running q'
     = (match ts with [] => MessageQueue.running q | _ => true end)
  /\ scheduled
     = match ts with
       | [] => []
       | _ :: ts' => negb (MessageQueue.running q) :: repeat false (length ts')
       end.
Proof.
  revert q. induction ts as [|task ts IH]; intros q.
  - cbn. rewrite app_nil_r. repeat split.
  - cbn [MessageQueue.add_all MessageQueue.add].
    specialize (IH (MessageQueue.mkQueue
                      (MessageQueue.tasks q ++ [task])%list true
                      (MessageQueue.batchSize q))).
    destruct (MessageQueue.add_all ts _) as [q2 rest].
    cbn [MessageQueue.tasks MessageQueue.batchSize MessageQueue.running] in IH.
    destruct IH as (H1 & H2 & H3 & H4).
    rewrite H1, H2, <- app_assoc. repeat split.
    + rewrite H3. now destruct ts.
    + rewrite H4. now destruct ts.
Qed.

(** The loop, given enough turns, on a queue with a batch size of at
    least one. *)
Lemma queue_process_loop_spec (fuel : nat) q :
  (1 <= MessageQueue.batchSize q)%nat ->
  (length (MessageQueue.tasks q) < fuel)%nat ->
  let '(batches, q') := MessageQueue.process_loop fuel q in
  concat batches = MessageQueue.tasks q
  /\ Forall (fun b => (1 <= length b <= MessageQueue.batchSize q)%nat) batches
  /\ Forall (fun b => length b = MessageQueue.batchSize q) (removelast batches)
  /\ MessageQueue.tasks q' = []
  /\ MessageQueue.running q' = false.
Proof.
  revert q. induction fuel as [|fuel IH]; intros q Hb Hlen; [lia|].
  cbn [MessageQueue.process_loop]. unfold MessageQueue.take_batch.
  destruct (MessageQueue.tasks q) as [|task ts] eqn:E.
  - cbn. repeat split; constructor.
  - set (bs := MessageQueue.batchSize q) in *.
    set (all := task :: ts) in *.
    assert (Hall : (1 <= length all)%nat) by (unfold all; cbn; lia).
    specialize (IH (MessageQueue.mkQueue (skipn bs all)
                      (MessageQueue.running q) bs)).
    cbn [MessageQueue.tasks MessageQueue.batchSize] in IH.
    assert (Hsk : (length (skipn bs all) < fuel)%nat).
    { rewrite length_skipn. lia. }
    specialize (IH Hb Hsk).
    destruct (MessageQueue.process_loop fuel _) as [batches q2].
    destruct IH as (H1 & H2 & H3 & H4 & H5).
    assert (Hfirst : (1 <= length (firstn bs all) <= bs)%nat).
    { rewrite length_firstn. lia. }
    repeat split; try assumption.
    + cbn [concat]. rewrite H1. apply firstn_skipn.
    + now constructor.
    + destruct batches as [|b batches]; [constructor|].
      cbn [removelast]. constructor; [|exact H3].
      (* a further batch exists, so the first one was full *)
      rewrite length_firstn. apply Forall_inv in H2.
      assert (Hne : (1 <= length (skipn bs all))%nat).
      { rewrite <- H1. cbn [concat]. rewrite length_app. lia. }
      rewrite length_skipn in Hne. lia.
Qed.

End QueueFacts.

(** X8: [process] on a queue filled by any run of [add] calls runs every
    task exactly once and in the order of the calls, in batches of at most
    ten: every batch but the last holds exactly ten tasks, no batch is
    empty, and the queue is left empty and dormant. *)
Theorem queue_process_batches (T : Type) (ts : list T) :
  let q := fst (MessageQueue.add_all ts MessageQueue.new) in
  let '(batches, q') := MessageQueue.process q in
  concat batches = ts
  /\ Forall (fun b => (1 <= length b <= 10)%nat) batches
  /\ Forall (fun b => length b = 10%nat) (removelast batches)
  /\ MessageQueue.tasks q' = []
  /\ MessageQueue.running q' = false.
Proof.
  intros q.
  pose proof (queue_add_all_spec ts (@MessageQueue.new T)) as Ha.
  unfold q. destruct (MessageQueue.add_all ts MessageQueue.new) as [q0 sch].
  cbn [fst]. destruct Ha as (Ht & Hb & _ & _). cbn in Ht, Hb.
  pose proof (queue_process_loop_spec (S (length (MessageQueue.tasks q0))) q0)
    as Hp.
  unfold MessageQueue.process.
  destruct (MessageQueue.process_loop _ q0) as [batches q'].
  rewrite Hb, Ht in Hp. apply Hp; lia.
Qed.

(** X9: of the [add] calls made on a dormant queue before it is drained,
    only the first schedules [process]; the others find the queue running
    and only append their task. *)
Theorem queue_add_schedules_once (T : Type) (task : T) (ts : list T) :
  snd (MessageQueue.add_all (task :: ts) MessageQueue.new)
  = true :: repeat false (length ts)
  /\ MessageQueue.tasks (fst (MessageQueue.add_all (task :: ts) MessageQueue.new))
     = task :: ts
  /\ MessageQueue.running
       (fst (MessageQueue.add_all (task :: ts) MessageQueue.new))
     = true.
Proof.
  pose proof (queue_add_all_spec (task :: ts) (@MessageQueue.new T)) as H.
  destruct (MessageQueue.add_all (task :: ts) MessageQueue.new) as [q sch].
  destruct H as (H1 & _ & H3 & H4). cbn [fst snd]. now rewrite H1, H3, H4.
Qed.

(** ** The store bindings, continued *)

Section StoreFacts.
Import JsString PushMessage Bind BindMore.

(** A pattern that ends in a star matches every string that starts with
    what is before the star. *)
Lemma glob_star_all (s : string) : MemoryStore.glob "*" s = true.
Proof.
  cbn [MemoryStore.glob]. rewrite Ascii.eqb_refl.
  induction s as [|c s IH]; [reflexivity|].
  rewrite IH. apply orb_true_r.
Qed.

Lemma glob_prefix (a s : string) : MemoryStore.glob (a ++ "*") (a ++ s) = true.
Proof.
  induction a as [|c a IH].
  - apply glob_star_all.
  - change (String c a ++ "*") with (String c (a ++ "*")).
    change (String c a ++ s) with (String c (a ++ s)).
    cbn [MemoryStore.glob]. destruct (Ascii.eqb c "*") eqn:E.
    + (* the star of the pattern takes the first character *)
      assert (H : forall u,
                 MemoryStore.glob (a ++ "*") u = true ->
                 (fix any (u : string) : bool :=
                    MemoryStore.glob (a ++ "*") u
                    || match u with
                       | EmptyString => false
                       | String _ u' => any u'
                       end) u = true).
      { intros u Hu. destruct u; now rewrite Hu. }
      assert (H' : (fix any (u : string) : bool :=
                      MemoryStore.glob (a ++ "*") u
                      || match u with
                         | EmptyString => false
                         | String _ u' => any u'
                         end) (a ++ s) = true) by now apply H.
      now rewrite H', orb_true_r.
    + now rewrite Ascii.eqb_refl, IH.
Qed.

Lemma store_keys_In (pattern key : string) (st : Store) :
  In key (MemoryStore.keys pattern st)
  <-> MemoryStore.glob pattern key = true
      /\ is_Some (MemoryStore.data st !! key).
Proof.
  unfold MemoryStore.keys. rewrite filter_In, in_map_iff. split.
  - intros [((k & v) & <- & Hin) Hg]. split; [exact Hg|].
    apply list_elem_of_In, elem_of_map_to_list in Hin. cbn. eauto.
  - intros [Hg [v Hv]]. split; [|exact Hg].
    exists (key, v). split; [reflexivity|].
    now apply list_elem_of_In, elem_of_map_to_list.
Qed.

Lemma store_fold_del (ks : list string) (st : Store) (key : string) :
  MemoryStore.data (fold_left (fun s k => MemoryStore.del k s) ks st) !! key
  = if decide (key ∈ ks) then None else MemoryStore.data st !! key.
Proof.
  revert st. induction ks as [|k ks IH]; intros st; cbn [fold_left].
  - destruct (decide (key ∈ [])) as [H|]; [|reflexivity].
    now apply elem_of_nil in H.
  - rewrite IH. cbn [MemoryStore.del MemoryStore.data].
    destruct (decide (key ∈ ks)) as [Hin|Hnin].
    + destruct (decide (key ∈ k :: ks)) as [|Hn]; [reflexivity|].
      exfalso. apply Hn. apply elem_of_cons. now right.
    + destruct (decide (key = k)) as [->|Hne].
      * rewrite lookup_delete_eq.
        destruct (decide (k ∈ k :: ks)) as [|Hn]; [reflexivity|].
        exfalso. apply Hn. apply elem_of_cons. now left.
      * rewrite lookup_delete_ne by congruence.
        destruct (decide (key ∈ k :: ks)) as [Hin|]; [|reflexivity].
        apply elem_of_cons in Hin as [E|Hin]; [congruence|contradiction].
Qed.

Lemma string_app_assoc (a b c : string) : (a ++ b) ++ c = a ++ (b ++ c).
Proof.
  induction a as [|x a IH]; [reflexivity|].
  change (String x a ++ b) with (String x (a ++ b)).
  change (String x (a ++ b) ++ c) with (String x ((a ++ b) ++ c)).
  now rewrite IH.
Qed.

Lemma message_key_matches (id messageId : string) :
  MemoryStore.glob (REDIS_MESSAGE_PREFIX ++ id ++ ":*")
    (REDIS_MESSAGE_PREFIX ++ id ++ ":" ++ messageId) = true.
Proof.
  pose proof (glob_prefix (REDIS_MESSAGE_PREFIX ++ id ++ ":") messageId) as H.
  rewrite !string_app_assoc in H. exact H.
Qed.

(** What [chats.delete] leaves under a key, for one deleted id. *)
Lemma chats_delete_one_lookup (st : Store) (id key : string) :
  MemoryStore.data (chats_delete_one st id) !! key
  = if decide (key = REDIS_PREFIX ++ id) then None
    else if MemoryStore.glob (REDIS_MESSAGE_PREFIX ++ id ++ ":*") key
    then None
    else MemoryStore.data st !! key.
Proof.
  unfold chats_delete_one. rewrite store_fold_del.
  set (st1 := deleteChat id st).
  assert (Hst1 : forall k, MemoryStore.data st1 !! k
                      = if decide (k = REDIS_PREFIX ++ id) then None
                        else MemoryStore.data st !! k).
  { intros k. unfold st1, deleteChat, MemoryStore.del. cbn.
    destruct (decide (k = REDIS_PREFIX ++ id)) as [->|Hne].
    - apply lookup_delete_eq.
    - now apply lookup_delete_ne. }
  destruct (decide (key ∈ MemoryStore.keys _ st1)) as [Hin|Hnin].
  - apply list_elem_of_In, store_keys_In in Hin as [Hg _]. rewrite Hg.
    destruct (decide (key = REDIS_PREFIX ++ id)); reflexivity.
  - rewrite Hst1. destruct (decide (key = REDIS_PREFIX ++ id)); [reflexivity|].
    destruct (MemoryStore.glob _ key) eqn:Hg; [|reflexivity].
    destruct (MemoryStore.data st !! key) as [v|] eqn:Hv; [|reflexivity].
    exfalso. apply Hnin, list_elem_of_In, store_keys_In. split; [exact Hg|].
    rewrite Hst1. destruct (decide (key = REDIS_PREFIX ++ id)); [contradiction|].
    rewrite Hv. eauto.
Qed.

Lemma merge_chat_twice (existing update : Chat) :
  merge_chat (merge_chat existing update) update = merge_chat existing update.
Proof.
  destruct existing, update. unfold merge_chat. cbn.
  repeat match goal with
         | |- context [match ?x with Some _ => _ | None => _ end] =>
             destruct x
         end; reflexivity.
Qed.

End StoreFacts.

(** X10: the [chats.delete] handler, for one deleted id, removes the chat
    entity and every message entity filed under that id, and leaves every
    other key that does not match the pattern [o3din:message:<id>:*] as it
    was. *)
Theorem chats_delete_removes_chat_and_messages (st : Bind.Store) (id : string) :
  let st' := Bind.chats_delete [id] st in
  Bind.getChat id st' = None
  /\ (forall messageId : string, Bind.getMessage id messageId st' = None)
  /\ (forall key : string,
        key <> Bind.REDIS_PREFIX ++ id ->
        MemoryStore.glob (Bind.REDIS_MESSAGE_PREFIX ++ id ++ ":*") key = false ->
        MemoryStore.get key st' = MemoryStore.get key st).
Proof.
  intros st'.
  assert (E : forall key,
             MemoryStore.get key st'
             = if decide (key = Bind.REDIS_PREFIX ++ id) then None
               else if MemoryStore.glob
                         (Bind.REDIS_MESSAGE_PREFIX ++ id ++ ":*") key
               then None
               else MemoryStore.get key st).
  { intros key. unfold st', Bind.chats_delete, MemoryStore.get.
    cbn [fold_left]. now rewrite chats_delete_one_lookup. }
  split; [|split].
  - unfold Bind.getChat. rewrite E.
    destruct (decide _) as [|Hn]; [reflexivity|]. now exfalso.
  - intros messageId. unfold Bind.getMessage. rewrite E.
    rewrite message_key_matches. now destruct (decide _).
  - intros key Hk Hg. rewrite E, Hg.
    destruct (decide _) as [|_]; [contradiction|reflexivity].
Qed.

(** X11: a [chats.update] whose id carries a device suffix is filed under
    the id without the suffix: the entity under [u@rest] becomes the merge
    of what was there (or [{ id }]) with the update, whose own attributes
    win, the raw id among them. *)
Theorem chats_update_lands_on_canonical_key
    (st : Bind.Store) (update : Bind.Chat) (u d rest : string) :
  JsString.includes_char ":" u = false ->
  JsString.includes_char ":" rest = false ->
  JsString.test_numeric d = true ->
  u ++ "@" ++ rest <> "status@broadcast" ->
  Bind.chat_id update = Some (u ++ ":" ++ d ++ "@" ++ rest) ->
  let canonical := u ++ "@" ++ rest in
  let before :=
    default (Bind.chat_of_id canonical) (Bind.getChat canonical st) in
  let st' := Bind.chats_update [update] st in
  Bind.getChat canonical st' = Some (Bind.merge_chat before update)
  /\ Bind.chat_id (Bind.merge_chat before update)
     = Some (u ++ ":" ++ d ++ "@" ++ rest).
Proof.
  intros Hu Hr Hd Hs Hid canonical before st'.
  unfold st', Bind.chats_update. cbn [fold_left].
  unfold Bind.chats_update_one. rewrite Hid. cbn [Jid.decodeJid_opt].
  rewrite (decodeJid_with_device u d rest Hu Hd). fold canonical.
  assert (Ht : JsString.truthy canonical = true).
  { unfold canonical. now apply truthy_app_r. }
  apply String.eqb_neq in Hs. fold canonical in Hs. rewrite Ht, Hs.
  cbn [negb orb]. rewrite getChat_enqueueEvent. fold before.
  split; [apply getChat_setChat|].
  unfold Bind.merge_chat. now rewrite Hid.
Qed.

Lemma chats_update_lands_on_canonical_key_witness :
  let update :=
    Bind.mkChat (Some "628123456789:7@s.whatsapp.net") None None (Some 3%Z)
      None None in
  Bind.getChat "628123456789@s.whatsapp.net"
    (Bind.chats_update [update] MemoryStore.new)
  = Some update.
Proof.
  intros update.
  exact (proj1 (chats_update_lands_on_canonical_key MemoryStore.new update
                  "628123456789" "7" "s.whatsapp.net"
                  eq_refl eq_refl eq_refl ltac:(discriminate) eq_refl)).
Defined.

(** X12: replaying a [chats.update] event that carries one update leaves
    the contents of the store as the first delivery left them. *)
Theorem chats_update_replay_idempotent (st : Bind.Store) (update : Bind.Chat) :
  MemoryStore.data (Bind.chats_update [update] (Bind.chats_update [update] st))
  = MemoryStore.data (Bind.chats_update [update] st).
Proof.
  unfold Bind.chats_update. cbn [fold_left]. unfold Bind.chats_update_one.
  destruct (Jid.decodeJid_opt (Bind.chat_id update)) as [id|]; [|reflexivity].
  destruct (negb (JsString.truthy id) || String.eqb id "status@broadcast");
    [reflexivity|].
  rewrite !getChat_enqueueEvent, getChat_setChat. cbn [default].
  unfold Datatypes.id. rewrite merge_chat_twice.
  unfold Bind.setChat, MemoryStore.atomicSet, MemoryStore.enqueueEvent.
  cbn [MemoryStore.data]. apply insert_insert_eq.
Qed.

Section HandlerFacts.
Import JsString PushMessage Bind BindMore.

Lemma slice_from_length {A : Type} (limit : Z) (l : list A) :
  (1 <= limit)%Z ->
  (Z.of_nat (length (slice_from (- limit) l)) <= limit)%Z.
Proof.
  intros H. unfold slice_from. rewrite length_skipn.
  destruct (Z.ltb_spec (- limit) 0); lia.
Qed.

Lemma slice_from_zero {A : Type} (l : list A) : slice_from (- 0) l = l.
Proof. unfold slice_from. cbn. now destruct (length l). Qed.

Lemma filter_add_all (blocklist existing : list string) :
  List.filter (fun jid => negb (includes blocklist jid))
    (add_all blocklist existing)
  = List.filter (fun jid => negb (includes blocklist jid)) existing.
Proof.
  unfold add_all.
  assert (G : forall (l bl ex : list string),
             (forall x, In x bl -> In x l) ->
             List.filter (fun jid => negb (includes l jid))
               (fold_left
                  (fun ex jid =>
                     if includes ex jid then ex else (ex ++ [jid])%list)
                  bl ex)
             = List.filter (fun jid => negb (includes l jid)) ex).
  { intros l bl. induction bl as [|j bl IH]; intros ex Hsub; [reflexivity|].
    cbn [fold_left]. rewrite IH by (intros x Hx; apply Hsub; now right).
    destruct (includes ex j); [reflexivity|].
    rewrite List.filter_app. cbn [List.filter].
    assert (E : includes l j = true) by (apply includes_In, Hsub; now left).
    rewrite E. cbn. apply app_nil_r. }
  now apply G.
Qed.

Lemma filter_absent (blocklist existing : list string) :
  (forall x, In x blocklist -> ~ In x existing) ->
  List.filter (fun jid => negb (includes blocklist jid)) existing = existing.
Proof.
  intros H. induction existing as [|e ex IH]; [reflexivity|].
  cbn [List.filter]. destruct (includes blocklist e) eqn:E.
  - apply includes_In in E. exfalso. apply (H e E). now left.
  - cbn [negb]. f_equal. apply IH. intros x Hx Hin. apply (H x Hx). now right.
Qed.

End HandlerFacts.

(** X13: the [messages.upsert] handler counts a replay: a message that is
    not self-sent and is delivered twice is stored once, under the same
    key, and raises the chat's unread counter by two. *)
Theorem messages_upsert_replay_counts_twice
    (st : Bind.Store) (msg : PushMessage.WAMessage)
    (chatId messageId : string) :
  PushMessage.key_remoteJid msg = Some chatId ->
  PushMessage.key_id msg = Some messageId ->
  JsString.truthy chatId = true ->
  JsString.truthy messageId = true ->
  chatId <> "status@broadcast" ->
  PushMessage.key_fromMe msg = false ->
  let before := default (Bind.chat_of_id chatId) (Bind.getChat chatId st) in
  let st1 := Bind.messages_upsert [msg] st in
  let st2 := Bind.messages_upsert [msg] st1 in
  Bind.getMessage chatId messageId st1 = Some msg
  /\ Bind.getMessage chatId messageId st2 = Some msg
  /\ (Bind.unreadCount <$> Bind.getChat chatId st1)
     = Some (Some (Bind.bump_unread (Bind.unreadCount before)))
  /\ (Bind.unreadCount <$> Bind.getChat chatId st2)
     = Some (Some (Bind.bump_unread (Bind.unreadCount before) + 1)%Z).
Proof.
  intros Hc Hi Tc Ti Hs Hf before st1 st2.
  assert (E : forall s,
             Bind.messages_upsert [msg] s
             = Bind.messages_upsert_one
                 (MemoryStore.enqueueEvent "messages.upsert" MemoryStore.CORE s)
                 msg) by reflexivity.
  unfold st2, st1. rewrite !E.
  rewrite !(messages_upsert_one_unfold _ msg chatId messageId) by assumption.
  rewrite Hf. rewrite !getMessage_setChat, !getMessage_setMessage.
  rewrite !getChat_enqueueEvent, !getChat_setChat. fold before.
  repeat split.
Qed.

Lemma messages_upsert_replay_counts_twice_witness :
  let msg := PushMessage.inbound "628123456789@s.whatsapp.net" "3EB001" in
  let st2 :=
    Bind.messages_upsert [msg] (Bind.messages_upsert [msg] MemoryStore.new) in
  (Bind.unreadCount <$> Bind.getChat "628123456789@s.whatsapp.net" st2)
  = Some (Some 2%Z).
Proof.
  intros msg st2.
  exact (proj2 (proj2 (proj2
           (messages_upsert_replay_counts_twice MemoryStore.new msg
              "628123456789@s.whatsapp.net" "3EB001"
              eq_refl eq_refl eq_refl eq_refl ltac:(discriminate) eq_refl)))).
Defined.

(** X14: removing the identifiers that were just added gives the list
    held before without those identifiers, in its order: whatever the
    store holds, [update(add = l)] followed by [update(remove = l)] reads
    back as the prior list filtered by [l]. *)
Theorem blocklist_remove_after_add (st : Bind.Store) (l : list string) :
  Bind.getBlocklist
    (Bind.blocklist_update l "remove" (Bind.blocklist_update l "add" st))
  = List.filter (fun jid => negb (Bind.includes l jid)) (Bind.getBlocklist st).
Proof. rewrite getBlocklist_remove, getBlocklist_add. apply filter_add_all. Qed.

(** X15: an update that has nothing to do leaves the list as it is:
    adding identifiers that are all on the list, removing identifiers none
    of which is on it, or an update of an unknown type. *)
Theorem blocklist_update_noop (st : Bind.Store) (l : list string) :
  ((forall x, In x l -> In x (Bind.getBlocklist st)) ->
   Bind.getBlocklist (Bind.blocklist_update l "add" st) = Bind.getBlocklist st)
  /\ ((forall x, In x l -> ~ In x (Bind.getBlocklist st)) ->
      Bind.getBlocklist (Bind.blocklist_update l "remove" st)
      = Bind.getBlocklist st)
  /\ (forall type : string,
        type <> "add" -> type <> "remove" ->
        Bind.getBlocklist (Bind.blocklist_update l type st)
        = Bind.getBlocklist st).
Proof.
  split; [|split].
  - intros H. rewrite getBlocklist_add. now apply add_all_present.
  - intros H. rewrite getBlocklist_remove. now apply filter_absent.
  - intros type Ha Hr. unfold Bind.blocklist_update.
    apply String.eqb_neq in Ha, Hr. rewrite Ha, Hr.
    apply getBlocklist_setBlocklist.
Qed.

(** X16: [getChatMessages] returns at most [limit] entities for a limit of
    at least one; with a limit of zero it does not return an empty list
    but every message entity of the chat, since the slice then starts at
    [-0]. *)
Theorem getChatMessages_limit (st : Bind.Store) (chatId : string) :
  (forall limit : Z,
     (1 <= limit)%Z ->
     (Z.of_nat (length (BindMore.getChatMessages chatId limit st)) <= limit)%Z)
  /\ BindMore.getChatMessages chatId 0 st
     = omap (fun m => m)
         (MemoryStore.mget
            (MemoryStore.keys (Bind.REDIS_MESSAGE_PREFIX ++ chatId ++ ":*") st)
            st)
  /\ forall messageId : string,
       is_Some (Bind.getMessage chatId messageId st) ->
       exists m,
         Bind.getMessage chatId messageId st = Some m
         /\ In (Bind.EMessage m) (BindMore.getChatMessages chatId 0 st).
Proof.
  split; [|split].
  - intros limit H. unfold BindMore.getChatMessages.
    now apply slice_from_length.
  - unfold BindMore.getChatMessages. apply slice_from_zero.
  - intros messageId [m Hm]. exists m. split; [exact Hm|].
    unfold BindMore.getChatMessages. rewrite slice_from_zero.
    unfold Bind.getMessage, MemoryStore.get in Hm.
    destruct (MemoryStore.data st !! _) as [[c|m'|l]|] eqn:E;
      try discriminate.
    injection Hm as ->.
    apply list_elem_of_In, list_elem_of_omap.
    exists (Some (Bind.EMessage m)). split; [|reflexivity].
    unfold MemoryStore.mget. apply list_elem_of_In, in_map_iff.
    exists (Bind.REDIS_MESSAGE_PREFIX ++ chatId ++ ":" ++ messageId).
    split; [exact E|]. apply store_keys_In.
    split; [apply message_key_matches|]. rewrite E. eauto.
Qed.

(** X17: [messages.delete] removes the addressed message entity and
    nothing else: the chat entity keeps the timestamp and the unread count
    the message gave it, and every other key is as it was. *)
Theorem messages_delete_no_cascade
    (st : Bind.Store) (chatId messageId : string) :
  JsString.truthy chatId = true ->
  JsString.truthy messageId = true ->
  let st' :=
    BindMore.messages_delete
      (Some [BindMore.mkMessageKey (Some chatId) (Some messageId)]) st in
  Bind.getMessage chatId messageId st' = None
  /\ (forall jid : string, Bind.getChat jid st' = Bind.getChat jid st)
  /\ (forall key : string,
        key <> Bind.REDIS_MESSAGE_PREFIX ++ chatId ++ ":" ++ messageId ->
        MemoryStore.get key st' = MemoryStore.get key st).
Proof.
  intros Tc Ti st'.
  assert (E : MemoryStore.data st'
              = base.delete
                  (Bind.REDIS_MESSAGE_PREFIX ++ chatId ++ ":" ++ messageId)
                  (MemoryStore.data st)).
  { unfold st', BindMore.messages_delete. cbn [fold_left].
    unfold BindMore.messages_delete_one. cbn. now rewrite Tc, Ti. }
  split; [|split].
  - unfold Bind.getMessage, MemoryStore.get. rewrite E.
    now rewrite lookup_delete_eq.
  - intros jid. unfold Bind.getChat, MemoryStore.get. rewrite E.
    rewrite lookup_delete_ne; [reflexivity|].
    intros H. symmetry in H. revert H. apply chat_key_not_message_key.
  - intros key Hk. unfold MemoryStore.get. rewrite E.
    now rewrite lookup_delete_ne by congruence.
Qed.

Lemma messages_delete_no_cascade_witness :
  let chat := "628123456789@s.whatsapp.net" in
  let st :=
    Bind.messages_upsert [PushMessage.inbound chat "3EB001"] MemoryStore.new in
  let st' :=
    BindMore.messages_delete
      (Some [BindMore.mkMessageKey (Some chat) (Some "3EB001")]) st in
  Bind.getMessage chat "3EB001" st' = None
  /\ Bind.getChat chat st' = Bind.getChat chat st.
Proof.
  intros chat st st'.
  destruct (messages_delete_no_cascade st chat "3EB001" eq_refl eq_refl)
    as (H1 & H2 & _).
  split; [exact H1|apply H2].
Defined.

(** ** The meta interface, continued *)

Section MetaMoreFacts.
Import Js Meta DataWrapper.
Local Open Scope Z_scope.

Lemma utf8_encode_cp_nonempty (c : Z) : utf8_encode_cp c <> [].
Proof.
  unfold utf8_encode_cp.
  destruct ((55296 <=? c) && (c <=? 57343)); [discriminate|].
  destruct (c <? 128); [discriminate|].
  destruct (c <? 2048); [discriminate|].
  destruct (c <? 65536); discriminate.
Qed.

Lemma TextEncoder_encode_nil (s : ustring) :
  TextEncoder_encode s = [] <-> s = [].
Proof.
  split; [|now intros ->].
  destruct s as [|c s]; [reflexivity|].
  unfold TextEncoder_encode. cbn [flat_map]. intros H.
  apply app_eq_nil in H as [H _]. now apply utf8_encode_cp_nonempty in H.
Qed.

Lemma decodeMeta_not_null (b : Z) (bs : list Z) : decodeMeta (b :: bs) <> JNull.
Proof.
  unfold decodeMeta.
  destruct (test_number _ && negb (isNaN _)); [discriminate|].
  destruct (ustring_eqb _ (Js.text "true")); [discriminate|].
  destruct (ustring_eqb _ (Js.text "false")); discriminate.
Qed.

Lemma TextDecoder_decode_encode_ascii (s : ustring) :
  Forall (fun c => 0 <= c < 128) s ->
  TextDecoder_decode (TextEncoder_encode s) = s.
Proof.
  intros Hascii. unfold TextDecoder_decode.
  rewrite utf8_decode_encode_ascii by exact Hascii.
  destruct s as [|c s']; [reflexivity|].
  apply Forall_inv in Hascii.
  destruct c as [|p|p]; try reflexivity.
  repeat (destruct p as [p|p|]; try reflexivity); lia.
Qed.

(** Rounding a mantissa that is not negative never gives NaN. *)
Lemma shr_1_nonneg (mrs : shr_record) :
  0 <= shr_m mrs -> 0 <= shr_m (shr_1 mrs).
Proof.
  destruct mrs as [m r s]. cbn [shr_m]. intros H.
  destruct m as [|p|p]; [cbn; lia| |lia].
  destruct p; cbn; lia.
Qed.

Lemma iter_pos_shr_1_nonneg (p : positive) (mrs : shr_record) :
  0 <= shr_m mrs -> 0 <= shr_m (SpecFloat.iter_pos shr_1 p mrs).
Proof.
  revert mrs. induction p as [p IH|p IH|]; intros mrs H; cbn [SpecFloat.iter_pos].
  - apply IH, IH, shr_1_nonneg, H.
  - apply IH, IH, H.
  - now apply shr_1_nonneg.
Qed.

Lemma shr_fexp_nonneg (m e : Z) (l : location) :
  0 <= m -> 0 <= shr_m (fst (shr_fexp prec emax m e l)).
Proof.
  intros H. unfold shr_fexp, shr.
  assert (H0 : 0 <= shr_m (shr_record_of_loc m l)).
  { destruct l as [|[]]; exact H. }
  destruct (_ - e) as [|p|p]; cbn [fst]; try exact H0.
  now apply iter_pos_shr_1_nonneg.
Qed.

Lemma binary_round_aux_not_nan (sx : bool) (mx ex : Z) (lx : location) :
  0 <= mx -> isNaN (binary_round_aux prec emax sx mx ex lx) = false.
Proof.
  intros H. unfold binary_round_aux.
  pose proof (shr_fexp_nonneg mx ex lx H) as H1.
  destruct (shr_fexp prec emax mx ex lx) as [mrs' e']. cbn [fst] in H1.
  assert (H2 : 0 <= round_nearest_even (shr_m mrs') (loc_of_shr_record mrs')).
  { unfold round_nearest_even.
    destruct (loc_of_shr_record mrs') as [|[]]; try exact H1; try lia.
    destruct (Z.even (shr_m mrs')); lia. }
  pose proof (shr_fexp_nonneg _ e' loc_Exact H2) as H3.
  destruct (shr_fexp prec emax _ e' loc_Exact) as [mrs'' e''].
  cbn [fst] in H3.
  destruct (shr_m mrs'') as [|p|p]; [reflexivity| |lia].
  now destruct (e'' <=? emax - prec).
Qed.

Lemma parseFloat_not_nan (t : ustring) :
  test_number t = true -> isNaN (parseFloat t) = false.
Proof.
  unfold test_number, parseFloat.
  destruct (match_number t) as [[[neg int] frac]|]; [intros _|discriminate].
  destruct (digits_value (int ++ frac)%list) as [|m|m]; try reflexivity.
  unfold SFdiv.
  destruct (SFdiv_core_binary prec emax (Z.pos m) 0 _ 0) as [[mz ez] lz] eqn:E.
  apply binary_round_aux_not_nan.
  unfold SFdiv_core_binary in E.
  match type of E with
  | (let '(q, r) := Z.div_eucl ?a ?b in _) = _ =>
      pose proof (Z.div_eucl_eq a b ltac:(lia)) as Hd;
      pose proof (Z_div_mod a b ltac:(lia)) as Hm;
      assert (Ha : 0 <= a);
      [|destruct (Z.div_eucl a b) as [q r]]
  end.
  - match goal with
    | |- 0 <= match ?s with _ => _ end => destruct s; try lia
    end.
    apply Z.shiftl_nonneg. lia.
  - injection E as <- _ _. nia.
Qed.

(** How the bytes of a text in ASCII are decoded. *)
Lemma decodeMeta_encode_ascii (s : ustring) :
  s <> [] ->
  Forall (fun c => 0 <= c < 128) s ->
  decodeMeta (TextEncoder_encode s)
  = if test_number s then JNumber (parseFloat s)
    else if ustring_eqb s (Js.text "true") then JBoolean true
    else if ustring_eqb s (Js.text "false") then JBoolean false
    else JString s.
Proof.
  intros Hne Hascii. unfold decodeMeta.
  destruct (TextEncoder_encode s) as [|b bs] eqn:E.
  - apply (proj1 (TextEncoder_encode_nil s)) in E. congruence.
  - rewrite <- E, (TextDecoder_decode_encode_ascii s Hascii).
    destruct (test_number s) eqn:Hn; [|reflexivity].
    now rewrite (parseFloat_not_nan s Hn).
Qed.

End MetaMoreFacts.

(** X18: a string in ASCII that is not empty, does not match the number
    pattern and is not the literal "true" or "false" is read back by
    [get] exactly as [set] was given it. *)
Theorem meta_ascii_string_reads_back
    (key : string) (s : Js.ustring) (st : DataWrapper.State) :
  s <> [] ->
  Forall (fun c => 0 <= c < 128)%Z s ->
  Js.test_number s = false ->
  s <> Js.text "true" ->
  s <> Js.text "false" ->
  DataWrapper.meta_get key (snd (DataWrapper.meta_set key (Js.JString s) st))
  = Js.JString s.
Proof.
  intros Hne Hascii Hnum Ht Hf.
  rewrite (meta_get_after_set key (Js.JString s) (Js.TextEncoder_encode s)
             st eq_refl).
  rewrite decodeMeta_encode_ascii by assumption. rewrite Hnum.
  unfold Js.ustring_eqb. now rewrite !bool_decide_eq_false_2 by assumption.
Qed.

Lemma meta_ascii_string_reads_back_witness :
  DataWrapper.meta_get "greeting"
    (snd (DataWrapper.meta_set "greeting" (Js.JString (Js.text "hello, 42"))
            DataWrapper.new))
  = Js.JString (Js.text "hello, 42").
Proof.
  apply (meta_ascii_string_reads_back "greeting" (Js.text "hello, 42")
           DataWrapper.new).
  - discriminate.
  - repeat constructor; cbn; lia.
  - reflexivity.
  - discriminate.
  - discriminate.
Defined.

(** X19: a string that matches the number pattern (an optional minus
    sign, digits, an optional point and more digits) does not come back as
    a string: [get] returns the number that [parseFloat] reads from it. *)
Theorem meta_numeric_string_reads_back_as_number
    (key : string) (s : Js.ustring) (st : DataWrapper.State) :
  Forall (fun c => 0 <= c < 128)%Z s ->
  Js.test_number s = true ->
  DataWrapper.meta_get key (snd (DataWrapper.meta_set key (Js.JString s) st))
  = Js.JNumber (Js.parseFloat s)
  /\ DataWrapper.meta_get key
       (snd (DataWrapper.meta_set key (Js.JString s) st))
     <> Js.JString s.
Proof.
  intros Hascii Hnum.
  assert (Hne : s <> []) by (intros ->; discriminate).
  rewrite (meta_get_after_set key (Js.JString s) (Js.TextEncoder_encode s)
             st eq_refl).
  rewrite decodeMeta_encode_ascii by assumption. rewrite Hnum.
  split; [reflexivity|discriminate].
Qed.

Lemma meta_numeric_string_reads_back_as_number_witness :
  DataWrapper.meta_get "pin"
    (snd (DataWrapper.meta_set "pin" (Js.JString (Js.text "0042"))
            DataWrapper.new))
  = Js.JNumber (Js.number_of_Z 42).
Proof.
  apply (meta_numeric_string_reads_back_as_number "pin" (Js.text "0042")
           DataWrapper.new).
  - repeat constructor; cbn; lia.
  - reflexivity.
Defined.

(** X20: [set] accepts the empty string and returns [true], but [get]
    then answers [null]; and the empty string is the only string for which
    [get] answers [null] after [set]. *)
Theorem meta_string_null_iff_empty
    (key : string) (s : Js.ustring) (st : DataWrapper.State) :
  fst (DataWrapper.meta_set key (Js.JString s) st) = true
  /\ (DataWrapper.meta_get key
        (snd (DataWrapper.meta_set key (Js.JString s) st)) = Js.JNull
      <-> s = []).
Proof.
  split; [reflexivity|].
  rewrite (meta_get_after_set key (Js.JString s) (Js.TextEncoder_encode s)
             st eq_refl).
  split.
  - intros H. apply TextEncoder_encode_nil.
    destruct (Js.TextEncoder_encode s) as [|b bs]; [reflexivity|].
    now apply decodeMeta_not_null in H.
  - now intros ->.
Qed.

(** X21: the keys of the meta table are independent and the last write
    wins: [set] and [delete] on one key never change what [get] answers
    for another key, [get] after [delete] answers [null], and a second
    [set] on a key replaces what the first stored. *)
Theorem meta_keys_independent
    (key : string) (value : Js.JsValue) (st : DataWrapper.State) :
  (forall other : string,
     other <> key ->
     DataWrapper.meta_get other (snd (DataWrapper.meta_set key value st))
     = DataWrapper.meta_get other st
     /\ DataWrapper.meta_get other (snd (DataWrapper.meta_delete key st))
        = DataWrapper.meta_get other st)
  /\ DataWrapper.meta_get key (snd (DataWrapper.meta_delete key st)) = Js.JNull
  /\ (forall value2 : Js.JsValue,
        Meta.encodeMeta value2 <> None ->
        DataWrapper.meta_rows
          (snd (DataWrapper.meta_set key value2
                  (snd (DataWrapper.meta_set key value st))))
        = DataWrapper.meta_rows (snd (DataWrapper.meta_set key value2 st))).
Proof.
  split; [|split].
  - intros other Hne. unfold DataWrapper.meta_set, DataWrapper.meta_delete,
      DataWrapper.meta_get.
    destruct (Meta.encodeMeta value); cbn;
      rewrite ?lookup_insert_ne, ?lookup_delete_ne by congruence;
      split; reflexivity.
  - unfold DataWrapper.meta_delete, DataWrapper.meta_get. cbn.
    now rewrite lookup_delete_eq.
  - intros value2 H2. unfold DataWrapper.meta_set.
    destruct (Meta.encodeMeta value2) as [b2|]; [|contradiction].
    destruct (Meta.encodeMeta value) as [b1|]; cbn; [|reflexivity].
    apply insert_insert_eq.
Qed.

(** ** The row cache, continued *)

Section RowCacheMoreFacts.
Context {V : Type}.
Implicit Types (m : JsMap.t V) (c : RowCache.t V) (k : string) (v : V).

Lemma map_get_set k v m : JsMap.get k (JsMap.set k v m) = Some v.
Proof.
  induction m as [|[k' v'] m IH]; cbn [JsMap.set JsMap.get].
  - now rewrite String.eqb_refl.
  - destruct (String.eqb_spec k k') as [->|Hne]; cbn [JsMap.get].
    + now rewrite String.eqb_refl.
    + destruct (String.eqb_spec k k'); [contradiction|exact IH].
Qed.

Lemma map_get_None_iff k m : JsMap.get k m = None <-> ~ In k (map fst m).
Proof.
  induction m as [|[k' v'] m IH]; cbn [JsMap.get map fst].
  - split; [intros _ []|reflexivity].
  - destruct (String.eqb_spec k k') as [->|Hne].
    + split; [discriminate|]. intros H. exfalso. apply H. now left.
    + rewrite IH. split.
      * intros H [E|E]; [congruence|contradiction].
      * intros H E. apply H. now right.
Qed.

Lemma map_set_fresh k v m :
  ~ In k (map fst m) -> JsMap.set k v m = (m ++ [(k, v)])%list.
Proof.
  induction m as [|[k' v'] m IH]; cbn [JsMap.set map fst]; intros H.
  - reflexivity.
  - destruct (String.eqb_spec k k') as [->|Hne].
    + exfalso. apply H. now left.
    + cbn [app]. f_equal. apply IH. intros E. apply H. now right.
Qed.

Lemma map_keys_set k v m :
  map fst (JsMap.set k v m)
  = match JsMap.get k m with
    | Some _ => map fst m
    | None => (map fst m ++ [k])%list
    end.
Proof.
  induction m as [|[k' v'] m IH]; cbn [JsMap.set JsMap.get map fst].
  - reflexivity.
  - destruct (String.eqb_spec k k') as [->|Hne]; [reflexivity|].
    cbn [map fst]. rewrite IH. now destruct (JsMap.get k m).
Qed.

Lemma map_set_NoDup k v m :
  List.NoDup (map fst m) -> List.NoDup (map fst (JsMap.set k v m)).
Proof.
  intros H. rewrite map_keys_set. destruct (JsMap.get k m) eqn:E; [exact H|].
  apply map_get_None_iff in E.
  apply List.NoDup_Add with (a := k) (l := map fst m).
  - rewrite <- (app_nil_r (map fst m)) at 1. apply Add_app.
  - now constructor.
Qed.

Lemma map_keys_delete_incl k m x :
  In x (map fst (JsMap.delete k m)) -> In x (map fst m).
Proof.
  induction m as [|[k' v'] m IH]; cbn [JsMap.delete map fst]; [tauto|].
  destruct (String.eqb k k'); cbn [map fst In]; tauto.
Qed.

Lemma map_delete_NoDup k m :
  List.NoDup (map fst m) ->
  List.NoDup (map fst (JsMap.delete k m))
  /\ JsMap.get k (JsMap.delete k m) = None.
Proof.
  induction m as [|[k' v'] m IH]; cbn [JsMap.delete map fst]; intros H.
  - split; [constructor|reflexivity].
  - apply List.NoDup_cons_iff in H as [Hk H].
    destruct (String.eqb_spec k k') as [->|Hne].
    + split; [exact H|]. now apply map_get_None_iff.
    + destruct (IH H) as [H1 H2]. cbn [map fst JsMap.get]. split.
      * constructor; [|exact H1]. intros E. apply Hk.
        now apply map_keys_delete_incl in E.
      * destruct (String.eqb_spec k k'); [contradiction|exact H2].
Qed.

Lemma rowcache_set_NoDup k v c :
  List.NoDup (map fst (RowCache.cache c)) ->
  List.NoDup (map fst (RowCache.cache (RowCache.set k v c))).
Proof.
  intros H. unfold RowCache.set. cbn [RowCache.cache].
  apply map_set_NoDup.
  destruct (_ <=? _)%Z; [|exact H].
  destruct (JsMap.first_key (RowCache.cache c)); [|exact H].
  now apply map_delete_NoDup.
Qed.

Lemma rowcache_run_NoDup (ops : list (RowCache.Op V)) c :
  List.NoDup (map fst (RowCache.cache c)) ->
  List.NoDup (map fst (RowCache.cache (RowCache.run ops c))).
Proof.
  unfold RowCache.run. revert c.
  induction ops as [|op ops IH]; intros c H; [exact H|].
  cbn [fold_left]. apply IH. destruct op as [k|k v|k|]; cbn [RowCache.step].
  - exact H.
  - now apply rowcache_set_NoDup.
  - now apply map_delete_NoDup.
  - constructor.
Qed.

Lemma rowcache_run_maxSize (ops : list (RowCache.Op V)) c :
  RowCache.maxSize (fold_left RowCache.step ops c) = RowCache.maxSize c.
Proof.
  revert c. induction ops as [|op ops IH]; intros c; [reflexivity|].
  cbn [fold_left]. rewrite IH. apply rowcache_step_maxSize.
Qed.

(** Setting a fresh key: at capacity the first entry goes, then the new
    one is put last. *)
Lemma rowcache_set_fresh k v c :
  List.NoDup (map fst (RowCache.cache c)) ->
  ~ In k (map fst (RowCache.cache c)) ->
  RowCache.cache (RowCache.set k v c)
  = ((if (RowCache.maxSize c <=? Z.of_nat (length (RowCache.cache c)))%Z
      then skipn 1 (RowCache.cache c) else RowCache.cache c)
     ++ [(k, v)])%list.
Proof.
  intros Hnd Hk. unfold RowCache.set, JsMap.size. cbn [RowCache.cache].
  destruct (_ <=? _)%Z.
  - destruct (RowCache.cache c) as [|[k' v'] m] eqn:E; cbn [JsMap.first_key].
    + reflexivity.
    + cbn [JsMap.delete]. rewrite String.eqb_refl. cbn [skipn].
      apply map_set_fresh. intros H. apply Hk. now right.
  - now apply map_set_fresh.
Qed.

Lemma rowcache_fill (n : Z) (kvs : list (string * V)) :
  (1 <= n)%Z ->
  List.NoDup (map fst kvs) ->
  RowCache.cache
    (RowCache.run (map (fun kv => RowCache.OpSet (fst kv) (snd kv)) kvs)
       (RowCache.new n))
  = skipn (length kvs - Z.to_nat n) kvs.
Proof.
  intros Hn. induction kvs as [|[k v] kvs IH] using rev_ind; intros Hnd.
  - reflexivity.
  - rewrite map_app in Hnd.
    assert (Hnd' : List.NoDup (map fst kvs))
      by now apply List.NoDup_app_remove_r in Hnd.
    specialize (IH Hnd').
    unfold RowCache.run in *. rewrite map_app, fold_left_app.
    cbn [map fold_left RowCache.step fst snd].
    set (c := fold_left RowCache.step _ (RowCache.new n)) in *.
    assert (Hmax : RowCache.maxSize c = n).
    { unfold c. apply (rowcache_run_maxSize _ (RowCache.new n)). }
    set (d := (length kvs - Z.to_nat n)%nat) in *.
    assert (Hsk : skipn d (kvs ++ [(k, v)]) = (skipn d kvs ++ [(k, v)])%list).
    { rewrite skipn_app. replace (d - length kvs)%nat with 0%nat by lia.
      reflexivity. }
    assert (Hnd1 : List.NoDup (map fst (skipn d kvs ++ [(k, v)])%list)).
    { rewrite <- Hsk. rewrite <- map_app in Hnd.
      rewrite <- (firstn_skipn d (kvs ++ [(k, v)])), map_app in Hnd.
      now apply List.NoDup_app_remove_l in Hnd. }
    rewrite map_app in Hnd1. cbn [map fst] in Hnd1.
    rewrite rowcache_set_fresh.
    + rewrite IH, Hmax, length_skipn, length_app. cbn [length].
      replace (length kvs + 1 - Z.to_nat n)%nat
        with (if (n <=? Z.of_nat (length kvs - d))%Z then S d else d).
      * destruct (Z.leb_spec n (Z.of_nat (length kvs - d))).
        -- rewrite skipn_skipn.
           replace (1 + d)%nat with (S d) by lia.
           rewrite (skipn_app (S d)).
           replace (S d - length kvs)%nat with 0%nat by lia. reflexivity.
        -- now rewrite Hsk.
      * subst d.
        destruct (Z.leb_spec n
                    (Z.of_nat (length kvs - (length kvs - Z.to_nat n))));
          lia.
    + rewrite IH. now apply List.NoDup_remove_1 in Hnd1;
        rewrite app_nil_r in Hnd1.
    + rewrite IH. apply List.NoDup_remove_2 in Hnd1.
      now rewrite app_nil_r in Hnd1.
Qed.

End RowCacheMoreFacts.

(** X22: what [set] stores under a key, [get] returns for that key,
    whatever the capacity and the contents of the cache: the entry just
    written is never the one evicted. *)
Theorem rowcache_get_after_set
    (V : Type) (c : RowCache.t V) (key : string) (value : V) :
  RowCache.get key (RowCache.set key value c) = Some value.
Proof. unfold RowCache.get, RowCache.set. cbn. apply map_get_set. Qed.

(** X23: a cache of capacity [n >= 1] that is given entries under
    distinct keys, one [set] after the other, holds the last [n] of them
    in the order they were set: every [set] beyond the capacity evicts the
    entry that was set first among those still cached. *)
Theorem rowcache_keeps_last_inserted
    (V : Type) (n : Z) (kvs : list (string * V)) :
  (1 <= n)%Z ->
  List.NoDup (map fst kvs) ->
  RowCache.cache
    (RowCache.run (map (fun kv => RowCache.OpSet (fst kv) (snd kv)) kvs)
       (RowCache.new n))
  = skipn (length kvs - Z.to_nat n) kvs.
Proof. apply rowcache_fill. Qed.

Lemma rowcache_keeps_last_inserted_witness :
  RowCache.cache
    (RowCache.run
       (map (fun kv => RowCache.OpSet (fst kv) (snd kv))
          [("a", 1%Z); ("b", 2%Z); ("c", 3%Z)])
       (RowCache.new 2))
  = [("b", 2%Z); ("c", 3%Z)].
Proof.
  apply (rowcache_keeps_last_inserted Z 2 [("a", 1%Z); ("b", 2%Z); ("c", 3%Z)]).
  - lia.
  - apply NoDup_ListNoDup, (bool_decide_unpack _). vm_compute. exact I.
Defined.

(** X24: in a cache reached from a new one by any calls, the keys are
    distinct, so [delete] removes the key for good: a [get] right after
    [delete] misses, and so does a [get] after [clear]. *)
Theorem rowcache_delete_then_get
    (V : Type) (n : Z) (ops : list (RowCache.Op V)) (key : string) :
  let c := RowCache.run ops (RowCache.new n) in
  List.NoDup (map fst (RowCache.cache c))
  /\ RowCache.get key (RowCache.delete key c) = None
  /\ RowCache.get key (RowCache.clear c) = None.
Proof.
  intros c.
  assert (H : List.NoDup (map fst (RowCache.cache c))).
  { apply rowcache_run_NoDup. constructor. }
  split; [exact H|]. split; [|reflexivity].
  unfold RowCache.get, RowCache.delete. cbn [RowCache.cache].
  now apply map_delete_NoDup.
Qed.

(** X25: [set] on a full cache evicts the oldest entry even when the key
    it is given is already cached: the cache is then one entry short of
    its capacity, the oldest entry is gone, and the key holds the new
    value. *)
Theorem rowcache_update_when_full_evicts
    (V : Type) (n : Z) (ops : list (RowCache.Op V))
    (key first : string) (value : V) :
  let c := RowCache.run ops (RowCache.new n) in
  Z.of_nat (RowCache.size c) = n ->
  JsMap.first_key (RowCache.cache c) = Some first ->
  first <> key ->
  RowCache.get key c <> None ->
  let c' := RowCache.set key value c in
  S (RowCache.size c') = RowCache.size c
  /\ RowCache.get first c' = None
  /\ RowCache.get key c' = Some value.
Proof.
  intros c Hfull Hfirst Hne Hkey c'.
  assert (Hnd : List.NoDup (map fst (RowCache.cache c))).
  { apply rowcache_run_NoDup. constructor. }
  assert (Hmax : RowCache.maxSize c = n).
  { apply (rowcache_run_maxSize ops (RowCache.new n)). }
  split; [|split];
    [| |unfold c', RowCache.get, RowCache.set; cbn; apply map_get_set].
  - unfold c', RowCache.size, RowCache.set, JsMap.size in *.
    cbn [RowCache.cache]. rewrite Hmax, <- Hfull, Z.leb_refl, Hfirst.
    unfold RowCache.get in Hkey.
    destruct (RowCache.cache c) as [|[k0 v0] m]; [discriminate|].
    injection Hfirst as ->. cbn [JsMap.delete]. rewrite String.eqb_refl.
    cbn [JsMap.get] in Hkey.
    destruct (String.eqb_spec key first) as [E|_]; [congruence|].
    pose proof (f_equal (@length string) (map_keys_set key value m)) as Hl.
    destruct (JsMap.get key m); [|contradiction].
    rewrite !length_map in Hl. cbn [length]. now rewrite Hl.
  - unfold c', RowCache.get, RowCache.set, JsMap.size in *.
    cbn [RowCache.cache]. rewrite Hmax, <- Hfull.
    unfold RowCache.size, JsMap.size. rewrite Z.leb_refl, Hfirst.
    destruct (RowCache.cache c) as [|[k0 v0] m]; [discriminate|].
    injection Hfirst as ->. cbn [JsMap.delete]. rewrite String.eqb_refl.
    cbn [map fst] in Hnd. apply List.NoDup_cons_iff in Hnd as [Hk0 _].
    cbn [JsMap.get] in Hkey.
    destruct (String.eqb_spec key first) as [E|_]; [congruence|].
    apply map_get_None_iff. rewrite map_keys_set.
    destruct (JsMap.get key m); [exact Hk0|contradiction].
Qed.

Lemma rowcache_update_when_full_evicts_witness :
  let c :=
    RowCache.run [RowCache.OpSet "a" 1%Z; RowCache.OpSet "b" 2%Z]
      (RowCache.new 2) in
  let c' := RowCache.set "b" 3%Z c in
  S (RowCache.size c') = RowCache.size c
  /\ RowCache.get "a" c' = None
  /\ RowCache.get "b" c' = Some 3%Z.
Proof.
  apply (rowcache_update_when_full_evicts Z 2
           [RowCache.OpSet "a" 1%Z; RowCache.OpSet "b" 2%Z] "b" "a" 3%Z).
  - reflexivity.
  - reflexivity.
  - discriminate.
  - discriminate.
Defined.

(** ** Tables and rows, continued *)

Section TableFacts.
Import DataWrapper DataWrapperMore.

Lemma rows_with_rows (t : Table) (r : gmap string Row) (st : State) :
  rows t (with_rows t r st) = r.
Proof. destruct t; reflexivity. Qed.

Lemma rows_with_rowCache (t t' : Table) (c : RowCache.t Row) (st : State) :
  rows t (with_rowCache t' c st) = rows t st.
Proof. destruct t, t'; reflexivity. Qed.

Lemma rowCache_with_rowCache (t : Table) (c : RowCache.t Row) (st : State) :
  rowCache t (with_rowCache t c st) = c.
Proof. destruct t; reflexivity. Qed.

Lemma rowCache_with_rows (t t' : Table) (r : gmap string Row) (st : State) :
  rowCache t (with_rows t' r st) = rowCache t st.
Proof. destruct t, t'; reflexivity. Qed.

(** A read that misses the cache. *)
Lemma table_get_miss (t : Table) (jid : string) (st : State) :
  RowCache.get (cacheKey t jid) (rowCache t st) = None ->
  let row := default (default_row t jid) (rows t st !! jid) in
  let '(r1, st1) := table_get t jid st in
  r1 = row
  /\ rows t st1 = <[jid := row]> (rows t st)
  /\ RowCache.get (cacheKey t jid) (rowCache t st1) = Some row.
Proof.
  intros Hmiss row. unfold table_get. rewrite Hmiss.
  destruct (rows t st !! jid) as [r|] eqn:E; subst row; cbn [default].
  - rewrite E. cbn [default]. unfold Datatypes.id.
    rewrite rows_with_rowCache, rowCache_with_rowCache.
    split; [reflexivity|]. split.
    + symmetry. now apply insert_id.
    + unfold RowCache.get, RowCache.set. cbn. apply map_get_set.
  - rewrite rows_with_rows, lookup_insert_eq. cbn [default].
    unfold Datatypes.id.
    rewrite rows_with_rowCache, rowCache_with_rowCache, rows_with_rows.
    split; [reflexivity|]. split; [reflexivity|].
    unfold RowCache.get, RowCache.set. cbn. apply map_get_set.
Qed.

End TableFacts.

(** X26: reading the row of an identifier creates it when the table has
    none, with every column at its default, and returns it; a second read
    returns the same row and changes nothing, so no second row is made.
    The rows of other identifiers are not touched. *)
Theorem table_get_creates_row_once
    (t : DataWrapper.Table) (jid : string) (st : DataWrapper.State) :
  let '(r1, st1) := DataWrapper.table_get t jid st in
  DataWrapper.table_get t jid st1 = (r1, st1)
  /\ (RowCache.get (DataWrapper.cacheKey t jid) (DataWrapper.rowCache t st)
      = None ->
      DataWrapper.rows t st !! jid = None ->
      r1 = DataWrapper.default_row t jid
      /\ DataWrapper.rows t st1 !! jid = Some (DataWrapper.default_row t jid))
  /\ (forall other : string,
        other <> jid ->
        DataWrapper.rows t st1 !! other = DataWrapper.rows t st !! other).
Proof.
  destruct (RowCache.get (DataWrapper.cacheKey t jid)
              (DataWrapper.rowCache t st)) as [cached|] eqn:Hc.
  - unfold DataWrapper.table_get at 1. rewrite Hc.
    split; [|split].
    + unfold DataWrapper.table_get. now rewrite Hc.
    + discriminate.
    + reflexivity.
  - pose proof (table_get_miss t jid st Hc) as H.
    destruct (DataWrapper.table_get t jid st) as [r1 st1].
    destruct H as (Hr & Hrows & Hget).
    split; [|split].
    + unfold DataWrapper.table_get. now rewrite Hget, Hr.
    + intros _ Hnone. rewrite Hnone in Hr, Hrows. cbn [default] in Hr, Hrows.
      split; [exact Hr|]. rewrite Hrows. apply lookup_insert_eq.
    + intros other Hne. rewrite Hrows. now apply lookup_insert_ne.
Qed.



(** X28: [delete db.data[table][jid]] forgets the row: the table has no
    row for the identifier afterwards, the cache no entry, and the next
    read of the identifier creates and returns the default row, whatever
    the columns held before. *)
Theorem table_delete_forgets_row
    (t : DataWrapper.Table) (jid : string) (st : DataWrapper.State) :
  List.NoDup (map fst (RowCache.cache (DataWrapper.rowCache t st))) ->
  let st1 := snd (DataWrapperMore.table_delete t jid st) in
  DataWrapperMore.table_has t jid st1 = false
  /\ RowCache.get (DataWrapper.cacheKey t jid) (DataWrapper.rowCache t st1)
     = None
  /\ fst (DataWrapper.table_get t jid st1) = DataWrapper.default_row t jid
  /\ DataWrapperMore.table_has t jid (snd (DataWrapper.table_get t jid st1))
     = true.
Proof.
  intros Hnd st1.
  assert (Hrows : DataWrapper.rows t st1 !! jid = None).
  { unfold st1, DataWrapperMore.table_delete. cbn [snd].
    rewrite rows_with_rowCache, rows_with_rows. apply lookup_delete_eq. }
  assert (Hget : RowCache.get (DataWrapper.cacheKey t jid)
                   (DataWrapper.rowCache t st1) = None).
  { unfold st1, DataWrapperMore.table_delete. cbn [snd].
    rewrite rowCache_with_rowCache, rowCache_with_rows.
    unfold RowCache.get, RowCache.delete. cbn [RowCache.cache].
    now apply map_delete_NoDup. }
  pose proof (table_get_miss t jid st1 Hget) as H.
  rewrite Hrows in H. cbn [default] in H.
  destruct (DataWrapper.table_get t jid st1) as [r2 st2].
  destruct H as (Hr & Hrows2 & _). cbn [fst snd].
  split; [|split; [exact Hget|split; [exact Hr|]]].
  - unfold DataWrapperMore.table_has. now rewrite Hrows.
  - unfold DataWrapperMore.table_has. rewrite Hrows2.
    now rewrite lookup_insert_eq.
Qed.

Lemma table_delete_forgets_row_witness :
  let jid := "628123456789@s.whatsapp.net" in
  let st := snd (DataWrapper.table_get DataWrapper.chats jid DataWrapper.new) in
  let st1 := snd (DataWrapperMore.table_delete DataWrapper.chats jid st) in
  DataWrapperMore.table_has DataWrapper.chats jid st1 = false
  /\ fst (DataWrapper.table_get DataWrapper.chats jid st1)
     = DataWrapper.default_row DataWrapper.chats jid.
Proof.
  intros jid st st1.
  destruct (table_delete_forgets_row DataWrapper.chats jid st) as (H1 & _ & H3 & _).
  - apply NoDup_ListNoDup, (bool_decide_unpack _). vm_compute. exact I.
  - split; [exact H1|exact H3].
Defined.

Section AccessorFacts.
Import JsString PushMessage Bind BindMore.

Lemma glob_prefix_inv (a key : string) :
  includes_char "*" a = false ->
  MemoryStore.glob (a ++ "*") key = true ->
  exists s, key = a ++ s.
Proof.
  revert key. induction a as [|c a IH]; intros key Ha Hg.
  - now exists key.
  - change (String c a ++ "*") with (String c (a ++ "*")) in Hg.
    cbn [includes_char] in Ha. cbn [MemoryStore.glob] in Hg.
    rewrite (Ascii.eqb_sym c "*") in Hg.
    destruct (Ascii.eqb "*" c); [discriminate|].
    destruct key as [|d key]; [discriminate|].
    apply andb_prop in Hg as [E Hg]. apply Ascii.eqb_eq in E. subst d.
    destruct (IH key Ha Hg) as [s ->]. now exists s.
Qed.

Lemma glob_chat_prefix (key : string) :
  MemoryStore.glob (REDIS_PREFIX ++ "*") key = true ->
  exists jid, key = REDIS_PREFIX ++ jid.
Proof. now apply glob_prefix_inv. Qed.

End AccessorFacts.

(** X29: [getAllChats] lists what the store holds under the chat prefix:
    every chat that [getChat] finds under some identifier is in the list,
    and every entity in the list is stored under a key of the form
    [o3din:chat:<identifier>]. *)
Theorem getAllChats_lists_chats (st : Bind.Store) :
  (forall (jid : string) (c : Bind.Chat),
     Bind.getChat jid st = Some c ->
     In (Bind.EChat c) (BindMore.getAllChats st))
  /\ (forall e : Bind.Entity,
        In e (BindMore.getAllChats st) ->
        exists jid, MemoryStore.get (Bind.REDIS_PREFIX ++ jid) st = Some e).
Proof.
  unfold BindMore.getAllChats, MemoryStore.mget. split.
  - intros jid c Hc. unfold Bind.getChat, MemoryStore.get in Hc.
    destruct (MemoryStore.data st !! _) as [[c'|m|l]|] eqn:E;
      try discriminate.
    injection Hc as ->.
    apply list_elem_of_In, list_elem_of_omap.
    exists (Some (Bind.EChat c)). split; [|reflexivity].
    apply list_elem_of_In, in_map_iff.
    exists (Bind.REDIS_PREFIX ++ jid). split; [exact E|].
    apply store_keys_In. split; [apply glob_prefix|]. rewrite E. eauto.
  - intros e He.
    apply list_elem_of_In, list_elem_of_omap in He as (o & Ho & ->).
    apply list_elem_of_In, in_map_iff in Ho as (key & Hk & Hin).
    apply store_keys_In in Hin as [Hg _].
    apply glob_chat_prefix in Hg as [jid ->]. now exists jid.
Qed.

(** X30: the kind [pushMessage] assigns to a message.  Content with at
    least one key has a kind, which is one of its keys.  When the first
    key that is neither [senderKeyDistributionMessage] nor
    [messageContextInfo] is not the empty key, that key is the kind:
    content of a real kind that travels with a sender-key distribution is
    typed by the real kind.  The kind is one of the two only as the last
    key, and only when every key is one of the two or the first other key
    is the empty one, which the code takes for none.  Content without
    keys has no kind. *)
Theorem mtype_of_first_real_kind (mtypeKeys : list string) :
  let internal k :=
    k = "senderKeyDistributionMessage" \/ k = "messageContextInfo" in
  mtypeKeys <> [] ->
  (exists k : string,
     PushMessage.mtype_of mtypeKeys = Some k
     /\ In k mtypeKeys
     /\ (internal k ->
         last mtypeKeys = Some k
         /\ forall (pre post : list string) (k0 : string),
              mtypeKeys = (pre ++ k0 :: post)%list ->
              Forall internal pre -> ~ internal k0 -> k0 = ""))
  /\ (forall (pre post : list string) (k0 : string),
        mtypeKeys = (pre ++ k0 :: post)%list ->
        Forall internal pre -> ~ internal k0 -> k0 <> "" ->
        PushMessage.mtype_of mtypeKeys = Some k0)
  /\ PushMessage.mtype_of [] = None.
Proof.
  intros internal Hne.
  set (p := fun k => negb (String.eqb k "senderKeyDistributionMessage")
                     && negb (String.eqb k "messageContextInfo")).
  assert (Hp : forall k, p k = true <-> ~ internal k).
  { intros k. unfold p, internal.
    destruct (String.eqb_spec k "senderKeyDistributionMessage");
      destruct (String.eqb_spec k "messageContextInfo"); cbn; split;
      try tauto; try discriminate; intros H; exfalso; apply H; auto. }
  assert (Hfind : forall pre post k0,
            mtypeKeys = (pre ++ k0 :: post)%list ->
            Forall internal pre -> ~ internal k0 ->
            find p mtypeKeys = Some k0).
  { intros pre post k0 -> Hpre Hk0. clear Hne.
    induction Hpre as [|x pre Hx _ IH].
    - cbn [app find]. apply Hp in Hk0. now rewrite Hk0.
    - cbn [app find]. destruct (p x) eqn:Ex; [|exact IH].
      apply Hp in Ex. contradiction. }
  assert (Hlast : exists k, last mtypeKeys = Some k /\ In k mtypeKeys).
  { destruct (last mtypeKeys) as [k|] eqn:El.
    - exists k. split; [reflexivity|].
      apply last_Some in El as [l' ->]. apply in_or_app. right. now left.
    - apply last_None in El. contradiction. }
  assert (Htruthy : forall k, JsString.truthy k = true <-> k <> "").
  { intros k. destruct k; cbn; split; try discriminate; try tauto. }
  split; [|split; [|reflexivity]].
  - unfold PushMessage.mtype_of. fold p.
    destruct (find p mtypeKeys) as [k1|] eqn:Ef.
    + destruct (JsString.truthy k1) eqn:Et.
      * exists k1. apply find_some in Ef as [Hin Hk1].
        split; [reflexivity|]. split; [exact Hin|].
        intros Hi. apply Hp in Hk1. contradiction.
      * destruct Hlast as (k & El & Hin). exists k.
        split; [exact El|]. split; [exact Hin|]. intros _.
        split; [exact El|]. intros pre post k0 E Hpre Hk0.
        pose proof (Hfind pre post k0 E Hpre Hk0) as E1.
        injection E1 as <-.
        destruct k1; [reflexivity|discriminate].
    + destruct Hlast as (k & El & Hin). exists k.
      split; [exact El|]. split; [exact Hin|]. intros _.
      split; [exact El|]. intros pre post k0 E Hpre Hk0.
      pose proof (Hfind pre post k0 E Hpre Hk0) as E1. discriminate.
  - intros pre post k0 E Hpre Hk0 Hk0'.
    unfold PushMessage.mtype_of. fold p.
    rewrite (Hfind pre post k0 E Hpre Hk0).
    apply Htruthy in Hk0'. now rewrite Hk0'.
Qed.

Lemma mtype_of_first_real_kind_witness :
  PushMessage.mtype_of
    ["senderKeyDistributionMessage"; "conversation"; "messageContextInfo"]
  = Some "conversation".
Proof.
  refine (proj1 (proj2 (mtype_of_first_real_kind
                          ["senderKeyDistributionMessage"; "conversation";
                           "messageContextInfo"] _))
            ["senderKeyDistributionMessage"] ["messageContextInfo"]
            "conversation" eq_refl _ _ _).
  - discriminate.
  - repeat constructor.
  - intros [H|H]; discriminate.
  - discriminate.
Defined.

(** The empty key counts as no kind: behind it, the last key is the
    kind, even a sender-key distribution. *)
Example mtype_of_empty_key :
  PushMessage.mtype_of [""; "senderKeyDistributionMessage"]
  = Some "senderKeyDistributionMessage".
Proof. reflexivity. Qed.
